(** * VibeList backend: the candidate-selection pipeline of [spotify_client.py]

    A shallow embedding of [backend/spotify_client.py]: the genre normalizer,
    the seed budgeter, the target jitterer, the recommendation requester, the
    content filter, the result shaper and the genre-hero resolver, together
    with the properties the specification states about them.
    After those come the rest of [spotify_client.py] (the OAuth settings, the
    token store, the playlist helpers, the debug wrappers), the routes of
    [main.py] and the extractor of [ai_engine.py], with further properties
    read off the code.

    Conventions of the embedding.
    - Python [str] is [string]; the text functions below are exact on ASCII
      text (the regular expressions of the source only ever keep [a-z] and
      [-], every other character is a separator).
    - Python [int] is [Z]; Python [float] is [Q], an exact rational: a float
      is a dyadic rational, and the comparisons of the source against integer
      bounds are exact on it.  The decimal constants [0.85], [0.66], [0.03],
      [0.12], [0.15], [0.6], [0.4] are taken at their decimal value.  Where
      a statement depends on how a float computation rounds, it bounds the
      result with a margin instead of giving its exact value.
    - [set[str]] is [gset string], [dict[str, _]] is [gmap string _].
    - The Spotify client [sp] is a record of oracles indexed by a call
      counter, so that the service may answer the same request differently at
      different times; every call may raise.
    - Module-level caches and the log of external calls live in a [world]
      that a state-and-exception monad threads through the code.
    - The draws of [random] are explicit arguments. *)

From Stdlib Require Import ZArith QArith Qminmax Qround Lqa String Ascii List Permutation Lia.
From stdpp Require Import gmap strings list.

Open Scope string_scope.

(** ** Text primitives *)

Module Text.

Definition code (c : ascii) : N := N_of_ascii c.

Definition is_upper (c : ascii) : bool := ((65 <=? code c) && (code c <=? 90))%N.
Definition is_lower (c : ascii) : bool := ((97 <=? code c) && (code c <=? 122))%N.

(** [str.lower()] on ASCII text. *)
Definition lower_ascii (c : ascii) : ascii :=
  if is_upper c then ascii_of_N (code c + 32) else c.

Fixpoint lower (s : string) : string :=
  match s with
  | EmptyString => EmptyString
  | String c s' => String (lower_ascii c) (lower s')
  end.

(** [needle in hay] for strings. *)
Fixpoint contains (needle hay : string) : bool :=
  String.prefix needle hay ||
  match hay with
  | EmptyString => false
  | String _ hay' => contains needle hay'
  end.

(** [re.split(r"[^...]+", s)] where [sep c] says that [c] is outside the
    character class: the pieces between maximal runs of separators, empty
    pieces at both ends included. *)
Fixpoint re_split_from (sep : ascii -> bool) (s cur : string) (in_run : bool)
  : list string :=
  match s with
  | EmptyString => [cur]
  | String c s' =>
      if sep c then
        if in_run then re_split_from sep s' EmptyString true
        else cur :: re_split_from sep s' EmptyString true
      else re_split_from sep s' (cur ++ String c EmptyString) false
  end.

Definition re_split (sep : ascii -> bool) (s : string) : list string :=
  re_split_from sep s EmptyString false.

(** The whitespace [str.strip()] removes on ASCII text. *)
Definition is_space (c : ascii) : bool :=
  ((code c =? 32) || ((9 <=? code c) && (code c <=? 13))
   || ((28 <=? code c) && (code c <=? 31)))%N.

Fixpoint lstrip (s : string) : string :=
  match s with
  | EmptyString => EmptyString
  | String c s' => if is_space c then lstrip s' else s
  end.

Fixpoint rstrip (s : string) : string :=
  match s with
  | EmptyString => EmptyString
  | String c s' =>
      match rstrip s' with
      | EmptyString => if is_space c then EmptyString else String c EmptyString
      | r => String c r
      end
  end.

Definition strip (s : string) : string := rstrip (lstrip s).

(** [s.replace(" ", "")]. *)
Fixpoint remove_spaces (s : string) : string :=
  match s with
  | EmptyString => EmptyString
  | String c s' =>
      if (code c =? 32)%N then remove_spaces s' else String c (remove_spaces s')
  end.

(** [" ".join(l)]. *)
Fixpoint join_spaces (l : list string) : string :=
  match l with
  | [] => EmptyString
  | [s] => s
  | s :: l' => s ++ " " ++ join_spaces l'
  end.

(** Truthiness of a string. *)
Definition nonempty (s : string) : bool :=
  match s with EmptyString => false | _ => true end.

End Text.

(** Python slices [l[:k]]. *)
Definition slice_to {A} (k : Z) (l : list A) : list A :=
  if (0 <=? k)%Z then take (Z.to_nat k) l
  else take (length l - Z.to_nat (- k)) l.

Definition len {A} (l : list A) : Z := Z.of_nat (length l).

(** Truthiness of a list. *)
Definition truthy {A} (l : list A) : bool :=
  match l with [] => false | _ => true end.

(** ** Genre normalizer: the pure part *)

(** The second, effective binding of [DEFAULT_SEED_GENRES] (a set). *)
Definition DEFAULT_SEED_GENRES : gset string :=
  list_to_set
    [ "pop"; "dance-pop"; "edm"; "house"; "hip-hop"; "r-n-b";
      "indie-pop"; "alt-rock"; "trap"; "electronic"; "chill";
      "ambient"; "dancehall"; "reggaeton"; "funk"; "soul" ].

Definition genre_sep (c : ascii) : bool :=
  negb (Text.is_lower c || (Text.code c =? 45)%N).

Definition _split_tokens (s : string) : list string :=
  filter (fun t => Is_true (Text.nonempty t)) (Text.re_split genre_sep (Text.lower s)).

(** What the caller may pass as [genres]: a string, a list or tuple whose
    elements are strings ([Some]) or anything else ([None]), or a value of
    another type; [truth] is that value's truthiness. *)
Inductive genres_arg :=
| GStr (s : string)
| GList (l : list (option string))
| GOther (truth : bool).

Definition genres_truthy (g : genres_arg) : bool :=
  match g with
  | GStr s => Text.nonempty s
  | GList l => truthy l
  | GOther b => b
  end.

Definition genre_tokens (genres : genres_arg) : list string :=
  match genres with
  | GStr s => _split_tokens s
  | GList l =>
      flat_map (fun g => match g with Some s => _split_tokens s | None => [] end) l
  | GOther _ => []
  end.

Definition synonyms : gmap string string :=
  list_to_map
    [ ("lofi", "chillhop"); ("lo-fi", "chillhop");
      ("hiphop", "hip-hop"); ("hip-hop", "hip-hop");
      ("rnb", "r-n-b"); ("r&b", "r-n-b");
      ("indiepop", "indie-pop"); ("alt", "alternative");
      ("altrock", "alt-rock"); ("electro", "electronic");
      ("dance", "dance-pop"); ("party", "dance-pop");
      ("workout", "edm"); ("club", "house");
      ("reggae", "dancehall") ].

(** The loop building [cleaned]: synonym folding, first-seen order, no
    repeats. *)
Fixpoint clean_tokens (tokens : list string) (seen : gset string) : list string :=
  match tokens with
  | [] => []
  | t :: rest =>
      let t' := default t (synonyms !! t) in
      if Text.nonempty t' && bool_decide (t' ∉ seen)
      then t' :: clean_tokens rest ({[t']} ∪ seen)
      else clean_tokens rest seen
  end.

Definition fallback_genres : list string :=
  [ "dance-pop"; "edm"; "hip-hop"; "indie-pop"; "pop"; "house"; "trap" ].

Definition keep_allowed (allowed : gset string) (l : list string) : list string :=
  filter (fun g => g ∈ allowed) l.

(** The body of [_normalize_genre_list] once [allowed] is known. *)
Definition normalize_in (allowed : gset string) (genres : genres_arg) : list string :=
  let cleaned := clean_tokens (genre_tokens genres) ∅ in
  let valid := keep_allowed allowed cleaned in
  let valid :=
    if truthy valid then valid
    else take 5 (keep_allowed allowed fallback_genres) in
  take 5 valid.

(** ** Data exchanged with the music service *)

(** A track object as the code reads it: its ["uri"], its ["id"], and the
    ["id"] of each of its ["artists"] ([None] where the key is missing). *)
Record track := {
  track_uri : option string;
  track_id : option string;
  track_artists : list (option string);
}.

(** What [sp.tracks] returns per identifier: title and album name. *)
Record track_meta := {
  meta_name : option string;
  meta_album : option string;
}.

(** What [sp.audio_features] returns per identifier. *)
Record features := {
  instrumentalness : option Q;
  speechiness : option Q;
  energy : option Q;
  tempo : option Q;
  duration_ms : option Z;
}.

(** An entry of an artist's ["images"]: the ["url"] key may be missing. *)
Inductive image :=
| NoUrlKey
| Url (u : option string).

Record artist := {
  artist_id : option string;
  artist_name : option string;
  artist_images : option (list image);
  artist_url : option string;
  artist_genres : option (list string);
}.

(** Keyword arguments of [sp.recommendations]; [None] is an absent key. *)
Record payload := {
  kw_limit : Z;
  kw_market : option string;
  kw_target_energy : option Q;
  kw_target_valence : option Q;
  kw_target_danceability : option Q;
  kw_target_acousticness : option Q;
  kw_target_tempo : option Z;
  kw_seed_artists : option (list string);
  kw_seed_genres : option (list string);
  kw_seed_tracks : option (list string);
}.

Inductive exn :=
| SpotifyException
| UnboundLocalError
| IndexError
| KeyError.

Inductive outcome (A : Type) :=
| Ret (a : A)
| Raise (e : exn).
Arguments Ret {A} a.
Arguments Raise {A} e.

(** The external calls the code makes, as they are logged. *)
Inductive call :=
| CallGenreSeeds
| CallArtist (aid : string)
| CallSearch (q type : string) (lim : Z) (mkt : option string)
| CallRecommendations (p : payload)
| CallArtistTopTracks (aid country : string)
| CallTracks (ids : list string)
| CallAudioFeatures (ids : list string).

(** The Spotify client.  The first argument of each method is the number of
    external calls made before this one. *)
Record Spotify := {
  sp_genre_seeds : nat -> outcome (list string);
  sp_artist : nat -> string -> outcome artist;
  sp_search_tracks : nat -> string -> Z -> outcome (list track);
  sp_search_artists : nat -> string -> Z -> outcome (list artist);
  sp_recommendations : nat -> payload -> outcome (list track);
  sp_artist_top_tracks : nat -> string -> outcome (list track);
  sp_tracks : nat -> list string -> outcome (list (option track_meta));
  sp_audio_features : nat -> list string -> outcome (option (list (option features)));
}.

(** [GenreHero]: the dict [get_genre_hero] builds. *)
Record hero := {
  hero_id : string;
  hero_name : string;
  hero_image : option string;
  hero_url : string;
}.

(** ** Process state and the monad of the embedding *)

Record world := {
  calls : list call;                            (* most recent first *)
  _ALLOWED_GENRES_CACHE : option (gset string);         (* _ALLOWED_GENRES_CACHE *)
  _GENRE_HERO_CACHE : gmap string hero;                (* _GENRE_HERO_CACHE *)
}.

Definition clock (w : world) : nat := length (calls w).

Definition M (A : Type) : Type := world -> outcome A * world.

Definition ret {A} (a : A) : M A := fun w => (Ret a, w).

Definition raise {A} (e : exn) : M A := fun w => (Raise e, w).

Definition bind {A B} (m : M A) (k : A -> M B) : M B :=
  fun w =>
    match m w with
    | (Ret a, w') => k a w'
    | (Raise e, w') => (Raise e, w')
    end.

Notation "'let*' x ':=' m 'in' k" := (bind m (fun x => k))
  (at level 10, x pattern, m at level 100, k at level 200).

(** [try: m  except Exception: pass]: the value of [m], or [None] when it
    raised; the state changes made before the exception stay. *)
Definition attempt {A} (m : M A) : M (option A) :=
  fun w =>
    match m w with
    | (Ret a, w') => (Ret (Some a), w')
    | (Raise _, w') => (Ret None, w')
    end.

Definition record_call (c : call) (w : world) : world :=
  {| calls := c :: calls w;
     _ALLOWED_GENRES_CACHE := _ALLOWED_GENRES_CACHE w;
     _GENRE_HERO_CACHE := _GENRE_HERO_CACHE w |}.

(** An external call: the service answers by the number of calls made so
    far, and the call is logged whether it returns or raises. *)
Definition external {A} (c : call) (reply : nat -> outcome A) : M A :=
  fun w => (reply (clock w), record_call c w).

Definition returned {A} (o : outcome A) : option A :=
  match o with Ret a => Some a | Raise _ => None end.

Definition get_allowed_cache : M (option (gset string)) :=
  fun w => (Ret (_ALLOWED_GENRES_CACHE w), w).

Definition set_allowed_cache (s : gset string) : M unit :=
  fun w =>
    (Ret tt,
     {| calls := calls w;
        _ALLOWED_GENRES_CACHE := Some s;
        _GENRE_HERO_CACHE := _GENRE_HERO_CACHE w |}).

Definition get_hero_cache : M (gmap string hero) :=
  fun w => (Ret (_GENRE_HERO_CACHE w), w).

Definition set_hero (g : string) (data : hero) : M unit :=
  fun w =>
    (Ret tt,
     {| calls := calls w;
        _ALLOWED_GENRES_CACHE := _ALLOWED_GENRES_CACHE w;
        _GENRE_HERO_CACHE := <[g := data]> (_GENRE_HERO_CACHE w) |}).

(** ** Content filter: the pure part *)

Definition _BLOCK_TERMS : list string :=
  [ "rain"; "rainfall"; "thunder"; "storm"; "thunderstorm";
    "ocean"; "waves"; "water sounds"; "nature sounds";
    "brown noise"; "white noise"; "pink noise";
    "asmr"; "sleep"; "meditation"; "focus sounds"; "relaxing sounds" ].

Definition _EXCEPT_PHRASES : list string := [ "purple rain" ].

(** The argument of [_looks_like_sfx]: a track dict, a string, or [None]. *)
Inductive sfx_arg :=
| SfxDict (t : track_meta)
| SfxStr (s : string)
| SfxNone.

Definition sfx_hay (a : sfx_arg) : string :=
  match a with
  | SfxDict t =>
      Text.lower (default "" (meta_name t)) ++ " " ++ Text.lower (default "" (meta_album t))
  | SfxStr s => Text.lower s
  | SfxNone => ""
  end.

Definition letter_sep (c : ascii) : bool := negb (Text.is_lower c).

Definition _looks_like_sfx (a : sfx_arg) : bool :=
  let hay := sfx_hay a in
  if existsb (fun p => Text.contains p hay) _EXCEPT_PHRASES then false
  else
    let tokens := map Text.strip (Text.re_split letter_sep hay) in
    if existsb (fun term => bool_decide (Text.remove_spaces term ∈ tokens)) _BLOCK_TERMS
    then true
    else existsb (fun term => Text.contains term hay) _BLOCK_TERMS.

Definition Qltb (a b : Q) : bool := negb (Qle_bool b a).

(** [tempo_lo, tempo_hi] of [_audio_feature_filter]. *)
Definition tempo_window (target_tempo : option Z) : option (Z * Z) :=
  match target_tempo with
  | Some t => Some (Z.max 40 (t - 20), Z.min 220 (t + 20))
  | None => None
  end.

(** The test [tempo < tempo_lo - 8 or tempo > tempo_hi + 8]. *)
Definition tempo_outside (window : Z * Z) (tempo : Q) : bool :=
  Qltb tempo (inject_Z (fst window - 8)) || Qltb (inject_Z (snd window + 8)) tempo.

Definition at_least (bound : Q) (x : option Q) : bool :=
  match x with Some v => Qle_bool bound v | None => false end.

Definition at_most (bound : Q) (x : option Q) : bool :=
  match x with Some v => Qle_bool v bound | None => false end.

(** The body of the audio-feature loop for one feature object: [true] when
    the candidate is dropped. *)
Definition feature_reject (vocals_required : bool) (window : option (Z * Z))
    (f : features) : bool :=
  if (10 * 60 * 1000 <=? default 0 (duration_ms f))%Z then true
  else if at_least (66 # 100) (speechiness f) then true
  else if vocals_required && at_least (85 # 100) (instrumentalness f) then true
  else if at_most (3 # 100) (energy f) then true
  else
    match tempo f, window with
    | Some t, Some win => tempo_outside win t
    | _, _ => false
    end.

Definition meta_arg (t : option track_meta) : sfx_arg :=
  match t with Some d => SfxDict d | None => SfxNone end.

(** The title/album loop; an index past the mask raises [IndexError] in the
    source, which the loop body catches and ignores. *)
Fixpoint meta_loop (i : nat) (meta : list (option track_meta)) (keep_mask : list bool)
  : list bool :=
  match meta with
  | [] => keep_mask
  | t :: rest =>
      meta_loop (S i) rest
        (if _looks_like_sfx (meta_arg t) then <[i := false]> keep_mask else keep_mask)
  end.

(** The audio-feature loop; here reading [keep_mask[i]] past the mask is not
    caught. *)
Fixpoint features_loop (i : nat) (feats : list (option features)) (keep_mask : list bool)
    (vocals_required : bool) (window : option (Z * Z)) : outcome (list bool) :=
  match feats with
  | [] => Ret keep_mask
  | f :: rest =>
      match keep_mask !! i with
      | None => Raise IndexError
      | Some kept =>
          match f with
          | Some f' =>
              if kept && feature_reject vocals_required window f'
              then features_loop (S i) rest (<[i := false]> keep_mask) vocals_required window
              else features_loop (S i) rest keep_mask vocals_required window
          | None => features_loop (S i) rest keep_mask vocals_required window
          end
      end
  end.

(** [[u for u, ok in zip(uris, keep_mask) if ok]]. *)
Fixpoint select_kept (uris : list string) (keep_mask : list bool) : list string :=
  match uris, keep_mask with
  | u :: us, ok :: oks => if ok then u :: select_kept us oks else select_kept us oks
  | _, _ => []
  end.

(** [u.split(":")[-1]]. *)
Fixpoint last_segment_from (s cur : string) : string :=
  match s with
  | EmptyString => cur
  | String c s' =>
      if (Text.code c =? 58)%N then last_segment_from s' EmptyString
      else last_segment_from s' (cur ++ String c EmptyString)
  end.

Definition last_segment (s : string) : string := last_segment_from s EmptyString.

(** ** Vibe parameters *)

(** The [params] dict, its fields typed as [analyze_vibe_to_json] and
    [playlist_create] produce them.  A genre field that is absent is
    [GOther false]; a range, the tempo or a flag that is absent is [None]. *)
Record params := {
  user_artist_ids : list string;
  user_genres : genres_arg;
  genre_candidates : genres_arg;
  genres : genres_arg;
  energy_range : option (list Q);
  valence_range : option (list Q);
  danceability_range : option (list Q);
  acousticness_range : option (list Q);
  tempo_bpm : option Z;
  keywords : list string;
  instrumental_ok : option bool;
  vocals_required : option bool;
}.

(** [params_relaxed] of [recommend_tracks]. *)
Definition relax (ps : params) : params :=
  {| user_artist_ids := user_artist_ids ps;
     user_genres := user_genres ps;
     genre_candidates := genre_candidates ps;
     genres := genres ps;
     energy_range := energy_range ps;
     valence_range := valence_range ps;
     danceability_range := danceability_range ps;
     acousticness_range := acousticness_range ps;
     tempo_bpm := tempo_bpm ps;
     keywords := keywords ps;
     instrumental_ok := Some true;
     vocals_required := Some false |}.

(** [vocals_required = params.get("vocals_required", not instrumental_ok)]. *)
Definition vocals_needed (ps : params) : bool :=
  default (negb (default false (instrumental_ok ps))) (vocals_required ps).

(** ** Target jitterer *)

Definition clamp01 (x : Q) : Q := Qmax 0 (Qmin 1 x).

(** [mid] of [recommend_tracks]: the clamped midpoint of a range. *)
Definition mid (pair : option (list Q)) : Q :=
  let pair := default [1 # 2; 1 # 2] pair in
  clamp01 (fold_right Qplus 0 pair / 2)%Q.

(** [round(x, 2)]: to the nearest hundredth, ties to the even one. *)
Definition round2 (x : Q) : Q :=
  let y := (x * 100)%Q in
  let f := Qfloor y in
  match (y - inject_Z f ?= 1 # 2)%Q with
  | Lt => f # 100
  | Gt => (f + 1)%Z # 100
  | Eq => if Z.even f then f # 100 else (f + 1)%Z # 100
  end.

(** [random.uniform(a, b)] is [a + (b - a) * random()]; [u] is the draw of
    [random()]. *)
Definition uniform (a b u : Q) : Q := (a + (b - a) * u)%Q.

Definition _jitter (val : option Q) (spread : Q) (u : Q) : option Q :=
  match val with
  | None => None
  | Some v =>
      let lo := Qmax 0 (v - spread)%Q in
      let hi := Qmin 1 (v + spread)%Q in
      Some (round2 (uniform lo hi u))
  end.

(** The local [_j] of [recommend_tracks]; its default spread is [0.12]. *)
Definition _j (x : option Q) (spread : Q) (u : Q) : option Q :=
  match x with
  | None => None
  | Some v =>
      let lo := Qmax 0 (v - spread)%Q in
      let hi := Qmin 1 (v + spread)%Q in
      Some (round2 (uniform lo hi u))
  end.

(** The draws one run of [recommend_tracks] takes from [random]. *)
Record entropy := {
  u_energy : Q;
  u_valence : Q;
  u_danceability : Q;
  u_acousticness : Q;
  tempo_delta : Z;                           (* random.randint(-8, 8) *)
  coin : Q;                                  (* random.random() *)
  shuffle : list string -> list string;      (* random.shuffle *)
}.

(** ** The candidate pool *)

(** [bag] and [seen] of [recommend_tracks]. *)
Definition pool : Type := list string * gset string.

(** [if u and u not in seen: seen.add(u); bag.append(u)]. *)
Definition add_uri (t : track) (p : pool) : pool :=
  match track_uri t with
  | Some u =>
      if Text.nonempty u && bool_decide (u ∉ p.2)
      then ((p.1 ++ [u])%list, {[u]} ∪ p.2)
      else p
  | None => p
  end.

Definition add_uris (items : list track) (p : pool) : pool :=
  fold_left (fun acc t => add_uri t acc) items p.

(** The inner loop of the artist quota: at most [per_artist] new tracks. *)
Fixpoint add_top_tracks (items : list track) (taken per_artist : Z) (p : pool) : pool :=
  match items with
  | [] => p
  | t :: rest =>
      if (per_artist <=? taken)%Z then p
      else
        match track_uri t with
        | Some u =>
            if Text.nonempty u && bool_decide (u ∉ p.2)
            then add_top_tracks rest (taken + 1) per_artist ((p.1 ++ [u])%list, {[u]} ∪ p.2)
            else add_top_tracks rest taken per_artist p
        | None => add_top_tracks rest taken per_artist p
        end
  end.

Definition DEFAULT_MARKET : string := "US".

Section Client.

Variable sp : Spotify.

(** ** Genre vocabulary and normalizer *)

Definition fetch_allowed_genres : M (gset string) :=
  let* seeds := attempt (external CallGenreSeeds (sp_genre_seeds sp)) in
  match seeds with
  | Some (g :: gs) =>
      let* _ := set_allowed_cache (list_to_set (g :: gs)) in
      ret (list_to_set (g :: gs))
  | _ =>
      let* _ := set_allowed_cache DEFAULT_SEED_GENRES in
      ret DEFAULT_SEED_GENRES
  end.

Definition _allowed_genres : M (gset string) :=
  let* cache := get_allowed_cache in
  match cache with
  | Some c => if bool_decide (c ≠ ∅) then ret c else fetch_allowed_genres
  | None => fetch_allowed_genres
  end.

Definition _normalize_genre_list (genres : genres_arg) : M (list string) :=
  let* fetched := _allowed_genres in
  let allowed := if bool_decide (fetched ≠ ∅) then fetched else DEFAULT_SEED_GENRES in
  ret (normalize_in allowed genres).

(** ** Seeds from keywords and from the artists' genres *)

(** The inner loop of [_keywords_to_seed_tracks]. *)
Fixpoint collect_ids (items : list track) (seeds : list string) (max_tracks : Z)
  : list string :=
  match items with
  | [] => seeds
  | t :: rest =>
      match track_id t with
      | Some i =>
          if Text.nonempty i then
            let seeds' := (seeds ++ [i])%list in
            if (max_tracks <=? len seeds')%Z then seeds'
            else collect_ids rest seeds' max_tracks
          else collect_ids rest seeds max_tracks
      | None => collect_ids rest seeds max_tracks
      end
  end.

Definition keyword_query (kw : string) : string :=
  if Text.contains " " kw then "track:" ++ String (ascii_of_N 34) kw ++ String (ascii_of_N 34) ""
  else kw.

Fixpoint keyword_loop (kws : list string) (seeds : list string) (max_tracks : Z)
  : M (list string) :=
  match kws with
  | [] => ret seeds
  | kw :: rest =>
      let q := keyword_query kw in
      let* res := attempt (external (CallSearch q "track" 2 (Some DEFAULT_MARKET))
                                    (fun t => sp_search_tracks sp t q 2)) in
      match res with
      | None => ret seeds
      | Some items =>
          let seeds' := collect_ids items seeds max_tracks in
          if (max_tracks <=? len seeds')%Z then ret seeds'
          else keyword_loop rest seeds' max_tracks
      end
  end.

Definition _keywords_to_seed_tracks (keywords : list string) (max_tracks : Z)
  : M (list string) :=
  keyword_loop (take 3 keywords) [] max_tracks.

Fixpoint artist_genres_loop (aids : list string) (raw : list string)
  : M (list string) :=
  match aids with
  | [] => ret raw
  | aid :: rest =>
      let* a := attempt (external (CallArtist aid) (fun t => sp_artist sp t aid)) in
      match a with
      | Some a => artist_genres_loop rest (raw ++ default [] (artist_genres a))%list
      | None => artist_genres_loop rest raw
      end
  end.

Definition _artist_seed_genres (artist_ids : list string) (lim : Z)
  : M (list string) :=
  let* raw := artist_genres_loop (take 3 artist_ids) [] in
  let* normalized := _normalize_genre_list (GList (map Some raw)) in
  ret (slice_to lim normalized).

(** ** Content filter *)

Definition _audio_feature_filter (uris : list string) (ps : params)
  : M (list string) :=
  if negb (truthy uris) then ret uris
  else
    let vocals_required := vocals_needed ps in
    let window := tempo_window (tempo_bpm ps) in
    let ids := map last_segment uris in
    let* meta := attempt (external (CallTracks ids) (fun t => sp_tracks sp t ids)) in
    let meta := default [] meta in
    let keep_mask := meta_loop 0 meta (replicate (length uris) true) in
    let* feats := attempt (external (CallAudioFeatures ids)
                                    (fun t => sp_audio_features sp t ids)) in
    match feats with
    | Some (Some (f :: fs)) =>
        match features_loop 0 (f :: fs) keep_mask vocals_required window with
        | Ret keep_mask' => ret (select_kept uris keep_mask')
        | Raise e => raise e
        end
    | _ => ret (select_kept uris keep_mask)
    end.

(** ** Recommendation requester *)

(** The second [def _add_from_recs] of [recommend_tracks], the one the name
    is bound to when the calls below run: one call with the keyword
    arguments as they are, [True] unless the call raised.  The first [def]
    (market, country and bare variants, success only when tracks came back)
    is rebound before any call and never runs. *)
Definition _add_from_recs (_kwargs : payload) (p : pool) : M (bool * pool) :=
  let* recs := attempt (external (CallRecommendations _kwargs)
                                 (fun t => sp_recommendations sp t _kwargs)) in
  match recs with
  | Some items => ret (true, add_uris items p)
  | None => ret (false, p)
  end.

Definition slim_of (kwargs : payload) (seeds_artists seeds_genres : option (list string))
  : payload :=
  {| kw_limit := kw_limit kwargs; kw_market := Some DEFAULT_MARKET;
     kw_target_energy := None; kw_target_valence := None;
     kw_target_danceability := None; kw_target_acousticness := None;
     kw_target_tempo := None;
     kw_seed_artists := seeds_artists; kw_seed_genres := seeds_genres;
     kw_seed_tracks := None |}.

Definition genres_only_of (kwargs : payload) (seed_genres : list string) : payload :=
  {| kw_limit := kw_limit kwargs; kw_market := Some DEFAULT_MARKET;
     kw_target_energy := None; kw_target_valence := None;
     kw_target_danceability := None; kw_target_acousticness := None;
     kw_target_tempo := None;
     kw_seed_artists := None; kw_seed_genres := Some seed_genres;
     kw_seed_tracks := None |}.

(** "try full kwargs first", "fallback 1", "fallback 2": the three calls of
    [_add_from_recs] in [recommend_tracks]. *)
Definition request_chain (kwargs : payload)
    (seeds_artists seeds_genres : option (list string)) (seed_genres : list string)
    (p : pool) : M pool :=
  let* (ok, p) := _add_from_recs kwargs p in
  let* (ok, p) :=
    if negb ok then _add_from_recs (slim_of kwargs seeds_artists seeds_genres) p
    else ret (ok, p) in
  let* (ok, p) :=
    if negb ok && truthy seed_genres
    then _add_from_recs (genres_only_of kwargs seed_genres) p
    else ret (ok, p) in
  ret p.

(** ** Artist quota *)

Fixpoint top_tracks_loop (aids : list string) (per_artist : Z) (p : pool) : M pool :=
  match aids with
  | [] => ret p
  | aid :: rest =>
      let* res := attempt (external (CallArtistTopTracks aid DEFAULT_MARKET)
                                    (fun t => sp_artist_top_tracks sp t aid)) in
      match res with
      | Some items => top_tracks_loop rest per_artist (add_top_tracks items 0 per_artist p)
      | None => top_tracks_loop rest per_artist p
      end
  end.

Definition artist_quota (user_artist_ids : list string) (n : Z) (p : pool) : M pool :=
  if truthy user_artist_ids then
    let target_total := Z.max 8 (Z.min ((n * 3) / 5) 28) in
    let per_artist := Z.max 2 (target_total / Z.max 1 (len user_artist_ids)) in
    top_tracks_loop (take 5 user_artist_ids) per_artist p
  else ret p.

(** ** Seed budgeter and the pipeline *)

Definition upbeat_pref : list string :=
  [ "dance-pop"; "edm"; "house"; "pop"; "hip-hop" ].

(** [raw_genres]: the first truthy one of the three genre fields, else
    the empty list. *)
Definition raw_genres_of (ps : params) : genres_arg :=
  if genres_truthy (user_genres ps) then user_genres ps
  else if genres_truthy (genre_candidates ps) then genre_candidates ps
  else if genres_truthy (genres ps) then genres ps
  else GList [].

(** What the seed budgeter hands to the requester. *)
Record request := {
  req_candidates : list string;
  req_seed_artists : list string;
  req_seed_genres : list string;
  req_seeds_artists : option (list string);   (* seeds["seed_artists"] *)
  req_seeds_genres : option (list string);    (* seeds["seed_genres"] *)
  req_kwargs : payload;
}.

(** [recommend_tracks] up to and including the keyword seed track. *)
Definition build_request (ps : params) (n : Z) (rnd : entropy) : M request :=
  let* candidates := _normalize_genre_list (raw_genres_of ps) in
  let energy_center := mid (energy_range ps) in
  let valence_center := mid (valence_range ps) in
  let danceability_center := mid (danceability_range ps) in
  let acoustic_center := mid (acousticness_range ps) in
  let tempo := default 100%Z (tempo_bpm ps) in
  let tempo := Z.max 40 (Z.min 220 tempo) in
  let seed_artists := take 3 (user_artist_ids ps) in
  let seed_genres := slice_to (Z.max 0 (5 - len seed_artists)) candidates in
  let* seed_genres :=
    if truthy seed_artists && negb (truthy seed_genres)
    then _artist_seed_genres seed_artists (Z.max 0 (5 - len seed_artists))
    else ret seed_genres in
  let* seed_genres :=
    if negb (truthy seed_artists) && negb (truthy seed_genres) then
      let* fetched := _allowed_genres in
      let allowed :=
        if bool_decide (fetched ≠ ∅) then fetched else DEFAULT_SEED_GENRES in
      let preferred := keep_allowed allowed upbeat_pref in
      let picked := if truthy preferred then preferred else elements allowed in
      match picked with
      | g :: _ => ret [g]
      | [] => raise IndexError
      end
    else ret seed_genres in
  let seeds_artists :=
    if truthy seed_artists then Some (slice_to (Z.max 0 5) seed_artists) else None in
  let seeds_genres :=
    if truthy seed_genres && (len seed_artists <? 5)%Z
    then Some (slice_to (5 - len seed_artists) seed_genres) else None in
  let kwargs :=
    {| kw_limit := Z.min 50 (Z.max 10 n);
       kw_market := Some DEFAULT_MARKET;
       kw_target_energy := _j (Some energy_center) (12 # 100) (u_energy rnd);
       kw_target_valence := _j (Some valence_center) (12 # 100) (u_valence rnd);
       kw_target_danceability := _j (Some danceability_center) (12 # 100) (u_danceability rnd);
       kw_target_acousticness := _j (Some acoustic_center) (12 # 100) (u_acousticness rnd);
       kw_target_tempo := Some (tempo + tempo_delta rnd)%Z;
       kw_seed_artists := seeds_artists;
       kw_seed_genres := seeds_genres;
       kw_seed_tracks := None |} in
  let* kw_seeds := _keywords_to_seed_tracks (keywords ps) 2 in
  let kwargs :=
    if truthy kw_seeds && negb (bool_decide (is_Some (kw_seed_tracks kwargs)))
       && Qltb (coin rnd) (6 # 10)
    then
      let current_seed_count :=
        (len (default [] seeds_artists) + len (default [] seeds_genres))%Z in
      let room := Z.max 0 (5 - current_seed_count) in
      if (0 <? room)%Z then
        {| kw_limit := kw_limit kwargs; kw_market := kw_market kwargs;
           kw_target_energy := kw_target_energy kwargs;
           kw_target_valence := kw_target_valence kwargs;
           kw_target_danceability := kw_target_danceability kwargs;
           kw_target_acousticness := kw_target_acousticness kwargs;
           kw_target_tempo := kw_target_tempo kwargs;
           kw_seed_artists := kw_seed_artists kwargs;
           kw_seed_genres := kw_seed_genres kwargs;
           kw_seed_tracks := Some (take 1 kw_seeds) |}
      else kwargs
    else kwargs in
  ret {| req_candidates := candidates;
         req_seed_artists := seed_artists;
         req_seed_genres := seed_genres;
         req_seeds_artists := seeds_artists;
         req_seeds_genres := seeds_genres;
         req_kwargs := kwargs |}.

(** The three survivor sets of the staged relaxation. *)
Definition stage0 (bag : list string) (ps : params) : M (list string) :=
  _audio_feature_filter bag ps.

Definition stage1 (bag : list string) (ps : params) : M (list string) :=
  _audio_feature_filter bag (relax ps).

Definition stage2 (bag : list string) : list string :=
  filter (fun u => Is_true (negb (_looks_like_sfx (SfxStr u)))) bag.

(** The block under [if len(bag) < n]: search backfill, then the filter
    with its relaxation; the result is the binding of [filtered]. *)
Definition backfill_and_filter (ps : params) (n : Z) (candidates : list string)
    (p : pool) : M (list string) :=
  let query_bits :=
    if truthy (keywords ps) then keywords ps
    else if truthy candidates then candidates
    else ["best"; "mix"] in
  let q := Text.join_spaces (take 3 query_bits) in
  let* res := attempt (external (CallSearch q "track" 50 (Some DEFAULT_MARKET))
                                (fun t => sp_search_tracks sp t q 50)) in
  let p := match res with Some items => add_uris items p | None => p end in
  let bag := p.1 in
  let* filtered := stage0 bag ps in
  let* filtered :=
    if (len filtered <? Z.quot (6 * n) 10)%Z then stage1 bag ps else ret filtered in
  let filtered :=
    if (len filtered <? Z.quot (4 * n) 10)%Z then stage2 bag else filtered in
  ret filtered.

Definition recommend_tracks (ps : params) (n : Z) (rnd : entropy) : M (list string) :=
  let* req := build_request ps n rnd in
  let* p := request_chain (req_kwargs req) (req_seeds_artists req)
              (req_seeds_genres req) (req_seed_genres req) ([], ∅) in
  let* p := artist_quota (user_artist_ids ps) n p in
  let* filtered :=
    if (len p.1 <? n)%Z
    then let* f := backfill_and_filter ps n (req_candidates req) p in ret (Some f)
    else ret None in
  match filtered with
  | Some f => ret (slice_to n (shuffle rnd f))
  | None => raise UnboundLocalError
  end.

(** [len(bag)] when [recommend_tracks] reaches [if len(bag) < n], or [None]
    when it raised before getting there. *)
Definition gathered (ps : params) (n : Z) (rnd : entropy) (w : world) : option Z :=
  match build_request ps n rnd w with
  | (Ret req, w1) =>
      match request_chain (req_kwargs req) (req_seeds_artists req)
              (req_seeds_genres req) (req_seed_genres req) ([], ∅) w1 with
      | (Ret p, w2) =>
          match artist_quota (user_artist_ids ps) n p w2 with
          | (Ret p', _) => Some (len p'.1)
          | (Raise _, _) => None
          end
      | (Raise _, _) => None
      end
  | (Raise _, _) => None
  end.

(** ** Genre hero resolver *)

Definition _first_image_url (artist_obj : artist) : outcome (option string) :=
  match default [] (artist_images artist_obj) with
  | [] => Ret None
  | NoUrlKey :: _ => Raise KeyError
  | Url u :: _ => Ret u
  end.

Definition url_truthy (u : option string) : bool :=
  match u with Some s => Text.nonempty s | None => false end.

(** Truthiness of an artist dict: it has some key. *)
Definition artist_truthy (a : artist) : bool :=
  bool_decide (is_Some (artist_id a)) || bool_decide (is_Some (artist_name a))
  || bool_decide (is_Some (artist_images a)) || bool_decide (is_Some (artist_url a))
  || bool_decide (is_Some (artist_genres a)).

Definition lift {A} (o : outcome A) : M A := fun w => (o, w).

Definition _safe_artist (aid : string) : M (option artist) :=
  attempt (external (CallArtist aid) (fun t => sp_artist sp t aid)).

Fixpoint first_with_image (items : list artist) : outcome (option artist) :=
  match items with
  | [] => Ret None
  | a :: rest =>
      match _first_image_url a with
      | Ret u => if url_truthy u then Ret (Some a) else first_with_image rest
      | Raise e => Raise e
      end
  end.

Fixpoint hero_from_tracks (ts : list track) : M (option artist) :=
  match ts with
  | [] => ret None
  | t :: rest =>
      match track_artists t with
      | [] => hero_from_tracks rest
      | None :: _ => raise KeyError
      | Some aid :: _ =>
          let* a := _safe_artist aid in
          match a with
          | Some a' =>
              if artist_truthy a' then
                let* u := lift (_first_image_url a') in
                if url_truthy u then ret (Some a') else hero_from_tracks rest
              else hero_from_tracks rest
          | None => hero_from_tracks rest
          end
      end
  end.

Definition quoted (s : string) : string :=
  String (ascii_of_N 34) s ++ String (ascii_of_N 34) "".

Definition hero_payload (genre : string) : payload :=
  {| kw_limit := 20; kw_market := Some "US";
     kw_target_energy := None; kw_target_valence := None;
     kw_target_danceability := None; kw_target_acousticness := None;
     kw_target_tempo := None;
     kw_seed_artists := None; kw_seed_genres := Some [genre];
     kw_seed_tracks := None |}.

Definition _search_artist_by_genre (genre : string) : M (option artist) :=
  let q := "genre:" ++ quoted genre in
  let* direct :=
    attempt (let* items := external (CallSearch q "artist" 10 None)
                                    (fun t => sp_search_artists sp t q 10) in
             lift (first_with_image items)) in
  match direct with
  | Some (Some a) => ret (Some a)
  | _ =>
      let* via_recs :=
        attempt (let* recs := external (CallRecommendations (hero_payload genre))
                                (fun t => sp_recommendations sp t (hero_payload genre)) in
                 hero_from_tracks recs) in
      match via_recs with
      | Some (Some a) => ret (Some a)
      | _ => ret None
      end
  end.

Definition _CANON : gmap string string :=
  list_to_map
    [ ("pop", "06HL4z0CvFAxyc27GXpf02");
      ("hip-hop", "3TVXtAsR1Inumwj472S9r4");
      ("r-n-b", "1Xyo4u8uXC1ZmMpatF05PJ");
      ("edm", "7CajNmpbOovFoOoasH2HaY");
      ("house", "1Cs0zKBU1kc0i8ypK3B9h8a");
      ("dance-pop", "66CXWjxzNUsdJxJ2JdwvnR");
      ("reggaeton", "1vyhD5VmyZ7KMfW5gqLgo5");
      ("dancehall", "2wY79sveU1sp5g7SokKOiI");
      ("ambient", "2BTZIqw0ntH9MvilQ3ewNY");
      ("electronic", "4tZwfgrHOc3mvqYlEYSvVi");
      ("indie-pop", "3e7awlrlDSwF3iM0WBjGMp");
      ("alt-rock", "5BvJzeQpmsdsFp4HGUYUEx");
      ("soul", "3fMbdgg4jU18AjLCKBhRSm");
      ("funk", "7M1FPw29m5FbicYzS2xdpi");
      ("trap", "1URnnhqYAYcrqrcwql10ft") ].

(** The dict [data] built from an artist object; a missing key raises. *)
Definition hero_of (a : artist) : outcome hero :=
  match artist_id a with
  | None => Raise KeyError
  | Some i =>
      match artist_name a with
      | None => Raise KeyError
      | Some nm =>
          match _first_image_url a with
          | Raise e => Raise e
          | Ret img =>
              match artist_url a with
              | None => Raise KeyError
              | Some u =>
                  Ret {| hero_id := i; hero_name := nm;
                         hero_image := img; hero_url := u |}
              end
          end
      end
  end.

(** [if a: data = {...}; _GENRE_HERO_CACHE[g] = data; return data]. *)
Definition memoize (g : string) (a : option artist) : M (option hero) :=
  match a with
  | Some a' =>
      if artist_truthy a' then
        let* data := lift (hero_of a') in
        let* _ := set_hero g data in
        ret (Some data)
      else ret None
  | None => ret None
  end.

(** [(genre or "").strip().lower()], the key of the hero cache. *)
Definition genre_key (genre : string) : string := Text.lower (Text.strip genre).

Definition get_genre_hero (genre : string) : M (option hero) :=
  let g := genre_key genre in
  if negb (Text.nonempty g) then ret None
  else
    let* cache := get_hero_cache in
    match cache !! g with
    | Some data => ret (Some data)
    | None =>
        let* fast :=
          match _CANON !! g with
          | Some canon_id =>
              let* a := _safe_artist canon_id in
              memoize g a
          | None => ret None
          end in
        match fast with
        | Some data => ret (Some data)
        | None =>
            let* a := _search_artist_by_genre g in
            memoize g a
        end
    end.

(** The part of [get_genre_hero] below the cache lookup: the canonical
    pick, then the dynamic search. *)
Definition resolve_miss (g : string) : M (option hero) :=
  let* fast :=
    match _CANON !! g with
    | Some canon_id => let* a := _safe_artist canon_id in memoize g a
    | None => ret None
    end in
  match fast with
  | Some data => ret (Some data)
  | None => let* a := _search_artist_by_genre g in memoize g a
  end.

(** ** The requester as the specification words it *)

(** A list without its repeats, each element where it first occurs. *)
Fixpoint dedup_first (l : list string) : list string :=
  match l with
  | [] => []
  | x :: l' => x :: filter (fun y => y ≠ x) (dedup_first l')
  end.

(** Merging the tracks of an answer into the running result, deduplicated
    by identifier: the identifiers of the answer that are non-empty and not
    yet in the result are appended in the order of the answer, each once.
    The second component is the set of the identifiers of the result. *)
Definition merge (items : list track) (p : pool) : pool :=
  let new :=
    dedup_first
      (filter (fun u => Is_true (Text.nonempty u) ∧ u ∉ p.1) (omap track_uri items)) in
  ((p.1 ++ new)%list, list_to_set (p.1 ++ new)%list).

(** One pass over a list of request shapes: a stage succeeds when its call
    returns at least one track, and then its tracks are merged and the
    pass stops; on an exception or an empty result the next shape is
    tried. *)
Fixpoint run_stages (stages : list payload) (p : pool) : M pool :=
  match stages with
  | [] => ret p
  | shape :: rest =>
      let* recs := attempt (external (CallRecommendations shape)
                                     (fun t => sp_recommendations sp t shape)) in
      match recs with
      | Some (t :: ts) => ret (merge (t :: ts) p)
      | _ => run_stages rest p
      end
  end.

(** "Omitting any null target values": an absent key and a null value are
    both [None] in a [payload], so the shape is the payload itself. *)
Definition omit_null_targets (kwargs : payload) : payload := kwargs.

(** The four shapes of the specification, in its order. *)
Definition spec_request_chain (kwargs : payload)
    (seeds_artists seeds_genres : option (list string)) (seed_genres : list string)
    (p : pool) : M pool :=
  run_stages
    ([ kwargs; omit_null_targets kwargs; slim_of kwargs seeds_artists seeds_genres ]
     ++ (if truthy seed_genres then [genres_only_of kwargs seed_genres] else []))%list
    p.

(** The three shapes the source has, run by the same rule. *)
Definition staged_request_chain (kwargs : payload)
    (seeds_artists seeds_genres : option (list string)) (seed_genres : list string)
    (p : pool) : M pool :=
  run_stages
    ([ kwargs; slim_of kwargs seeds_artists seeds_genres ]
     ++ (if truthy seed_genres then [genres_only_of kwargs seed_genres] else []))%list
    p.

End Client.


(** ** Predicates of the statements *)

(** The identifiers sent with a request. *)
Definition seed_count (p : payload) : Z :=
  (len (default [] (kw_seed_artists p)) + len (default [] (kw_seed_genres p))
   + len (default [] (kw_seed_tracks p)))%Z.

(** Every request sent stays within the budget of five seeds. *)
Definition within_budget (p : payload) : Prop := (seed_count p <= 5)%Z.

(** The seed budget in full, for the caller's artist identifiers [ids]: at
    most five seeds; the artist seeds, when sent, are the first three of
    [ids]; the genre seeds fit the slots those leave; at most one track
    seed. *)
Definition budget_ok (ids : list string) (p : payload) : Prop :=
  within_budget p
  ∧ (kw_seed_artists p = None ∨ kw_seed_artists p = Some (take 3 ids))
  ∧ (len (default [] (kw_seed_genres p)) <= 5 - len (take 3 ids))%Z
  ∧ (len (default [] (kw_seed_tracks p)) <= 1)%Z.

(** The pool holds no identifier twice, and [seen] covers [bag]. *)
Definition pool_ok (p : pool) : Prop :=
  NoDup p.1 ∧ ∀ u, u ∈ p.1 → u ∈ p.2.

(** The pool holds no identifier twice, and [seen] is the set of the
    identifiers of [bag]: what [recommend_tracks] starts from and keeps. *)
Definition pool_exact (p : pool) : Prop :=
  NoDup p.1 ∧ p.2 = list_to_set p.1.

Definition on_recommendations (P : payload → Prop) (c : call) : Prop :=
  match c with
  | CallRecommendations p => P p
  | _ => True
  end.

(** From [w] to [w'] the log only grew, by calls whose recommendation
    requests satisfy [P], and the hero cache is the same. *)
Definition frame (P : payload → Prop) (w w' : world) : Prop :=
  (∃ l, calls w' = (l ++ calls w)%list ∧ Forall (on_recommendations P) l)
  ∧ _GENRE_HERO_CACHE w' = _GENRE_HERO_CACHE w.

(** A run of [m] frames the state, and a value it returns satisfies [Q]. *)
Definition sound {A} (P : payload → Prop) (Q : A → Prop) (m : M A) : Prop :=
  ∀ w, frame P w (m w).2 ∧ ∀ a, (m w).1 = Ret a → Q a.

(** The tempo target of the full request: the input tempo (100 when absent)
    clamped to [[40, 220]], plus the draw of [randint(-8, 8)]. *)
Definition sent_tempo (ps : params) (rnd : entropy) : Z :=
  (Z.max 40 (Z.min 220 (default 100 (tempo_bpm ps))) + tempo_delta rnd)%Z.

(** What the seed budgeter guarantees about the request it hands over: the
    three shapes the requester may send all respect the budget, and the full
    shape carries the jittered tempo target. *)
Definition request_ok (ps : params) (rnd : entropy) (req : request) : Prop :=
  let ids := user_artist_ids ps in
  let kwargs := req_kwargs req in
  req_seed_artists req = take 3 ids
  ∧ budget_ok ids kwargs
  ∧ budget_ok ids (slim_of kwargs (req_seeds_artists req) (req_seeds_genres req))
  ∧ budget_ok ids (genres_only_of kwargs (req_seed_genres req))
  ∧ kw_target_tempo kwargs = Some (sent_tempo ps rnd).

(** One resolution step for the genre [g], from [w] to the outcome [r]: the
    log only grew, and the hero cache gained exactly the entry [g] when a
    hero was returned and is the same otherwise. *)
Definition hero_step (P : payload → Prop) (g : string) (w : world)
    (r : outcome (option hero) * world) : Prop :=
  (∃ l, calls r.2 = (l ++ calls w)%list ∧ Forall (on_recommendations P) l)
  ∧ match r.1 with
    | Ret (Some d) => _GENRE_HERO_CACHE r.2 = <[g := d]> (_GENRE_HERO_CACHE w)
    | _ => _GENRE_HERO_CACHE r.2 = _GENRE_HERO_CACHE w
    end.

(** A run of [m] never raises, and the value it returns satisfies [Q]. *)
Definition returns {A} (Q : A → Prop) (m : M A) : Prop :=
  ∀ w, ∃ a w', m w = (Ret a, w') ∧ Q a.

(** The tempo target a request carries, if any, is the jittered one. *)
Definition tempo_as_sent (ps : params) (rnd : entropy) (p : payload) : Prop :=
  kw_target_tempo p = None ∨ kw_target_tempo p = Some (sent_tempo ps rnd).

(** One mask keeps at least what another keeps. *)
Definition mask_le (m0 m1 : list bool) : Prop :=
  Forall2 (λ a b : bool, a = true → b = true) m0 m1.

(** The first four rules of the audio-feature loop leave the candidate in:
    only the tempo rule is left to decide. *)
Definition passes_other_rules (vocals_required : bool) (f : features) : bool :=
  negb (10 * 60 * 1000 <=? default 0 (duration_ms f))%Z
  && negb (at_least (66 # 100) (speechiness f))
  && negb (vocals_required && at_least (85 # 100) (instrumentalness f))
  && negb (at_most (3 # 100) (energy f)).

(** The interval the specification gives for the jitter. *)
Definition spec_jitter_interval (center spread r : Q) : Prop :=
  (Qmax 0 (center - spread) <= r ∧ r <= Qmin 1 (center - spread))%Q.

(** The title rule leaves the candidate at position [i] in: the reply of
    [sp.tracks] has no entry there that [_looks_like_sfx] flags (a failed
    lookup flags nothing). *)
Definition title_keeps (reply : outcome (list (option track_meta))) (i : nat) : Prop :=
  match reply with
  | Ret meta => ∀ t, meta !! i = Some t → _looks_like_sfx (meta_arg t) = false
  | Raise _ => True
  end.

(** ** Concrete services, states and inputs *)

Module Scenario.

(** A service that fails every call. *)
Definition offline : Spotify :=
  {| sp_genre_seeds := fun _ => Raise SpotifyException;
     sp_artist := fun _ _ => Raise SpotifyException;
     sp_search_tracks := fun _ _ _ => Raise SpotifyException;
     sp_search_artists := fun _ _ _ => Raise SpotifyException;
     sp_recommendations := fun _ _ => Raise SpotifyException;
     sp_artist_top_tracks := fun _ _ => Raise SpotifyException;
     sp_tracks := fun _ _ => Raise SpotifyException;
     sp_audio_features := fun _ _ => Raise SpotifyException |}.

(** A fresh process. *)
Definition fresh : world :=
  {| calls := []; _ALLOWED_GENRES_CACHE := None; _GENRE_HERO_CACHE := ∅ |}.

(** A process whose vocabulary has been loaded. *)
Definition with_vocabulary (v : list string) : world :=
  {| calls := []; _ALLOWED_GENRES_CACHE := Some (list_to_set v); _GENRE_HERO_CACHE := ∅ |}.

(** The defaults of the vibe extractor. *)
Definition default_params : params :=
  {| user_artist_ids := [];
     user_genres := GOther false;
     genre_candidates := GList [];
     genres := GOther false;
     energy_range := Some [5 # 10; 7 # 10];
     valence_range := Some [4 # 10; 7 # 10];
     danceability_range := Some [4 # 10; 7 # 10];
     acousticness_range := Some [2 # 10; 6 # 10];
     tempo_bpm := Some 100%Z;
     keywords := [];
     instrumental_ok := None;
     vocals_required := None |}.

Definition with_tempo (t : Z) : params :=
  {| user_artist_ids := [];
     user_genres := GOther false;
     genre_candidates := GList [];
     genres := GOther false;
     energy_range := Some [5 # 10; 7 # 10];
     valence_range := Some [4 # 10; 7 # 10];
     danceability_range := Some [4 # 10; 7 # 10];
     acousticness_range := Some [2 # 10; 6 # 10];
     tempo_bpm := Some t;
     keywords := [];
     instrumental_ok := None;
     vocals_required := None |}.

(** Draws of [random]: every [random()] gives [u], [randint] gives [d],
    [shuffle] leaves the order. *)
Definition draws (u : Q) (d : Z) : entropy :=
  {| u_energy := u; u_valence := u; u_danceability := u; u_acousticness := u;
     tempo_delta := d; coin := u; shuffle := fun l => l |}.

Definition track_of (uri : string) : track :=
  {| track_uri := Some uri; track_id := Some (last_segment uri); track_artists := [] |}.

(** Fifteen distinct track identifiers. *)
Definition fifteen : list track :=
  map (fun c => track_of ("spotify:track:4uLU6hMCjMI75M1A2tKUL" ++ c))
    [ "a"; "b"; "c"; "d"; "e"; "f"; "g"; "h"; "i"; "j"; "k"; "l"; "m"; "n"; "o" ].

(** A service whose recommendation endpoint answers every request with
    those fifteen tracks. *)
Definition generous : Spotify :=
  {| sp_genre_seeds := fun _ => Raise SpotifyException;
     sp_artist := fun _ _ => Raise SpotifyException;
     sp_search_tracks := fun _ _ _ => Raise SpotifyException;
     sp_search_artists := fun _ _ _ => Raise SpotifyException;
     sp_recommendations := fun _ _ => Ret fifteen;
     sp_artist_top_tracks := fun _ _ => Raise SpotifyException;
     sp_tracks := fun _ _ => Raise SpotifyException;
     sp_audio_features := fun _ _ => Raise SpotifyException |}.

(** A well-formed track URI whose identifier spells a block term. *)
Definition rainy_uri : string := "spotify:track:6rAiN0Qw3eRtY7uIoP1aSd".

Definition plain_features (bpm : Q) : features :=
  {| instrumentalness := Some (1 # 10); speechiness := Some (5 # 100);
     energy := Some (7 # 10); tempo := Some bpm; duration_ms := Some 200000%Z |}.

(** A catalog that knows every track as "Happy Song" on "Good Album" with
    unremarkable audio features at [bpm]. *)
Definition catalog (bpm : Q) : Spotify :=
  {| sp_genre_seeds := fun _ => Raise SpotifyException;
     sp_artist := fun _ _ => Raise SpotifyException;
     sp_search_tracks := fun _ _ _ => Raise SpotifyException;
     sp_search_artists := fun _ _ _ => Raise SpotifyException;
     sp_recommendations := fun _ _ => Raise SpotifyException;
     sp_artist_top_tracks := fun _ _ => Raise SpotifyException;
     sp_tracks := fun _ ids =>
       Ret (map (fun _ => Some {| meta_name := Some "Happy Song";
                                  meta_album := Some "Good Album" |}) ids);
     sp_audio_features := fun _ ids =>
       Ret (Some (map (fun _ => Some (plain_features bpm)) ids)) |}.

(** The catalog whose features reply lists one entry per tempo of [bpms],
    in that order. *)
Definition catalog_at (bpms : list Q) : Spotify :=
  {| sp_genre_seeds := fun _ => Raise SpotifyException;
     sp_artist := fun _ _ => Raise SpotifyException;
     sp_search_tracks := fun _ _ _ => Raise SpotifyException;
     sp_search_artists := fun _ _ _ => Raise SpotifyException;
     sp_recommendations := fun _ _ => Raise SpotifyException;
     sp_artist_top_tracks := fun _ _ => Raise SpotifyException;
     sp_tracks := sp_tracks (catalog 100);
     sp_audio_features := fun _ _ =>
       Ret (Some (map (fun bpm => Some (plain_features bpm)) bpms)) |}.

(** Three distinct track identifiers. *)
Definition three_uris : list string :=
  [ "spotify:track:4uLU6hMCjMI75M1A2tKULa";
    "spotify:track:4uLU6hMCjMI75M1A2tKULb";
    "spotify:track:4uLU6hMCjMI75M1A2tKULc" ].

Definition taylor : artist :=
  {| artist_id := Some "06HL4z0CvFAxyc27GXpf02";
     artist_name := Some "Taylor Swift";
     artist_images := Some [Url (Some "https://i.scdn.co/image/ab6761610000e5eb")];
     artist_url := Some "https://open.spotify.com/artist/06HL4z0CvFAxyc27GXpf02";
     artist_genres := Some ["pop"] |}.

(** The hero built from that artist. *)
Definition taylor_hero : hero :=
  {| hero_id := "06HL4z0CvFAxyc27GXpf02";
     hero_name := "Taylor Swift";
     hero_image := Some "https://i.scdn.co/image/ab6761610000e5eb";
     hero_url := "https://open.spotify.com/artist/06HL4z0CvFAxyc27GXpf02" |}.

(** A service that is down for its first three calls and knows the artist
    afterwards. *)
Definition recovering : Spotify :=
  {| sp_genre_seeds := fun _ => Raise SpotifyException;
     sp_artist := fun t _ => if (t <? 3)%nat then Raise SpotifyException else Ret taylor;
     sp_search_tracks := fun _ _ _ => Raise SpotifyException;
     sp_search_artists := fun _ _ _ => Raise SpotifyException;
     sp_recommendations := fun _ _ => Raise SpotifyException;
     sp_artist_top_tracks := fun _ _ => Raise SpotifyException;
     sp_tracks := fun _ _ => Raise SpotifyException;
     sp_audio_features := fun _ _ => Raise SpotifyException |}.

(** A service whose recommendation endpoint fails the first call made to
    the service and answers with the fifteen tracks afterwards. *)
Definition flaky : Spotify :=
  {| sp_genre_seeds := fun _ => Raise SpotifyException;
     sp_artist := fun _ _ => Raise SpotifyException;
     sp_search_tracks := fun _ _ _ => Raise SpotifyException;
     sp_search_artists := fun _ _ _ => Raise SpotifyException;
     sp_recommendations := fun t _ =>
       if (t <? 1)%nat then Raise SpotifyException else Ret fifteen;
     sp_artist_top_tracks := fun _ _ => Raise SpotifyException;
     sp_tracks := fun _ _ => Raise SpotifyException;
     sp_audio_features := fun _ _ => Raise SpotifyException |}.

(** The catalog at 100 BPM, recommending the one track [rainy_uri]. *)
Definition rainy_service : Spotify :=
  {| sp_genre_seeds := fun _ => Raise SpotifyException;
     sp_artist := fun _ _ => Raise SpotifyException;
     sp_search_tracks := fun _ _ _ => Raise SpotifyException;
     sp_search_artists := fun _ _ _ => Raise SpotifyException;
     sp_recommendations := fun _ _ => Ret [track_of rainy_uri];
     sp_artist_top_tracks := fun _ _ => Raise SpotifyException;
     sp_tracks := sp_tracks (catalog 100);
     sp_audio_features := sp_audio_features (catalog 100) |}.

(** A full request with two genre seeds. *)
Definition two_genre_kwargs : payload :=
  {| kw_limit := 15; kw_market := Some DEFAULT_MARKET;
     kw_target_energy := Some (6 # 10); kw_target_valence := Some (55 # 100);
     kw_target_danceability := Some (55 # 100); kw_target_acousticness := Some (4 # 10);
     kw_target_tempo := Some 100%Z;
     kw_seed_artists := None; kw_seed_genres := Some ["pop"; "edm"];
     kw_seed_tracks := None |}.

End Scenario.

(** * The rest of the code *)

(** ** Debug wrapper of the normalizer *)

(** [normalize_genres_for_debug]: the normalizer under [try ... except],
    the empty list on an exception. *)
Definition normalize_genres_for_debug (sp : Spotify) (genres : genres_arg)
  : M (list string) :=
  let* r := attempt (_normalize_genre_list sp genres) in
  ret (default [] r).

(** [sorted(l)] on strings.  The order of strings is total and
    antisymmetric, so the sorted list does not depend on the algorithm;
    this one inserts. *)
Fixpoint insert_sorted (x : string) (l : list string) : list string :=
  match l with
  | [] => [x]
  | y :: l' => if String.leb x y then x :: l else y :: insert_sorted x l'
  end.

Definition sorted (l : list string) : list string := fold_right insert_sorted [] l.

(** [allowed_genres_for_debug]. *)
Definition allowed_genres_for_debug (sp : Spotify) : M (list string) :=
  let* r :=
    attempt
      (let* s := _allowed_genres sp in
       if bool_decide (s ≠ ∅) then ret (sorted (elements s))
       else
         let* seeds := attempt (external CallGenreSeeds (sp_genre_seeds sp)) in
         match seeds with
         | Some (g :: gs) => ret (sorted (g :: gs))
         | _ => ret (sorted (elements DEFAULT_SEED_GENRES))
         end) in
  match r with
  | Some l => ret l
  | None => ret (sorted (elements DEFAULT_SEED_GENRES))
  end.

(** ** Predicates of the further statements *)

(** Each entry is at most the next one. *)
Fixpoint ascending (l : list string) : Prop :=
  match l with
  | x :: l' =>
      match l' with
      | y :: _ => String.leb x y = true ∧ ascending l'
      | [] => True
      end
  | [] => True
  end.

(** Every character of [s] satisfies [ok]. *)
Fixpoint all_chars (ok : ascii -> bool) (s : string) : bool :=
  match s with
  | EmptyString => true
  | String c s' => ok c && all_chars ok s'
  end.

(** A character a genre token may hold: [a-z] or [-]. *)
Definition genre_char (c : ascii) : bool := negb (genre_sep c).

(** A well-formed genre token: not empty, made of [a-z] and [-]. *)
Definition genre_token (t : string) : Prop :=
  Text.nonempty t = true ∧ all_chars genre_char t = true.

(** The synonym table applied to a token. *)
Definition folded (t : string) : string := default t (synonyms !! t).

(** A synonym value the table leaves alone and that is a well-formed
    token. *)
Definition settled (v : string) : bool :=
  bool_decide (folded v = v) && Text.nonempty v && all_chars genre_char v.

(** From [w] to [w'] the log grew by at most [k] calls, all of them [C]. *)
Definition logged (C : call → Prop) (k : nat) (w w' : world) : Prop :=
  ∃ l, calls w' = (l ++ calls w)%list ∧ Forall C l ∧ (length l ≤ k)%nat.

(** Both caches are as they were. *)
Definition caches_kept (w w' : world) : Prop :=
  _ALLOWED_GENRES_CACHE w' = _ALLOWED_GENRES_CACHE w
  ∧ _GENRE_HERO_CACHE w' = _GENRE_HERO_CACHE w.

(** A lookup [_artist_seed_genres] may make for the identifiers [ids]: one
    of the first three artists, or the genre vocabulary. *)
Definition artist_lookup_of (ids : list string) (c : call) : Prop :=
  match c with
  | CallArtist aid => aid ∈ take 3 ids
  | CallGenreSeeds => True
  | _ => False
  end.

(** A track search for one of the first three keywords: two results, on
    the default market. *)
Definition keyword_search_of (keywords : list string) (c : call) : Prop :=
  match c with
  | CallSearch q type lim mkt =>
      q ∈ map keyword_query (take 3 keywords)
      ∧ type = "track" ∧ lim = 2%Z ∧ mkt = Some DEFAULT_MARKET
  | _ => False
  end.

(** A top-tracks lookup for one of the first five artists, on the default
    market. *)
Definition top_tracks_lookup_of (ids : list string) (c : call) : Prop :=
  match c with
  | CallArtistTopTracks aid country => aid ∈ take 5 ids ∧ country = DEFAULT_MARKET
  | _ => False
  end.

(** [target_total] of the artist quota. *)
Definition target_total (n : Z) : Z := Z.max 8 (Z.min ((n * 3) / 5) 28).

(** A run of [m] that raises, raises an exception in [E]. *)
Definition raises_only {A} (E : exn → Prop) (m : M A) : Prop :=
  ∀ w e, (m w).1 = Raise e → E e.

(** A value [m] returns satisfies [Q]. *)
Definition yields {A} (Q : A → Prop) (m : M A) : Prop :=
  ∀ w a, (m w).1 = Ret a → Q a.

(** A target that is sent lies in [[0, 1]]. *)
Definition unit_target (x : option Q) : Prop :=
  match x with Some v => (0 <= v <= 1)%Q | None => True end.

(** The fixed fields of a recommendation request for [n] tracks. *)
Definition request_shape (n : Z) (p : payload) : Prop :=
  kw_limit p = Z.min 50 (Z.max 10 n)
  ∧ kw_market p = Some DEFAULT_MARKET
  ∧ unit_target (kw_target_energy p) ∧ unit_target (kw_target_valence p)
  ∧ unit_target (kw_target_danceability p) ∧ unit_target (kw_target_acousticness p).

(** The draws of [random.uniform] come from [random()], in [[0, 1]]. *)
Definition draws_in_unit (rnd : entropy) : Prop :=
  (0 <= u_energy rnd <= 1)%Q ∧ (0 <= u_valence rnd <= 1)%Q
  ∧ (0 <= u_danceability rnd <= 1)%Q ∧ (0 <= u_acousticness rnd <= 1)%Q.

(** An artist whose first image has a non-empty URL. *)
Definition pictured (a : artist) : Prop :=
  ∃ u, _first_image_url a = Ret (Some u) ∧ Text.nonempty u = true.

(** The genre search of the hero resolver. *)
Definition genre_search (genre : string) : call :=
  CallSearch ("genre:" ++ quoted genre) "artist" 10 None.

(** * OAuth and the token store *)

Module Auth.

(** What this part of the code raises: its own [RuntimeError]s, the
    [KeyError] of a missing dict key, and whatever the OAuth library
    raises. *)
Inductive error :=
| RuntimeError (msg : string)
| KeyError (key : string)
| SpotifyOauthError.

Inductive result (A : Type) :=
| Ok (a : A)
| Err (e : error).
Arguments Ok {A} a.
Arguments Err {A} e.

Definition SCOPES : string :=
  "playlist-modify-public playlist-modify-private user-read-email".

Definition newline : string := String (ascii_of_N 10) "".

(** Truthiness of a string that may be [None]. *)
Definition str_truthy (v : option string) : bool :=
  match v with Some s => Text.nonempty s | None => false end.

(** [hint] of [_get_env]. *)
Definition hint (primary : string) (alt : option string) : string :=
  primary ++ (if str_truthy alt then " or " ++ default "" alt else "").

Definition missing_env (primary : string) (alt : option string) : string :=
  "Missing env var: " ++ hint primary alt ++ ". Create backend/.env with:" ++ newline
  ++ "SPOTIFY_CLIENT_ID, SPOTIFY_CLIENT_SECRET, SPOTIFY_REDIRECT_URI" ++ newline
  ++ "(optionally also SPOTIPY_* equivalents) and restart the server.".

(** [os.getenv(primary) or (os.getenv(alt) if alt else None)]. *)
Definition env_value (environ : gmap string string) (primary : string)
    (alt : option string) : option string :=
  if str_truthy (environ !! primary) then environ !! primary
  else if str_truthy alt then environ !! default "" alt
  else None.

Definition _get_env (environ : gmap string string) (primary : string)
    (alt : option string) : result string :=
  let val := env_value environ primary alt in
  if str_truthy val then Ok (default "" val)
  else Err (RuntimeError (missing_env primary alt)).

(** The arguments [oauth] gives to [SpotifyOAuth]. *)
Record SpotifyOAuth := {
  client_id : string;
  client_secret : string;
  redirect_uri : string;
  scope : string;
  show_dialog : bool;
  state : string;
}.

Definition oauth (environ : gmap string string) (state : string) : result SpotifyOAuth :=
  match _get_env environ "SPOTIFY_CLIENT_ID" (Some "SPOTIPY_CLIENT_ID") with
  | Err e => Err e
  | Ok id =>
      match _get_env environ "SPOTIFY_CLIENT_SECRET" (Some "SPOTIPY_CLIENT_SECRET") with
      | Err e => Err e
      | Ok secret =>
          match _get_env environ "SPOTIFY_REDIRECT_URI" (Some "SPOTIPY_REDIRECT_URI") with
          | Err e => Err e
          | Ok uri =>
              Ok {| client_id := id; client_secret := secret; redirect_uri := uri;
                    scope := SCOPES; show_dialog := true; state := state |}
          end
      end
  end.

(** A token dict, by its keys. *)
Definition token_info : Type := gmap string string.

(** The three methods of the OAuth object the code calls. *)
Record Accounts := {
  get_access_token : SpotifyOAuth -> string -> result (option token_info);
  is_token_expired : SpotifyOAuth -> token_info -> result bool;
  refresh_access_token : SpotifyOAuth -> string -> result token_info;
}.

Definition no_access_token : error :=
  RuntimeError "Spotify OAuth failed: no access_token in response.".

Definition not_connected : error :=
  RuntimeError "No Spotify token; user not connected.".

(** [exchange_code_for_token]: the outcome and the store [TOKENS] after. *)
Definition exchange_code_for_token (environ : gmap string string) (svc : Accounts)
    (state code username : string) (TOKENS : gmap string token_info)
  : result unit * gmap string token_info :=
  match oauth environ state with
  | Err e => (Err e, TOKENS)
  | Ok sp_oauth =>
      match get_access_token svc sp_oauth code with
      | Err e => (Err e, TOKENS)
      | Ok (Some t) =>
          if bool_decide (t ≠ ∅) && bool_decide (is_Some (t !! "access_token"))
          then (Ok tt, <[username := t]> TOKENS)
          else (Err no_access_token, TOKENS)
      | Ok None => (Err no_access_token, TOKENS)
      end
  end.

(** The client [Spotify(auth=...)]. *)
Record Client := { auth : string }.

Definition get_spotify (environ : gmap string string) (svc : Accounts)
    (username : string) (TOKENS : gmap string token_info)
  : result Client * gmap string token_info :=
  match TOKENS !! username with
  | None => (Err not_connected, TOKENS)
  | Some t =>
      if bool_decide (t = ∅) then (Err not_connected, TOKENS)
      else
        match oauth environ "refresh" with
        | Err e => (Err e, TOKENS)
        | Ok sp_oauth =>
            match is_token_expired svc sp_oauth t with
            | Err e => (Err e, TOKENS)
            | Ok true =>
                match t !! "refresh_token" with
                | None => (Err (KeyError "refresh_token"), TOKENS)
                | Some refresh_token =>
                    match refresh_access_token svc sp_oauth refresh_token with
                    | Err e => (Err e, TOKENS)
                    | Ok t' =>
                        let TOKENS' := <[username := t']> TOKENS in
                        match t' !! "access_token" with
                        | Some a => (Ok {| auth := a |}, TOKENS')
                        | None => (Err (KeyError "access_token"), TOKENS')
                        end
                    end
                end
            | Ok false =>
                match t !! "access_token" with
                | Some a => (Ok {| auth := a |}, TOKENS)
                | None => (Err (KeyError "access_token"), TOKENS)
                end
            end
        end
  end.

(** A setting is available under one of its two names. *)
Definition configured (environ : gmap string string) (primary alt : string) : Prop :=
  str_truthy (environ !! primary) = true ∨ str_truthy (environ !! alt) = true.

(** The value [_get_env] picks: the primary name wins. *)
Definition setting (environ : gmap string string) (primary alt : string) : string :=
  if str_truthy (environ !! primary) then default "" (environ !! primary)
  else default "" (environ !! alt).

(** A concrete environment and OAuth service for the examples. *)
Definition example_env : gmap string string :=
  list_to_map
    [ ("SPOTIFY_CLIENT_ID", "0123456789abcdef");
      ("SPOTIPY_CLIENT_SECRET", "fedcba9876543210");
      ("SPOTIFY_CLIENT_SECRET", "");
      ("SPOTIFY_REDIRECT_URI", "http://127.0.0.1:8000/spotify/callback") ].

Definition example_token : token_info :=
  list_to_map [ ("access_token", "BQDf3"); ("refresh_token", "AQCx9") ].

(** The store of a fresh process. *)
Definition no_tokens : gmap string token_info := ∅.

Definition example_accounts : Accounts :=
  {| get_access_token := fun _ _ => Ok (Some example_token);
     is_token_expired := fun _ _ => Ok false;
     refresh_access_token := fun _ _ => Err SpotifyOauthError |}.

End Auth.

(** * Playlist helpers *)

(** The playlist methods of the client, each with the key the code reads
    from its reply: [None] is a reply without that key. *)
Record Playlists := {
  sp_me : outcome (option string);                        (* sp.me(), read at ["id"] *)
  sp_user_playlist_create : string -> bool -> outcome (option string);   (* at ["id"] *)
  sp_playlist_add_items : string -> list string -> outcome unit;
  sp_playlist : string -> outcome (option string);   (* at ["external_urls"]["spotify"] *)
}.

(** [create_playlist]: the ["id"] of the playlist made for [user_id]. *)
Definition create_playlist (sp : Playlists) (user_id : string) (public : bool)
  : outcome string :=
  match sp_user_playlist_create sp user_id public with
  | Ret (Some id) => Ret id
  | Ret None => Raise KeyError
  | Raise e => Raise e
  end.

(** [add_tracks], over the list [added] of what the playlists were given:
    nothing is sent for an empty list. *)
Definition add_tracks (sp : Playlists) (playlist_id : string) (uris : list string)
    (added : list (string * list string)) : outcome unit * list (string * list string) :=
  if truthy uris then
    match sp_playlist_add_items sp playlist_id uris with
    | Ret _ => (Ret tt, (playlist_id, uris) :: added)
    | Raise e => (Raise e, added)
    end
  else (Ret tt, added).

(** * The routes of [main.py] *)

Module Routes.

(** What a route gives back: its value, or an [HTTPException]. *)
Inductive response (A : Type) :=
| Served (a : A)
| HTTPException (status : Z).
Arguments Served {A} a.
Arguments HTTPException {A} status.

(** [os.getenv("FRONTEND_BASE", "http://localhost:3000")]. *)
Definition FRONTEND_BASE (environ : gmap string string) : string :=
  default "http://localhost:3000" (environ !! "FRONTEND_BASE").

(** [s.split("-")[0]]. *)
Fixpoint before_dash (s : string) : string :=
  match s with
  | EmptyString => EmptyString
  | String c s' =>
      if (Text.code c =? 45)%N then EmptyString else String c (before_dash s')
  end.

(** [state.split("-")[0] if "-" in state else state]. *)
Definition callback_username (state : string) : string :=
  if Text.contains "-" state then before_dash state else state.

Inductive RedirectResponse := Redirect (url : string).

(** [spotify_callback]; [quote_str e] stands for [quote(str(e))]. *)
Definition spotify_callback (environ : gmap string string) (svc : Auth.Accounts)
    (quote_str : Auth.error -> string) (code state : string)
    (TOKENS : gmap string Auth.token_info)
  : RedirectResponse * gmap string Auth.token_info :=
  let username := callback_username state in
  match Auth.exchange_code_for_token environ svc state code username TOKENS with
  | (Auth.Ok _, TOKENS') =>
      (Redirect (FRONTEND_BASE environ ++ "?connected=" ++ username), TOKENS')
  | (Auth.Err e, TOKENS') =>
      (Redirect (FRONTEND_BASE environ ++ "?spotify_error=" ++ quote_str e), TOKENS')
  end.

(** [spotify_login]; [get_authorize_url] is the method of the OAuth
    object, [None] where it raises.  The 400 raised for an empty user name
    is raised inside the [try], whose handler turns every exception into a
    500. *)
Definition spotify_login (environ : gmap string string)
    (get_authorize_url : Auth.SpotifyOAuth -> option string) (username : string)
  : response string :=
  if negb (Text.nonempty username) then HTTPException 500
  else
    match Auth.oauth environ username with
    | Auth.Err _ => HTTPException 500
    | Auth.Ok cfg =>
        match get_authorize_url cfg with
        | Some url => Served url
        | None => HTTPException 500
        end
    end.

(** A row of [search_artists]. *)
Record card := {
  card_id : option string;
  card_name : option string;
  card_image : option string;
  card_genres : list string;
  card_url : option string;
}.

(** [(a.get("images") or [{}])[0].get("url")]. *)
Definition first_image (a : artist) : option string :=
  match default [] (artist_images a) with
  | [] => None
  | NoUrlKey :: _ => None
  | Url u :: _ => u
  end.

Definition card_of (a : artist) : card :=
  {| card_id := artist_id a; card_name := artist_name a;
     card_image := first_image a;
     card_genres := default [] (artist_genres a);
     card_url := artist_url a |}.

(** How a route without a handler of its own ends: with its value, with
    the exception [get_spotify] raised, or with the exception of a call to
    the service. *)
Inductive ended (A : Type) :=
| Done (a : A)
| AuthRaised (e : Auth.error)
| CallRaised (e : exn).
Arguments Done {A} a.
Arguments AuthRaised {A} e.
Arguments CallRaised {A} e.

(** The body of [search_artists] below [sp = get_spotify(username)]. *)
Definition search_rows (sp : Spotify) (q : string) (limit : Z) : M (list card) :=
  let lim := Z.min (Z.max limit 1) 12 in
  let* items := external (CallSearch q "artist" lim (Some "US"))
                         (fun t => sp_search_artists sp t q lim) in
  ret (map card_of items).

(** [search_artists]: the client of the user first, then the search;
    [connect] is the client made for an access token.  Nothing catches what
    [get_spotify] or the search raises. *)
Definition search_artists (environ : gmap string string) (svc : Auth.Accounts)
    (connect : Auth.Client -> Spotify) (username q : string) (limit : Z)
    (TOKENS : gmap string Auth.token_info) (w : world)
  : ended (list card) * (gmap string Auth.token_info * world) :=
  match Auth.get_spotify environ svc username TOKENS with
  | (Auth.Err e, tokens) => (AuthRaised e, (tokens, w))
  | (Auth.Ok client, tokens) =>
      match search_rows (connect client) q limit w with
      | (Ret rows, w') => (Done rows, (tokens, w'))
      | (Raise e, w') => (CallRaised e, (tokens, w'))
      end
  end.

(** [s.split(",")]. *)
Fixpoint split_commas_from (s cur : string) : list string :=
  match s with
  | EmptyString => [cur]
  | String c s' =>
      if (Text.code c =? 44)%N then cur :: split_commas_from s' EmptyString
      else split_commas_from s' (cur ++ String c EmptyString)
  end.

Definition split_commas (s : string) : list string := split_commas_from s EmptyString.

(** [[x.strip() for x in (arg or "").split(",") if x.strip()]]. *)
Definition csv_items (arg : option string) : list string :=
  filter (fun x => Is_true (Text.nonempty x))
    (map Text.strip (split_commas (default "" arg))).

(** [",".join(l)]. *)
Fixpoint join_commas (l : list string) : string :=
  match l with
  | [] => EmptyString
  | [s] => s
  | s :: l' => s ++ "," ++ join_commas l'
  end.

(** The steering of [playlist_create]: the energy override, then the
    user's genres and artists when there are any. *)
Definition steer (ps : params) (energy : option Q) (genres_csv artist_ids_csv : option string)
  : params :=
  let e_range :=
    match energy with
    | Some x => Some [clamp01 x; clamp01 x]
    | None => energy_range ps
    end in
  let picked_genres := csv_items genres_csv in
  let picked_artists := csv_items artist_ids_csv in
  {| user_artist_ids :=
       if truthy picked_artists then picked_artists else user_artist_ids ps;
     user_genres :=
       if truthy picked_genres then GList (map Some picked_genres) else user_genres ps;
     genre_candidates := genre_candidates ps;
     genres := genres ps;
     energy_range := e_range;
     valence_range := valence_range ps;
     danceability_range := danceability_range ps;
     acousticness_range := acousticness_range ps;
     tempo_bpm := tempo_bpm ps;
     keywords := keywords ps;
     instrumental_ok := instrumental_ok ps;
     vocals_required := vocals_required ps |}.

(** The baseline list of [spotify_genres]. *)
Definition baseline_genres : list string :=
  [ "pop"; "hip-hop"; "r-n-b"; "electronic"; "dance"; "house"; "edm"; "indie-pop";
    "alt-rock"; "rock"; "metal"; "punk"; "trap"; "chill"; "ambient"; "jazz"; "soul";
    "blues"; "country"; "folk"; "singer-songwriter"; "k-pop"; "latin"; "afrobeat";
    "reggae"; "classical"; "piano"; "acoustic"; "psych-rock"; "emo"; "grunge";
    "new-wave"; "synth-pop"; "drum-and-bass"; "dubstep"; "garage"; "techno"; "trance";
    "hardstyle" ].

(** [spotify_genres], from the client on: the value of ["genres"]. *)
Definition spotify_genres (sp : Spotify) : M (list string) :=
  let* genres := allowed_genres_for_debug sp in
  let genres := if truthy genres then genres else baseline_genres in
  ret (sorted (elements (list_to_set genres : gset string))).

(** The loop of [spotify_genre_heroes] over the items of [genres]. *)
Fixpoint heroes_loop (sp : Spotify) (items : list string) (out : gmap string hero)
  : M (gmap string hero) :=
  match items with
  | [] => ret out
  | g :: rest =>
      let* h := get_genre_hero sp g in
      match h with
      | Some d => heroes_loop sp rest (<[g := d]> out)
      | None => heroes_loop sp rest out
      end
  end.

(** [spotify_genre_heroes], from the client on. *)
Definition spotify_genre_heroes (sp : Spotify) (genres_csv : option string) (w : world)
  : response (gmap string hero) * world :=
  match heroes_loop sp (csv_items genres_csv) ∅ w with
  | (Ret out, w') =>
      if bool_decide (out = ∅) then (HTTPException 404, w') else (Served out, w')
  | (Raise _, w') => (HTTPException 500, w')
  end.

(** [spotify_genre_hero], from the client on. *)
Definition spotify_genre_hero (sp : Spotify) (genre : string) (w : world)
  : response hero * world :=
  match get_genre_hero sp genre w with
  | (Ret (Some d), w') => (Served d, w')
  | (Ret None, w') => (HTTPException 404, w')
  | (Raise _, w') => (HTTPException 500, w')
  end.

(** The state [playlist_create] works on: the token store, the state of the
    recommender, and what the playlists were given. *)
Record app := {
  app_tokens : gmap string Auth.token_info;
  app_world : world;
  app_added : list (string * list string);
}.

(** The body of the response of [playlist_create]. *)
Record created := {
  playlist_url : string;
  count : Z;
  created_params : params;
}.

(** [playlist_create], for a [limit] the query validation let through.
    [analyze] is [analyze_vibe_to_json] ([None] where it raises); [connect]
    and [playlists] are the client made for an access token. *)
Definition playlist_create (environ : gmap string string) (svc : Auth.Accounts)
    (analyze : string -> option params) (connect : Auth.Client -> Spotify)
    (playlists : Auth.Client -> Playlists) (rnd : entropy)
    (prompt username : string) (public : bool) (genres_csv artist_ids_csv : option string)
    (energy : option Q) (limit : Z) (st : app) : response created * app :=
  if negb (Text.nonempty (Text.strip prompt)) then (HTTPException 400, st)
  else
    match analyze prompt with
    | None => (HTTPException 500, st)
    | Some ps =>
        let ps := steer ps energy genres_csv artist_ids_csv in
        match Auth.get_spotify environ svc username (app_tokens st) with
        | (Auth.Err _, tokens) =>
            (HTTPException 500,
             {| app_tokens := tokens; app_world := app_world st;
                app_added := app_added st |})
        | (Auth.Ok client, tokens) =>
            let sp := playlists client in
            match sp_me sp with
            | Raise _ =>
                (HTTPException 500,
                 {| app_tokens := tokens; app_world := app_world st;
                    app_added := app_added st |})
            | Ret me =>
                match recommend_tracks (connect client) ps limit rnd (app_world st) with
                | (Raise _, w) =>
                    (HTTPException 500,
                     {| app_tokens := tokens; app_world := w; app_added := app_added st |})
                | (Ret uris, w) =>
                    let st' := {| app_tokens := tokens; app_world := w;
                                  app_added := app_added st |} in
                    if negb (truthy uris) then (HTTPException 400, st')
                    else
                      match me with
                      | None => (HTTPException 500, st')
                      | Some user_id =>
                          match create_playlist sp user_id public with
                          | Raise _ => (HTTPException 500, st')
                          | Ret pl_id =>
                              match add_tracks sp pl_id (slice_to limit uris)
                                      (app_added st) with
                              | (Raise _, added) =>
                                  (HTTPException 500,
                                   {| app_tokens := tokens; app_world := w;
                                      app_added := added |})
                              | (Ret _, added) =>
                                  let st'' := {| app_tokens := tokens; app_world := w;
                                                 app_added := added |} in
                                  match sp_playlist sp pl_id with
                                  | Ret (Some url) =>
                                      (Served {| playlist_url := url;
                                                 count := Z.min (len uris) limit;
                                                 created_params := ps |},
                                       st'')
                                  | _ => (HTTPException 500, st'')
                                  end
                              end
                          end
                      end
                end
            end
        end
    end.

(** An item as [csv_items] yields them: not empty, no comma, no white
    space at either end. *)
Definition csv_item (x : string) : Prop :=
  Text.nonempty x = true
  ∧ all_chars (fun c => negb (Text.code c =? 44)%N) x = true
  ∧ Text.strip x = x.

(** No ["-"] in [s]. *)
Definition dash_free (s : string) : Prop :=
  all_chars (fun c => negb (Text.code c =? 45)%N) s = true.

End Routes.

(** * The vibe extractor of [ai_engine.py] *)

Module Extractor.

(** A value as [json.loads] builds it; an object keeps its keys in order,
    each key once. *)
#[local] Unset Elimination Schemes.
Inductive json :=
| JNull
| JBool (b : bool)
| JNum (q : Q)
| JStr (s : string)
| JArr (l : list json)
| JObj (fields : list (string * json)).
#[local] Set Elimination Schemes.

(** Truthiness. *)
Definition truthy_json (v : json) : bool :=
  match v with
  | JNull => false
  | JBool b => b
  | JNum q => negb (Qeq_bool q 0)
  | JStr s => Text.nonempty s
  | JArr l => truthy l
  | JObj fields => truthy fields
  end.

(** [d.get(key)]. *)
Fixpoint get (d : list (string * json)) (key : string) : option json :=
  match d with
  | [] => None
  | (k, v) :: d' => if String.eqb k key then Some v else get d' key
  end.

(** [x or y]. *)
Definition or_else (x : option json) (y : json) : json :=
  match x with
  | Some v => if truthy_json v then v else y
  | None => y
  end.

(** The text from its first ["{"] on. *)
Fixpoint from_first_brace (s : string) : option string :=
  match s with
  | EmptyString => None
  | String c s' => if (Text.code c =? 123)%N then Some s else from_first_brace s'
  end.

(** The text up to its last ["}"]. *)
Fixpoint to_last_brace (s : string) : option string :=
  match s with
  | EmptyString => None
  | String c s' =>
      match to_last_brace s' with
      | Some r => Some (String c r)
      | None => if (Text.code c =? 125)%N then Some (String c EmptyString) else None
      end
  end.

(** [_extract_json]: the match of [\{.*\}] with [re.S], from the first
    ["{"] to the last ["}"] after it, or ["{}"]. *)
Definition _extract_json (text : string) : string :=
  match from_first_brace text with
  | Some s =>
      match to_last_brace s with
      | Some r => r
      | None => "{}"
      end
  | None => "{}"
  end.

Section Python.

(** [float(s)] and [int(s)] on a string: the number, or [None] where
    Python raises [ValueError]. *)
Variable float_of_str : string -> option Q.
Variable int_of_str : string -> option Z.

(** [float(v)]; [None] where it raises. *)
Definition float (v : json) : option Q :=
  match v with
  | JNum q => Some q
  | JBool b => Some (if b then 1 else 0)%Q
  | JStr s => float_of_str s
  | _ => None
  end.

(** [int(v)], truncating toward zero; [None] where it raises. *)
Definition int (v : json) : option Z :=
  match v with
  | JNum q => Some (Z.quot (Qnum q) (Zpos (Qden q)))
  | JBool b => Some (if b then 1 else 0)%Z
  | JStr s => int_of_str s
  | _ => None
  end.

(** [a, b = v]: the two items of an iterable of two; [None] where the
    unpacking raises. *)
Definition unpack2 (v : json) : option (json * json) :=
  match v with
  | JArr [a; b] => Some (a, b)
  | JStr (String c1 (String c2 EmptyString)) =>
      Some (JStr (String c1 EmptyString), JStr (String c2 EmptyString))
  | JObj [(k1, _); (k2, _)] => Some (JStr k1, JStr k2)
  | _ => None
  end.

Definition _coerce_ranges (d : list (string * json)) (key : string) (default : Q * Q)
  : list Q :=
  let v :=
    match get d key with
    | Some v => v
    | None => JArr [JNum (fst default); JNum (snd default)]
    end in
  match unpack2 v with
  | Some (a, b) =>
      match float a with
      | Some a =>
          match float b with
          | Some b => [clamp01 a; clamp01 b]
          | None => [fst default; snd default]
          end
      | None => [fst default; snd default]
      end
  | None => [fst default; snd default]
  end.

(** The dict [analyze_vibe_to_json] returns. *)
Record vibe := {
  mood : json;
  scene : json;
  vibe_tempo_bpm : Z;
  vibe_energy_range : list Q;
  vibe_valence_range : list Q;
  vibe_danceability_range : list Q;
  vibe_acousticness_range : list Q;
  vibe_genre_candidates : json;
  vibe_keywords : json;
}.

(** "Coerce and defaults": the dict [out] built from [data]; [None] where
    [int(...)] raises. *)
Definition coerce (data : list (string * json)) : option vibe :=
  match int (or_else (get data "tempo_bpm") (JNum 100)) with
  | None => None
  | Some t =>
      Some {| mood := or_else (get data "mood") (JStr "mix");
              scene := or_else (get data "scene") (JStr "");
              vibe_tempo_bpm := Z.max 40 (Z.min 220 t);
              vibe_energy_range := _coerce_ranges data "energy_range" (5 # 10, 7 # 10);
              vibe_valence_range := _coerce_ranges data "valence_range" (4 # 10, 7 # 10);
              vibe_danceability_range :=
                _coerce_ranges data "danceability_range" (4 # 10, 7 # 10);
              vibe_acousticness_range :=
                _coerce_ranges data "acousticness_range" (2 # 10, 6 # 10);
              vibe_genre_candidates := or_else (get data "genre_candidates") (JArr []);
              vibe_keywords := or_else (get data "keywords") (JArr []) |}
  end.

(** [json.loads] on a text that starts with ["{"], as [_extract_json]
    yields them: the object, or [None] where it raises. *)
Variable loads : string -> option (list (string * json)).

(** [analyze_vibe_to_json] from the model's reply [raw] on; [None] where
    it raises. *)
Definition analyze_reply (raw : string) : option vibe :=
  match loads (_extract_json raw) with
  | Some data => coerce data
  | None => coerce []
  end.

End Python.

(** Two numbers in [[0, 1]]. *)
Definition unit_pair (l : list Q) : Prop :=
  ∃ a b, l = [a; b] ∧ (0 <= a <= 1)%Q ∧ (0 <= b <= 1)%Q.

(** [s] ends with ["}"]. *)
Fixpoint ends_with_brace (s : string) : bool :=
  match s with
  | EmptyString => false
  | String c EmptyString => (Text.code c =? 125)%N
  | String _ s' => ends_with_brace s'
  end.

End Extractor.

(** The authorization URL and the quoting of errors, for the examples. *)
Definition example_authorize_url (cfg : Auth.SpotifyOAuth) : option string :=
  Some ("https://accounts.spotify.com/authorize?state=" ++ Auth.state cfg).

Definition example_quote (e : Auth.error) : string :=
  match e with
  | Auth.RuntimeError msg => msg
  | Auth.KeyError key => key
  | Auth.SpotifyOauthError => "error"
  end.

(** A playlist service for the examples: every call answers. *)
Definition example_playlists : Playlists :=
  {| sp_me := Ret (Some "benijah");
     sp_user_playlist_create := fun _ _ => Ret (Some "37i9dQZF1DXcBWIGoYBM5M");
     sp_playlist_add_items := fun _ _ => Ret tt;
     sp_playlist := fun id => Ret (Some ("https://open.spotify.com/playlist/" ++ id)) |}.

(** * Properties *)

Open Scope list_scope.
Open Scope nat_scope.

(** ** The monad *)

Lemma bind_ret_l {A B} (a : A) (k : A → M B) w : bind (ret a) k w = k a w.
Proof. reflexivity. Qed.

Lemma bind_run {A B} (m : M A) (k : A → M B) w a w' :
  m w = (Ret a, w') → bind m k w = k a w'.
Proof. intros E. unfold bind. now rewrite E. Qed.

Lemma attempt_external {A} c (reply : nat → outcome A) w :
  attempt (external c reply) w = (Ret (returned (reply (clock w))), record_call c w).
Proof. unfold attempt, external. by destruct (reply (clock w)). Qed.

Lemma bind_attempt_external {A B} c (reply : nat → outcome A) (k : option A → M B) w :
  bind (attempt (external c reply)) k w
  = k (returned (reply (clock w))) (record_call c w).
Proof. unfold bind. by rewrite attempt_external. Qed.

Lemma clock_record_call c w : clock (record_call c w) = S (clock w).
Proof. reflexivity. Qed.

Lemma attempt_returns {A} (m : M A) w : ∃ o, attempt m w = (Ret o, (m w).2).
Proof. unfold attempt. destruct (m w) as [[a|e] w']; eauto. Qed.

Lemma bind_raise {A B} (m : M A) (k : A → M B) w e w' :
  m w = (Raise e, w') → bind m k w = (Raise e, w').
Proof. intros E. unfold bind. now rewrite E. Qed.

(** ** Genre vocabulary *)

Lemma list_to_set_cons_nonempty (g : string) (gs : list string) :
  (list_to_set (g :: gs) : gset string) ≠ ∅.
Proof. simpl. set_solver. Qed.

Lemma DEFAULT_SEED_GENRES_nonempty : DEFAULT_SEED_GENRES ≠ ∅.
Proof. apply list_to_set_cons_nonempty. Qed.

(** [_allowed_genres] never raises and never returns the empty set. *)
Lemma _allowed_genres_total sp w :
  ∃ V w', _allowed_genres sp w = (Ret V, w') ∧ V ≠ ∅.
Proof.
  assert (Hfetch : ∀ w0, ∃ V w', fetch_allowed_genres sp w0 = (Ret V, w') ∧ V ≠ ∅).
  { intros w0. unfold fetch_allowed_genres, bind, attempt, external.
    destruct (sp_genre_seeds sp (clock w0)) as [[|g gs]|e]; simpl;
      eauto using DEFAULT_SEED_GENRES_nonempty, list_to_set_cons_nonempty. }
  unfold _allowed_genres, bind, get_allowed_cache.
  destruct (_ALLOWED_GENRES_CACHE w) as [c|]; [|apply Hfetch].
  case_bool_decide; [|apply Hfetch].
  unfold ret. eauto.
Qed.

(** With the vocabulary known, [_normalize_genre_list] is [normalize_in]. *)
Lemma _normalize_genre_list_in sp genres w V :
  (_allowed_genres sp w).1 = Ret V →
  (_normalize_genre_list sp genres w).1 = Ret (normalize_in V genres).
Proof.
  intros HV. destruct (_allowed_genres_total sp w) as (V' & w' & E & Hne).
  rewrite E in HV. simpl in HV. injection HV as ->.
  unfold _normalize_genre_list. rewrite (bind_run _ _ _ _ _ E).
  rewrite bool_decide_true by done. reflexivity.
Qed.

(** ** Genre normalizer *)

Lemma scenario_tokens :
  clean_tokens (genre_tokens (GList [Some "lo-fi"; Some "Hip Hop!!"])) ∅
  = ["chillhop"; "hip"; "hop"].
Proof. vm_compute. reflexivity. Qed.

(** C4, as the specification states it: the scenario yields
    [["chillhop"; "hip-hop"]].  It does not: "Hip Hop!!" is cut at the space
    into "hip" and "hop", which no synonym folds and the vocabulary lacks. *)
Lemma scenario_not_hip_hop :
  (_normalize_genre_list Scenario.offline (GList [Some "lo-fi"; Some "Hip Hop!!"])
     (Scenario.with_vocabulary ["chillhop"; "hip-hop"; "pop"])).1
  ≠ Ret ["chillhop"; "hip-hop"].
Proof. vm_compute. discriminate. Qed.

(** C4, amended: normalizing [["lo-fi", "Hip Hop!!"]] when the vocabulary in
    effect contains "chillhop" and neither "hip" nor "hop" (as the set
    {"chillhop","hip-hop","pop"} does) returns exactly [["chillhop"]]. *)
Theorem scenario_normalizes_to_chillhop sp w (V : gset string) :
  (_allowed_genres sp w).1 = Ret V →
  "chillhop" ∈ V → "hip" ∉ V → "hop" ∉ V →
  (_normalize_genre_list sp (GList [Some "lo-fi"; Some "Hip Hop!!"]) w).1
  = Ret ["chillhop"].
Proof.
  intros HV Hin Hhip Hhop.
  rewrite (_normalize_genre_list_in _ _ _ _ HV).
  unfold normalize_in. rewrite scenario_tokens. unfold keep_allowed.
  rewrite filter_cons_True by done.
  rewrite filter_cons_False by done.
  rewrite filter_cons_False by done.
  reflexivity.
Qed.

Lemma scenario_normalizes_to_chillhop_witness :
  (_normalize_genre_list Scenario.offline (GList [Some "lo-fi"; Some "Hip Hop!!"])
     (Scenario.with_vocabulary ["chillhop"; "hip-hop"; "pop"])).1
  = Ret ["chillhop"].
Proof.
  apply (scenario_normalizes_to_chillhop Scenario.offline _
           (list_to_set ["chillhop"; "hip-hop"; "pop"])).
  - reflexivity.
  - vm_compute. reflexivity.
  - vm_compute. discriminate.
  - vm_compute. discriminate.
Defined.

Lemma take_nonempty {A} (l : list A) n : l ≠ [] → take (S n) l ≠ [].
Proof. destruct l; [done | discriminate]. Qed.

Lemma keep_allowed_nonempty (V : gset string) (l : list string) g :
  g ∈ l → g ∈ V → keep_allowed V l ≠ [].
Proof.
  intros Hl HV Hnil.
  assert (g ∈ keep_allowed V l) as Hin by (apply list_elem_of_filter; done).
  rewrite Hnil in Hin. by apply not_elem_of_nil in Hin.
Qed.

(** C6, as the specification states it: a non-empty vocabulary makes the
    result non-empty.  A vocabulary that holds none of the seven fallback
    genres does not: here it is {"jazz"} and the input "rock". *)
Lemma nonempty_vocabulary_empty_result :
  let w := Scenario.with_vocabulary ["jazz"] in
  (∃ V, (_allowed_genres Scenario.offline w).1 = Ret V ∧ V ≠ ∅)
  ∧ (_normalize_genre_list Scenario.offline (GList [Some "rock"]) w).1 = Ret [].
Proof.
  split.
  - exists (list_to_set ["jazz"]). split; [reflexivity|].
    apply list_to_set_cons_nonempty.
  - vm_compute. reflexivity.
Qed.

(** C6, amended: for every input, whenever the vocabulary in effect holds
    at least one of the seven fallback genres, normalization returns a
    non-empty list; and when no input token survives the vocabulary, the
    result is the first (up to 5) fallback genres the vocabulary holds. *)
Theorem normalize_nonempty sp w genres (V : gset string) g :
  (_allowed_genres sp w).1 = Ret V →
  g ∈ fallback_genres → g ∈ V →
  ∃ l, (_normalize_genre_list sp genres w).1 = Ret l
       ∧ l ≠ []
       ∧ (keep_allowed V (clean_tokens (genre_tokens genres) ∅) = [] →
          l = take 5 (keep_allowed V fallback_genres)).
Proof.
  intros HV Hg HgV.
  exists (normalize_in V genres). split; [by apply _normalize_genre_list_in|].
  unfold normalize_in.
  destruct (keep_allowed V (clean_tokens (genre_tokens genres) ∅)) as [|x xs] eqn:E; simpl truthy; cbv iota.
  - split; [|intros _; by rewrite take_take].
    rewrite take_take. apply take_nonempty. by eapply keep_allowed_nonempty.
  - split; [discriminate | discriminate].
Qed.

Lemma normalize_nonempty_witness :
  ∃ l, (_normalize_genre_list Scenario.offline (GList [Some "rock"])
          (Scenario.with_vocabulary ["jazz"; "pop"])).1 = Ret l
       ∧ l ≠ []
       ∧ (keep_allowed (list_to_set ["jazz"; "pop"])
            (clean_tokens (genre_tokens (GList [Some "rock"])) ∅) = [] →
          l = take 5 (keep_allowed (list_to_set ["jazz"; "pop"]) fallback_genres)).
Proof.
  apply (normalize_nonempty Scenario.offline _ _ (list_to_set ["jazz"; "pop"]) "pop").
  - reflexivity.
  - vm_compute. do 4 right. left.
  - vm_compute. reflexivity.
Defined.

(** ** Target jitterer *)

Section Jitter.

Local Open Scope Q_scope.

Lemma hundredth (k : Z) : (k # 100) * 100 == inject_Z k.
Proof. unfold Qeq, Qmult, inject_Z. simpl. lia. Qed.

Lemma round2_cases x :
  (round2 x * 100 == inject_Z (Qfloor (x * 100))
   /\ x * 100 - inject_Z (Qfloor (x * 100)) <= 1 # 2)
  \/ (round2 x * 100 == inject_Z (Qfloor (x * 100)) + 1
      /\ 1 # 2 <= x * 100 - inject_Z (Qfloor (x * 100))).
Proof.
  unfold round2.
  set (y := x * 100). set (f := Qfloor y).
  assert (H1 : ((f + 1)%Z # 100) * 100 == inject_Z f + 1).
  { rewrite hundredth, inject_Z_plus. reflexivity. }
  pose proof (hundredth f) as H0.
  destruct (y - inject_Z f ?= 1 # 2) eqn:E.
  - apply Qeq_alt in E.
    destruct (Z.even f).
    + left. split; [exact H0 | lra].
    + right. split; [exact H1 | lra].
  - apply Qlt_alt in E. left. split; [exact H0 | lra].
  - apply Qgt_alt in E. right. split; [exact H1 | lra].
Qed.

Lemma round2_close x : x - (1 # 200) <= round2 x <= x + (1 # 200).
Proof.
  pose proof (Qfloor_le (x * 100)) as Hlo.
  pose proof (Qlt_floor (x * 100)) as Hhi.
  rewrite inject_Z_plus in Hhi. change (inject_Z 1) with 1 in Hhi.
  destruct (round2_cases x) as [[E H]|[E H]]; split; lra.
Qed.

Lemma round2_unit x : 0 <= x <= 1 -> 0 <= round2 x <= 1.
Proof.
  intros [H0 H1].
  pose proof (Qfloor_le (x * 100)) as Hlo.
  pose proof (Qlt_floor (x * 100)) as Hhi.
  rewrite inject_Z_plus in Hhi. change (inject_Z 1) with 1 in Hhi.
  assert (Hf0 : (0 <= Qfloor (x * 100))%Z).
  { change 0%Z with (Qfloor 0). apply Qfloor_resp_le. lra. }
  assert (Hq0 : 0 <= inject_Z (Qfloor (x * 100))).
  { change 0 with (inject_Z 0). rewrite <- Zle_Qle. exact Hf0. }
  destruct (round2_cases x) as [[E H]|[E H]].
  - split; lra.
  - split; [lra|].
    assert (Hf : (Qfloor (x * 100) <= 99)%Z).
    { assert (inject_Z (Qfloor (x * 100)) < inject_Z 100) as L.
      { change (inject_Z 100) with 100. lra. }
      rewrite <- Zlt_Qlt in L. lia. }
    assert (inject_Z (Qfloor (x * 100)) <= inject_Z 99) as L2 by (rewrite <- Zle_Qle; exact Hf).
    change (inject_Z 99) with 99 in L2. lra.
Qed.

Lemma uniform_between a b u : a <= b → 0 <= u <= 1 → a <= uniform a b u <= b.
Proof. unfold uniform. intros Hab [Hu0 Hu1]. split; nra. Qed.

Lemma jitter_bounds center spread :
  0 <= center <= 1 → 0 <= spread →
  0 <= Qmax 0 (center - spread) ∧ Qmax 0 (center - spread) <= center
  ∧ center <= Qmin 1 (center + spread) ∧ Qmin 1 (center + spread) <= 1.
Proof.
  intros [Hc0 Hc1] Hs.
  destruct (Q.max_spec 0 (center - spread)) as [[? E]|[? E]];
  destruct (Q.min_spec 1 (center + spread)) as [[? E']|[? E']];
  rewrite E, E'; repeat split; lra.
Qed.

Lemma round2_hundredths x : ∃ k : Z, round2 x = k # 100.
Proof.
  unfold round2. destruct (_ ?= _); [destruct (Z.even _)| |]; eauto.
Qed.

(** C5, as the specification states it: the result is sampled in
    [[max(0, center-spread), min(1, center-spread)]].  For center 0.25,
    spread 0.125 and the draw 0 of [random()] the result is 0.12 (the point
    drawn is 0.125, and [round] takes the tie to the even hundredth): it is
    outside the interval as written, which is the single point 0.125, and
    also outside [[max(0, center-spread), min(1, center+spread)]] =
    [[0.125, 0.375]], the interval the code draws from before it rounds.
    All the numbers involved are binary fractions. *)
Lemma jitter_leaves_spec_interval :
  ∃ r, _jitter (Some (1 # 4)) (1 # 8) 0 = Some r
       ∧ _j (Some (1 # 4)) (1 # 8) 0 = Some r
       ∧ r == 12 # 100
       ∧ 0 <= r <= 1
       ∧ ¬ spec_jitter_interval (1 # 4) (1 # 8) r
       ∧ ¬ (Qmax 0 ((1 # 4) - (1 # 8)) <= r <= Qmin 1 ((1 # 4) + (1 # 8))).
Proof.
  eexists. split; [reflexivity|]. split; [reflexivity|]. split; [reflexivity|].
  split; [split; vm_compute; discriminate|].
  split; intros [H _]; vm_compute in H; apply H; reflexivity.
Qed.

(** The upper end as the specification writes it, [center-spread], is
    wrong as well: for center 0.5, the spread 0.12 of the audio targets and
    the draw 0.5 the result is 0.5, above 0.38. *)
Example jitter_above_center_minus_spread :
  ∃ r, _jitter (Some (1 # 2)) (12 # 100) (1 # 2) = Some r
       ∧ r == 1 # 2
       ∧ ¬ spec_jitter_interval (1 # 2) (12 # 100) r.
Proof.
  eexists. split; [reflexivity|]. split; [reflexivity|].
  intros [_ H]. vm_compute in H. apply H. reflexivity.
Qed.

(** A negative spread takes the result out of [[0, 1]]. *)
Example jitter_negative_spread :
  ∃ r, _jitter (Some (1 # 2)) (- (1)) 0 = Some r ∧ 1 < r.
Proof. eexists. split; reflexivity. Qed.

(** C5, amended: for every center in [[0,1]], every spread >= 0 and every
    draw [u] in [[0,1]] of [random()], [_jitter] and [_j] return the same
    value [r]: a whole number of hundredths in [[0,1]] that lies within
    0.0051 of the point [x = lo + (hi - lo) * u] which [u] selects in
    [[lo, hi] = [max(0, center-spread), min(1, center+spread)]] (the
    rounding to two decimals moves the result by at most 0.005, the rest is
    a margin for binary floating point); and an absent center gives an
    absent result. *)
Theorem jitter_range (center spread u : Q) :
  0 <= center <= 1 → 0 <= spread → 0 <= u <= 1 →
  let lo := Qmax 0 (center - spread) in
  let hi := Qmin 1 (center + spread) in
  let x := lo + (hi - lo) * u in
  ∃ r,
    _jitter (Some center) spread u = Some r
    ∧ _j (Some center) spread u = Some r
    ∧ (∃ k : Z, (0 <= k <= 100)%Z ∧ r = k # 100)
    ∧ 0 <= r <= 1
    ∧ lo <= x <= hi
    ∧ x - (51 # 10000) <= r <= x + (51 # 10000)
    ∧ _jitter None spread u = None
    ∧ _j None spread u = None.
Proof.
  intros Hc Hs Hu lo hi x.
  destruct (jitter_bounds center spread Hc Hs) as (Hlo0 & Hloc & Hchi & Hhi1).
  fold lo hi in Hlo0, Hloc, Hchi, Hhi1.
  assert (Hx : lo <= x <= hi) by (apply (uniform_between lo hi u); [lra | exact Hu]).
  assert (Hr : 0 <= round2 x <= 1) by (apply round2_unit; lra).
  pose proof (round2_close x) as Hclose.
  exists (round2 x).
  split; [reflexivity|]. split; [reflexivity|].
  split.
  { destruct (round2_hundredths x) as [k Ek]. exists k. split; [|exact Ek].
    rewrite Ek in Hr. destruct Hr as [H0 H1].
    unfold Qle in H0, H1. simpl in H0, H1. lia. }
  split; [exact Hr|]. split; [exact Hx|]. split; [lra|]. split; reflexivity.
Qed.

Lemma jitter_range_witness :
  ∃ r,
    _jitter (Some (1 # 2)) (12 # 100) (1 # 4) = Some r
    ∧ _j (Some (1 # 2)) (12 # 100) (1 # 4) = Some r
    ∧ (∃ k : Z, (0 <= k <= 100)%Z ∧ r = k # 100)
    ∧ 0 <= r <= 1
    ∧ Qmax 0 ((1 # 2) - (12 # 100))
      <= Qmax 0 ((1 # 2) - (12 # 100))
         + (Qmin 1 ((1 # 2) + (12 # 100)) - Qmax 0 ((1 # 2) - (12 # 100))) * (1 # 4)
      <= Qmin 1 ((1 # 2) + (12 # 100))
    ∧ Qmax 0 ((1 # 2) - (12 # 100))
      + (Qmin 1 ((1 # 2) + (12 # 100)) - Qmax 0 ((1 # 2) - (12 # 100))) * (1 # 4)
      - (51 # 10000) <= r
      <= Qmax 0 ((1 # 2) - (12 # 100))
         + (Qmin 1 ((1 # 2) + (12 # 100)) - Qmax 0 ((1 # 2) - (12 # 100))) * (1 # 4)
         + (51 # 10000)
    ∧ _jitter None (12 # 100) (1 # 4) = None
    ∧ _j None (12 # 100) (1 # 4) = None.
Proof.
  apply (jitter_range (1 # 2) (12 # 100) (1 # 4)).
  - split; vm_compute; discriminate.
  - vm_compute; discriminate.
  - split; vm_compute; discriminate.
Defined.

End Jitter.

(** ** Content filter: the tempo rule *)

Lemma Qltb_lt a b : Qltb a b = true ↔ (a < b)%Q.
Proof.
  unfold Qltb. rewrite negb_true_iff.
  split.
  - intros H. apply Qnot_le_lt. intros Hle. apply Qle_bool_iff in Hle. congruence.
  - intros H. destruct (Qle_bool b a) eqn:E; [|reflexivity].
    apply Qle_bool_iff in E. exfalso. eapply Qlt_not_le; eauto.
Qed.

Lemma tempo_outside_iff win t :
  tempo_outside win t = true
  ↔ (t < inject_Z (win.1 - 8) ∨ inject_Z (win.2 + 8) < t)%Q.
Proof. unfold tempo_outside. rewrite orb_true_iff, !Qltb_lt. reflexivity. Qed.

Lemma feature_reject_tempo vr T f t :
  tempo f = Some t → passes_other_rules vr f = true →
  feature_reject vr (tempo_window (Some T)) f
  = tempo_outside (Z.max 40 (T - 20), Z.min 220 (T + 20)) t.
Proof.
  unfold passes_other_rules, feature_reject. intros Ht H.
  rewrite !andb_true_iff, !negb_true_iff in H. destruct H as [[[-> ->] ->] ->].
  rewrite Ht. reflexivity.
Qed.

(** C7, as the specification states it: excluded if and only if outside
    target ± 28.  With target 220 the window stops at 228, and a candidate
    at 240 BPM, inside 220 ± 28, is dropped. *)
Lemma tempo_inside_28_excluded :
  let u := "spotify:track:4uLU6hMCjMI75M1A2tKULa" in
  (_audio_feature_filter (Scenario.catalog 240) [u] (Scenario.with_tempo 220)
     Scenario.fresh).1 = Ret []
  ∧ (inject_Z (220 - 28) <= 240 <= inject_Z (220 + 28))%Q.
Proof. split; [vm_compute; reflexivity | split; vm_compute; discriminate]. Qed.

Lemma meta_loop_length meta i mask : length (meta_loop i meta mask) = length mask.
Proof.
  revert i mask. induction meta as [|t rest IH]; intros i mask; simpl; [done|].
  rewrite IH. destruct (_looks_like_sfx _); [apply length_insert | done].
Qed.

Lemma meta_loop_lookup meta i mask j :
  (∀ k t, meta !! k = Some t → i + k = j → _looks_like_sfx (meta_arg t) = false) →
  meta_loop i meta mask !! j = mask !! j.
Proof.
  revert i mask. induction meta as [|t rest IH]; intros i mask H; simpl; [done|].
  rewrite IH.
  - destruct (_looks_like_sfx (meta_arg t)) eqn:E; [|done].
    destruct (decide (i = j)) as [->|Hne].
    + rewrite (H 0 t) in E; [discriminate | done | lia].
    + by rewrite list_lookup_insert_ne.
  - intros k t' Hk Hj. apply (H (S k) t'); [done | lia].
Qed.

Lemma features_loop_lookup feats vr win i mask :
  i + length feats ≤ length mask →
  ∃ mask', features_loop i feats mask vr win = Ret mask'
    ∧ length mask' = length mask
    ∧ (∀ j, j < i → mask' !! j = mask !! j)
    ∧ (∀ k f, feats !! k = Some (Some f) →
         mask' !! (i + k) = (λ b : bool, b && negb (feature_reject vr win f)) <$> mask !! (i + k)).
Proof.
  revert i mask. induction feats as [|f0 rest IH]; intros i mask Hlen; simpl in *.
  { exists mask. split; [done|]. split; [done|]. split; [done|]. intros k f Hk. done. }
  destruct (lookup_lt_is_Some_2 mask i) as [kept Hkept]; [lia|].
  rewrite Hkept.
  set (mask1 := match f0 with
                | Some f' => if kept && feature_reject vr win f' then <[i := false]> mask else mask
                | None => mask
                end).
  assert (Hlen1 : length mask1 = length mask).
  { unfold mask1. destruct f0 as [f'|]; [|done].
    destruct (kept && _); [apply length_insert | done]. }
  assert (Hold : ∀ j, j ≠ i → mask1 !! j = mask !! j).
  { intros j Hj. unfold mask1. destruct f0 as [f'|]; [|done].
    destruct (kept && _); [by rewrite list_lookup_insert_ne | done]. }
  assert (Hrun : features_loop i (f0 :: rest) mask vr win
                 = features_loop (S i) rest mask1 vr win).
  { simpl. rewrite Hkept. unfold mask1. destruct f0 as [f'|]; [|done].
    by destruct (kept && _). }
  simpl in Hrun. rewrite Hkept in Hrun. rewrite Hrun.
  destruct (IH (S i) mask1) as (mask' & E & Hl & Hlow & Hat); [lia|].
  exists mask'. split; [exact E|]. split; [congruence|]. split.
  - intros j Hj. rewrite Hlow by lia. apply Hold. lia.
  - intros k f Hk. destruct k as [|k]; simpl in Hk.
    + injection Hk as ->. rewrite Nat.add_0_r, Hlow by lia.
      unfold mask1. rewrite Hkept. simpl.
      destruct (kept && feature_reject vr win f) eqn:Eb.
      * rewrite list_lookup_insert_eq by lia.
        apply andb_true_iff in Eb as [-> ->]. done.
      * rewrite Hkept. f_equal. destruct kept; [|done]. simpl in *. by rewrite Eb.
    + replace (i + S k) with (S i + k) by lia. rewrite (Hat k f Hk). by rewrite Hold by lia.
Qed.

Lemma select_kept_elem uris mask u :
  u ∈ select_kept uris mask ↔ ∃ j, uris !! j = Some u ∧ mask !! j = Some true.
Proof.
  revert mask. induction uris as [|x us IH]; intros mask; simpl.
  { split; [intros H; inversion H | intros (j & H & _); done]. }
  destruct mask as [|ok oks].
  { split; [intros H; inversion H | intros (j & _ & H); done]. }
  split.
  - destruct ok.
    + intros [->|H]%elem_of_cons; [by exists 0|].
      apply IH in H as (j & ? & ?). by exists (S j).
    + intros H. apply IH in H as (j & ? & ?). by exists (S j).
  - intros ([|j] & Hu & Hm); simpl in *.
    + injection Hu as ->. injection Hm as ->. left.
    + assert (u ∈ select_kept us oks) by (apply IH; eauto).
      destruct ok; [by right | done].
Qed.

(** The filter on a pool whose features the service returns: the candidate
    at [i] stays exactly when the rules of the audio-feature loop accept
    its features. *)
Lemma _audio_feature_filter_at sp ps uris w i u feats f :
  NoDup uris →
  uris !! i = Some u →
  title_keeps (sp_tracks sp (clock w) (map last_segment uris)) i →
  sp_audio_features sp (S (clock w)) (map last_segment uris) = Ret (Some feats) →
  length feats ≤ length uris →
  feats !! i = Some (Some f) →
  ∃ kept, (_audio_feature_filter sp uris ps w).1 = Ret kept
    ∧ (u ∈ kept ↔ feature_reject (vocals_needed ps) (tempo_window (tempo_bpm ps)) f = false).
Proof.
  intros Hnd Hu Hmeta Hfeats Hlen Hf.
  unfold _audio_feature_filter.
  destruct uris as [|u0 us] eqn:Euris; [done|]. rewrite <- Euris in *. cbn [truthy negb].
  replace (truthy uris) with true by (by rewrite Euris).
  cbn [negb].
  rewrite bind_attempt_external, bind_attempt_external, clock_record_call, Hfeats.
  set (mask := meta_loop 0 _ _).
  assert (Hml : length mask = length uris).
  { unfold mask. by rewrite meta_loop_length, length_replicate. }
  assert (Hmi : mask !! i = Some true).
  { unfold mask. rewrite meta_loop_lookup.
    - apply lookup_replicate_2. by eapply lookup_lt_Some.
    - intros k t Hk Hki. simpl in Hki. subst k.
      destruct (sp_tracks sp (clock w) (map last_segment uris)); [|done].
      by apply Hmeta. }
  destruct (features_loop_lookup feats (vocals_needed ps) (tempo_window (tempo_bpm ps)) 0 mask)
    as (mask' & E & Hl & _ & Hat); [simpl; lia|].
  specialize (Hat i f Hf). simpl in Hat. rewrite Hmi in Hat. simpl in Hat.
  cbn [returned].
  destruct feats as [|f0 fs]; [done|].
  rewrite E. exists (select_kept uris mask'). split; [done|].
  rewrite select_kept_elem. split.
  - intros (j & Hj & Hm).
    assert (j = i) as -> by (eapply NoDup_lookup; eauto).
    rewrite Hat in Hm. injection Hm as Hm. by apply negb_true_iff.
  - intros Hr. exists i. split; [done|]. by rewrite Hat, Hr.
Qed.

(** C7, amended: in a pool of distinct identifiers whose features request
    the service answers with no more entries than the pool has, take any
    candidate whose features entry has a known tempo [t] and which the title
    rule and the other audio rules leave in; with the tempo target [T] set,
    the filter returns and drops that candidate if and only if [t] lies
    outside [[max(40, T-20) - 8, min(220, T+20) + 8]]; for 60 <= T <= 200
    that is outside T ± 28; with T = 140 a candidate at 175 is dropped and
    one at 165 is kept. *)
Theorem tempo_window_rule sp ps uris w T i u feats f t :
  tempo_bpm ps = Some T →
  NoDup uris →
  uris !! i = Some u →
  title_keeps (sp_tracks sp (clock w) (map last_segment uris)) i →
  sp_audio_features sp (S (clock w)) (map last_segment uris) = Ret (Some feats) →
  length feats ≤ length uris →
  feats !! i = Some (Some f) →
  tempo f = Some t →
  passes_other_rules (vocals_needed ps) f = true →
  ∃ kept,
    (_audio_feature_filter sp uris ps w).1 = Ret kept
    ∧ (u ∉ kept
       ↔ (t < inject_Z (Z.max 40 (T - 20) - 8) ∨ inject_Z (Z.min 220 (T + 20) + 8) < t)%Q)
    ∧ ((60 <= T <= 200)%Z →
       (u ∉ kept ↔ (t < inject_Z (T - 28) ∨ inject_Z (T + 28) < t)%Q))
    ∧ (T = 140%Z → (t == 175)%Q → u ∉ kept)
    ∧ (T = 140%Z → (t == 165)%Q → u ∈ kept).
Proof.
  intros HT Hnd Hu Hmeta Hfeats Hlen Hf Ht Hother.
  destruct (_audio_feature_filter_at sp ps uris w i u feats f Hnd Hu Hmeta Hfeats Hlen Hf)
    as (kept & E & Hin).
  rewrite HT, (feature_reject_tempo _ T f t Ht Hother) in Hin.
  assert (Hout : u ∉ kept ↔ tempo_outside (Z.max 40 (T - 20), Z.min 220 (T + 20)) t = true).
  { rewrite Hin. destruct (tempo_outside _ t); split; intros; done. }
  exists kept. split; [exact E|]. split; [|split; [|split]].
  - rewrite Hout. apply tempo_outside_iff.
  - intros HT'. rewrite Hout, tempo_outside_iff. simpl.
    replace (Z.max 40 (T - 20) - 8)%Z with (T - 28)%Z by lia.
    replace (Z.min 220 (T + 20) + 8)%Z with (T + 28)%Z by lia.
    reflexivity.
  - intros -> Et. apply Hout. apply tempo_outside_iff. right. simpl.
    rewrite Et. reflexivity.
  - intros -> Et. apply Hin.
    destruct (tempo_outside _ t) eqn:Eo; [|reflexivity].
    apply tempo_outside_iff in Eo. simpl in Eo. rewrite Et in Eo.
    destruct Eo as [Eo|Eo]; vm_compute in Eo; discriminate.
Qed.

Lemma tempo_window_rule_witness :
  ∃ kept,
    (_audio_feature_filter (Scenario.catalog_at [100%Q; 175%Q; 165%Q]) Scenario.three_uris
       (Scenario.with_tempo 140) Scenario.fresh).1 = Ret kept
    ∧ ("spotify:track:4uLU6hMCjMI75M1A2tKULb" ∉ kept)
    ∧ ("spotify:track:4uLU6hMCjMI75M1A2tKULc" ∈ kept).
Proof.
  pose proof (tempo_window_rule (Scenario.catalog_at [100%Q; 175%Q; 165%Q])
                (Scenario.with_tempo 140) Scenario.three_uris Scenario.fresh 140 1
                "spotify:track:4uLU6hMCjMI75M1A2tKULb"
                [Some (Scenario.plain_features 100); Some (Scenario.plain_features 175);
                 Some (Scenario.plain_features 165)]
                (Scenario.plain_features 175) 175) as H175.
  pose proof (tempo_window_rule (Scenario.catalog_at [100%Q; 175%Q; 165%Q])
                (Scenario.with_tempo 140) Scenario.three_uris Scenario.fresh 140 2
                "spotify:track:4uLU6hMCjMI75M1A2tKULc"
                [Some (Scenario.plain_features 100); Some (Scenario.plain_features 175);
                 Some (Scenario.plain_features 165)]
                (Scenario.plain_features 165) 165) as H165.
  destruct H175 as (kept & E & _ & _ & Hout & _);
    [reflexivity | compute_done | reflexivity
    | intros t Ht; vm_compute in Ht; injection Ht as <-; vm_compute; reflexivity
    | reflexivity | simpl; lia | reflexivity | reflexivity | reflexivity |].
  destruct H165 as (kept' & E' & _ & _ & _ & Hin);
    [reflexivity | compute_done | reflexivity
    | intros t Ht; vm_compute in Ht; injection Ht as <-; vm_compute; reflexivity
    | reflexivity | simpl; lia | reflexivity | reflexivity | reflexivity |].
  exists kept. split; [exact E|]. split; [by apply Hout|].
  rewrite E in E'. injection E' as <-. by apply Hin.
Defined.

(** ** Framing: what a run may do to the log and to the hero cache *)

Section Framing.

Variable P : payload → Prop.

Lemma frame_refl w : frame P w w.
Proof. split; [|done]. exists []. split; [done | constructor]. Qed.

Lemma frame_trans w1 w2 w3 : frame P w1 w2 → frame P w2 w3 → frame P w1 w3.
Proof.
  intros [(l1 & E1 & F1) H1] [(l2 & E2 & F2) H2]. split; [|congruence].
  exists (l2 ++ l1). split.
  - rewrite E2, E1. by rewrite app_assoc.
  - apply Forall_app. done.
Qed.

Lemma frame_record_call c w :
  on_recommendations P c → frame P w (record_call c w).
Proof.
  intros Hc. split; [|done]. exists [c]. split; [done|]. by constructor.
Qed.

Lemma sound_ret {A} (Q : A → Prop) a : Q a → sound P Q (ret a).
Proof. intros HQ w. split; [apply frame_refl|]. simpl. by intros ? [= <-]. Qed.

Lemma sound_raise {A} (Q : A → Prop) e : sound P Q (raise e).
Proof. intros w. split; [apply frame_refl|]. simpl. discriminate. Qed.

Lemma sound_lift {A} (Q : A → Prop) (o : outcome A) :
  (∀ a, o = Ret a → Q a) → sound P Q (lift o).
Proof. intros HQ w. split; [apply frame_refl | exact HQ]. Qed.

Lemma sound_bind {A B} (Q : A → Prop) (R : B → Prop) (m : M A) (k : A → M B) :
  sound P Q m → (∀ a, Q a → sound P R (k a)) → sound P R (bind m k).
Proof.
  intros Hm Hk w. destruct (Hm w) as [Hf HQ]. unfold bind.
  destruct (m w) as [[a|e] w1]; simpl in *.
  - destruct (Hk a (HQ a eq_refl) w1) as [Hf' HR].
    split; [by eapply frame_trans | exact HR].
  - split; [exact Hf | discriminate].
Qed.

Lemma sound_weaken {A} (Q Q' : A → Prop) (m : M A) :
  (∀ a, Q a → Q' a) → sound P Q m → sound P Q' m.
Proof. intros HQ Hm w. destruct (Hm w) as [Hf H]. split; [exact Hf | auto]. Qed.

Lemma sound_attempt {A} (Q : A → Prop) (m : M A) :
  sound P Q m → sound P (λ o, ∀ a, o = Some a → Q a) (attempt m).
Proof.
  intros Hm w. destruct (Hm w) as [Hf HQ]. unfold attempt.
  destruct (m w) as [[a|e] w1]; simpl in *; (split; [exact Hf|]).
  - intros ? [= <-] ? [= <-]. by apply HQ.
  - intros ? [= <-] ? [=].
Qed.

Lemma sound_external {A} c (reply : nat → outcome A) :
  on_recommendations P c → sound P (λ _, True) (external c reply).
Proof. intros Hc w. split; [by apply frame_record_call | done]. Qed.

Lemma sound_get_allowed_cache : sound P (λ _, True) get_allowed_cache.
Proof. intros w. split; [apply frame_refl | done]. Qed.

Lemma sound_set_allowed_cache s : sound P (λ _, True) (set_allowed_cache s).
Proof.
  intros w. split; [|done]. split; [|done]. exists []. split; [done | constructor].
Qed.

Lemma sound_get_hero_cache : sound P (λ _, True) get_hero_cache.
Proof. intros w. split; [apply frame_refl | done]. Qed.

End Framing.

(** A call to the service under [try ... except]: anything but a
    recommendation request may be logged, whatever [P] is. *)
Ltac sound_call :=
  eapply sound_bind; [apply sound_attempt, (sound_external _); exact I|].

Section ClientFraming.

Variable sp : Spotify.
Variable P : payload → Prop.

Lemma sound_allowed_genres : sound P (λ V, V ≠ ∅) (_allowed_genres sp).
Proof.
  assert (Hfetch : sound P (λ V, V ≠ ∅) (fetch_allowed_genres sp)).
  { unfold fetch_allowed_genres.
    sound_call.
    intros [[|g gs]|] _.
    - eapply sound_bind; [apply sound_set_allowed_cache|]. intros _ _.
      apply sound_ret, DEFAULT_SEED_GENRES_nonempty.
    - eapply sound_bind; [apply sound_set_allowed_cache|]. intros _ _.
      apply sound_ret, list_to_set_cons_nonempty.
    - eapply sound_bind; [apply sound_set_allowed_cache|]. intros _ _.
      apply sound_ret, DEFAULT_SEED_GENRES_nonempty. }
  unfold _allowed_genres.
  eapply sound_bind; [apply sound_get_allowed_cache|]. intros [c|] _; [|exact Hfetch].
  case_bool_decide; [by apply sound_ret | exact Hfetch].
Qed.

Lemma length_normalize_in V genres : length (normalize_in V genres) ≤ 5.
Proof. unfold normalize_in. rewrite length_take. lia. Qed.

Lemma sound_normalize_genre_list genres :
  sound P (λ l, length l ≤ 5) (_normalize_genre_list sp genres).
Proof.
  unfold _normalize_genre_list.
  eapply sound_bind; [apply sound_allowed_genres|]. intros V _.
  apply sound_ret, length_normalize_in.
Qed.

Lemma sound_keyword_loop kws seeds max_tracks :
  sound P (λ _, True) (keyword_loop sp kws seeds max_tracks).
Proof.
  revert seeds. induction kws as [|kw rest IH]; intros seeds; simpl.
  - by apply sound_ret.
  - sound_call.
    intros [items|] _; [|by apply sound_ret].
    destruct (_ <=? _)%Z; [by apply sound_ret | apply IH].
Qed.

Lemma sound_keywords_to_seed_tracks keywords max_tracks :
  sound P (λ _, True) (_keywords_to_seed_tracks sp keywords max_tracks).
Proof. apply sound_keyword_loop. Qed.

Lemma sound_artist_genres_loop aids raw :
  sound P (λ _, True) (artist_genres_loop sp aids raw).
Proof.
  revert raw. induction aids as [|aid rest IH]; intros raw; simpl.
  - by apply sound_ret.
  - sound_call.
    intros [a|] _; apply IH.
Qed.

Lemma length_slice_to {A} (k : Z) (l : list A) :
  (0 <= k)%Z → (len (slice_to k l) <= k)%Z.
Proof.
  intros Hk. unfold slice_to, len.
  destruct (Z.leb_spec 0 k); [|lia]. rewrite length_take. lia.
Qed.

Lemma sound_artist_seed_genres artist_ids lim :
  (0 <= lim)%Z →
  sound P (λ l, (len l <= lim)%Z) (_artist_seed_genres sp artist_ids lim).
Proof.
  intros Hlim. unfold _artist_seed_genres.
  eapply sound_bind; [apply sound_artist_genres_loop|]. intros raw _.
  eapply sound_bind; [apply sound_normalize_genre_list|]. intros l _.
  apply sound_ret. by apply length_slice_to.
Qed.

Lemma sound_audio_feature_filter uris ps :
  sound P (λ _, True) (_audio_feature_filter sp uris ps).
Proof.
  unfold _audio_feature_filter.
  destruct (negb (truthy uris)); [by apply sound_ret|].
  sound_call. intros meta _.
  sound_call.
  intros [[[|f fs]|]|] _; try by apply sound_ret.
  destruct (features_loop _ _ _ _ _); [by apply sound_ret | apply sound_raise].
Qed.

Lemma sound_add_from_recs kwargs p :
  P kwargs → sound P (λ _, True) (_add_from_recs sp kwargs p).
Proof.
  intros Hk. unfold _add_from_recs.
  eapply sound_bind; [apply sound_attempt, (sound_external P); exact Hk|].
  intros [items|] _; by apply sound_ret.
Qed.

Lemma sound_request_chain kwargs sa sg seed_genres p :
  P kwargs → P (slim_of kwargs sa sg) →
  (seed_genres ≠ [] → P (genres_only_of kwargs seed_genres)) →
  sound P (λ _, True) (request_chain sp kwargs sa sg seed_genres p).
Proof.
  intros H1 H2 H3. unfold request_chain.
  eapply sound_bind; [by apply sound_add_from_recs|]. intros [ok p1] _.
  eapply sound_bind with (Q := λ _, True).
  { destruct (negb ok); [by apply sound_add_from_recs | by apply sound_ret]. }
  intros [ok2 p2] _.
  eapply sound_bind with (Q := λ _, True).
  { destruct seed_genres as [|g gs]; simpl.
    - rewrite andb_false_r. by apply sound_ret.
    - destruct (negb ok2); simpl; [|by apply sound_ret].
      apply sound_add_from_recs. by apply H3. }
  intros [ok3 p3] _. by apply sound_ret.
Qed.

Lemma sound_top_tracks_loop aids per_artist p :
  sound P (λ _, True) (top_tracks_loop sp aids per_artist p).
Proof.
  revert p. induction aids as [|aid rest IH]; intros p; simpl.
  - by apply sound_ret.
  - sound_call.
    intros [items|] _; apply IH.
Qed.

Lemma sound_artist_quota ids n p :
  sound P (λ _, True) (artist_quota sp ids n p).
Proof.
  unfold artist_quota. destruct (truthy ids); [|by apply sound_ret].
  apply sound_top_tracks_loop.
Qed.

Lemma sound_backfill_and_filter ps n candidates p :
  sound P (λ _, True) (backfill_and_filter sp ps n candidates p).
Proof.
  unfold backfill_and_filter, stage0, stage1.
  sound_call. intros res _.
  eapply sound_bind; [apply sound_audio_feature_filter|]. intros f0 _.
  eapply sound_bind with (Q := λ _, True).
  { destruct (_ <? _)%Z; [apply sound_audio_feature_filter | by apply sound_ret]. }
  intros f1 _. by apply sound_ret.
Qed.

End ClientFraming.

(** ** Seed budgeter *)

Lemma len_take_le {A} n (l : list A) : (len (take n l) <= Z.of_nat n)%Z.
Proof. unfold len. rewrite length_take. lia. Qed.

Lemma len_nonneg {A} (l : list A) : (0 <= len l)%Z.
Proof. unfold len. lia. Qed.

Lemma slice_to_5_take_3 {A} (l : list A) : slice_to (Z.max 0 5) (take 3 l) = take 3 l.
Proof. unfold slice_to. simpl. rewrite take_take. reflexivity. Qed.

Lemma truthy_false_nil {A} (l : list A) : truthy l = false → l = [].
Proof. by destruct l. Qed.

Section Budgeter.

Variable sp : Spotify.
Variable P : payload → Prop.

(** The genre seeds after the two fallbacks fit the slots the artists leave. *)
Lemma sound_build_request ps n rnd :
  sound P (request_ok ps rnd) (build_request sp ps n rnd).
Proof.
  unfold build_request.
  set (ids := user_artist_ids ps).
  set (sa := take 3 ids).
  assert (Hsa : (0 <= len sa <= 3)%Z).
  { split; [apply len_nonneg | apply (len_take_le 3)]. }
  eapply sound_bind; [apply sound_normalize_genre_list|]. intros candidates Hc.
  eapply sound_bind with (Q := λ sg, (len sg <= 5 - len sa)%Z).
  { destruct (truthy sa && negb (truthy _)).
    - eapply sound_weaken; [|apply sound_artist_seed_genres; lia].
      intros l Hl. simpl in Hl. lia.
    - apply sound_ret. rewrite Z.max_r by lia. apply length_slice_to. lia. }
  intros sg1 Hsg1.
  eapply sound_bind with (Q := λ sg, (len sg <= 5 - len sa)%Z).
  { destruct (negb (truthy sa) && negb (truthy sg1)) eqn:E.
    - eapply sound_bind; [apply sound_allowed_genres|]. intros V HV.
      match goal with |- sound _ _ (match ?picked with _ => _ end) => destruct picked end.
      + apply sound_raise.
      + apply sound_ret.
        apply andb_true_iff in E as [E _].
        apply negb_true_iff, truthy_false_nil in E. rewrite E.
        unfold len. simpl. lia.
    - by apply sound_ret. }
  intros sg Hsg.
  eapply sound_bind; [apply sound_keywords_to_seed_tracks|]. intros kw_seeds _.
  apply sound_ret. unfold request_ok. simpl.
  fold ids. fold sa.
  set (seeds_artists := if truthy sa then Some (slice_to (Z.max 0 5) sa) else None).
  set (seeds_genres := if truthy sg && (len sa <? 5)%Z
                       then Some (slice_to (5 - len sa) sg) else None).
  assert (Hart : seeds_artists = None ∨ seeds_artists = Some sa).
  { unfold seeds_artists. destruct (truthy sa); [right | by left].
    unfold sa. by rewrite slice_to_5_take_3. }
  assert (Hlen_art : (len (default [] seeds_artists) <= len sa)%Z).
  { destruct Hart as [-> | ->]; simpl; [apply len_nonneg | lia]. }
  assert (Hgen : (len (default [] seeds_genres) <= 5 - len sa)%Z).
  { unfold seeds_genres. destruct (truthy sg && _); simpl.
    - apply length_slice_to. lia.
    - unfold len in *. simpl. lia. }
  assert (Hbase : ∀ tracks, (len (default [] tracks) <= 1)%Z →
            (len (default [] seeds_artists) + len (default [] seeds_genres)
             + len (default [] tracks) <= 5)%Z →
            ∀ kw, kw_seed_artists kw = seeds_artists → kw_seed_genres kw = seeds_genres →
                  kw_seed_tracks kw = tracks → budget_ok ids kw).
  { intros tracks Ht Hsum kw E1 E2 E3. unfold budget_ok, within_budget, seed_count.
    rewrite E1, E2, E3. fold sa. repeat split; try done; lia. }
  split; [reflexivity|]. split; [|split; [|split]].
  - destruct (truthy kw_seeds && _ && _); [destruct (0 <? _)%Z eqn:Hroom|].
    + apply (Hbase (Some (take 1 kw_seeds))); try reflexivity.
      * simpl. apply (len_take_le 1).
      * simpl. pose proof (len_take_le 1 kw_seeds). lia.
    + apply (Hbase None); try reflexivity; unfold len in *; simpl; lia.
    + apply (Hbase None); try reflexivity; unfold len in *; simpl; lia.
  - apply (Hbase None); try reflexivity; unfold len in *; simpl; lia.
  - unfold budget_ok, within_budget, seed_count. simpl. fold sa.
    repeat split; try (by left); unfold len in *; simpl; lia.
  - destruct (truthy kw_seeds && _ && _); [destruct (0 <? _)%Z|]; reflexivity.
Qed.

End Budgeter.

(** ** Genre hero resolver *)

Lemma frame_length P w w' : frame P w w' → length (calls w) ≤ length (calls w').
Proof. intros [(l & -> & _) _]. rewrite length_app. lia. Qed.

Section Hero.

Variable sp : Spotify.
Variable P : payload → Prop.

Lemma sound_safe_artist aid : sound P (λ _, True) (_safe_artist sp aid).
Proof.
  unfold _safe_artist. eapply sound_weaken; [|apply sound_attempt, (sound_external P); exact I].
  done.
Qed.

Lemma sound_hero_from_tracks ts : sound P (λ _, True) (hero_from_tracks sp ts).
Proof.
  induction ts as [|t rest IH]; simpl; [by apply sound_ret|].
  destruct (track_artists t) as [|[aid|] others]; [exact IH | | apply sound_raise].
  eapply sound_bind; [apply sound_safe_artist|]. intros [a|] _; [|exact IH].
  destruct (artist_truthy a); [|exact IH].
  eapply sound_bind; [by apply (sound_lift P (λ _, True))|]. intros u _.
  destruct (url_truthy u); [by apply sound_ret | exact IH].
Qed.

Lemma sound_search_artist_by_genre genre :
  P (hero_payload genre) → sound P (λ _, True) (_search_artist_by_genre sp genre).
Proof.
  intros HP. unfold _search_artist_by_genre.
  eapply sound_bind with (Q := λ _, True).
  { eapply sound_weaken; [|apply sound_attempt]; [done|].
    eapply sound_bind; [apply (sound_external P); exact I|]. intros items _.
    by apply (sound_lift P (λ _, True)). }
  intros direct _.
  assert (Hrecs : sound P (λ _, True)
            (let* via_recs :=
               attempt (let* recs := external (CallRecommendations (hero_payload genre))
                                       (fun t => sp_recommendations sp t (hero_payload genre)) in
                        hero_from_tracks sp recs) in
             match via_recs with
             | Some (Some a) => ret (Some a)
             | _ => ret None
             end)).
  { eapply sound_bind with (Q := λ _, True).
    - eapply sound_weaken; [|apply sound_attempt]; [done|].
      eapply sound_bind; [apply (sound_external P); exact HP|]. intros recs _.
      apply sound_hero_from_tracks.
    - intros [[a|]|] _; by apply sound_ret. }
  destruct direct as [[a|]|]; [by apply sound_ret | exact Hrecs | exact Hrecs].
Qed.

Lemma memoize_step g a w : hero_step P g w (memoize g a w).
Proof.
  assert (Hnone : hero_step P g w (Ret None, w)).
  { split; [|done]. exists []. split; [done | constructor]. }
  unfold memoize. destruct a as [a|]; [|exact Hnone].
  destruct (artist_truthy a); [|exact Hnone].
  unfold bind, lift. destruct (hero_of a) as [d|e]; simpl.
  - split; [|done]. exists []. split; [done | constructor].
  - split; [|done]. exists []. split; [done | constructor].
Qed.

Lemma lookup_then_memoize (lookup : M (option artist)) g w :
  sound P (λ _, True) lookup → hero_step P g w (bind lookup (memoize g) w).
Proof.
  intros Hl. destruct (Hl w) as [[(l & El & Fl) Hc] _]. unfold bind.
  destruct (lookup w) as [[a|e] w1]; simpl in *.
  - destruct (memoize_step g a w1) as [(l' & El' & Fl') Hc'].
    split.
    + exists (l' ++ l). split; [rewrite El', El; by rewrite app_assoc | by apply Forall_app].
    + destruct ((memoize g a w1).1) as [[d|]|e]; congruence.
  - split; [eauto | done].
Qed.

End Hero.

Lemma safe_artist_busy sp aid w :
  length (calls w) < length (calls (_safe_artist sp aid w).2).
Proof. unfold _safe_artist. rewrite attempt_external. simpl. lia. Qed.

Lemma search_artist_by_genre_busy sp genre w :
  length (calls w) < length (calls (_search_artist_by_genre sp genre w).2).
Proof.
  unfold _search_artist_by_genre.
  set (c := CallSearch _ _ _ _).
  set (k := λ direct : option (option artist), _).
  assert (Hk : ∀ d w0, length (calls w0) ≤ length (calls (k d w0).2)).
  { intros d w0.
    assert (Hs : sound (λ _, True) (λ _ : option artist, True) (k d)).
    { unfold k. destruct d as [[a|]|]; [by apply sound_ret | |].
      all: eapply sound_bind with (Q := λ _, True);
        [eapply sound_weaken; [|apply sound_attempt]; [done|];
         eapply sound_bind; [apply (sound_external (λ _, True)); exact I|]; intros recs _;
         apply sound_hero_from_tracks
        |intros [[a|]|] _; by apply sound_ret]. }
    destruct (Hs w0) as [Hf _]. by eapply frame_length. }
  set (m := let* items := external c _ in lift (first_with_image items)).
  destruct (attempt_returns m w) as (d & E).
  rewrite (bind_run _ _ _ _ _ E).
  assert (Hm : (m w).2 = record_call c w).
  { unfold m, bind, external, lift. by destruct (sp_search_artists sp _ _ _). }
  rewrite Hm. eapply Nat.lt_le_trans; [|apply Hk]. simpl. lia.
Qed.

Lemma memoize_calls g a w : calls (memoize g a w).2 = calls w.
Proof.
  unfold memoize. destruct a as [a|]; [|done].
  destruct (artist_truthy a); [|done].
  unfold bind, lift. by destruct (hero_of a).
Qed.

Lemma then_memoize_busy (lookup : M (option artist)) g w :
  length (calls w) < length (calls (lookup w).2) →
  length (calls w) < length (calls (bind lookup (memoize g) w).2).
Proof.
  intros H. unfold bind. destruct (lookup w) as [[a|e] w1]; simpl in *; [|done].
  by rewrite memoize_calls.
Qed.

Lemma hero_step_after_none P g w r1 r2 :
  hero_step P g w r1 → r1.1 = Ret None → hero_step P g r1.2 r2 → hero_step P g w r2.
Proof.
  intros [(l1 & E1 & F1) H1] Hnone [(l2 & E2 & F2) H2]. rewrite Hnone in H1. split.
  - exists (l2 ++ l1). split; [rewrite E2, E1; by rewrite app_assoc | by apply Forall_app].
  - destruct r2.1 as [[d|]|e]; congruence.
Qed.

Lemma nonempty_false s : Text.nonempty s = false → s = "".
Proof. by destruct s. Qed.

Section HeroCache.

Variable sp : Spotify.
Variable genre : string.

Local Abbreviation g := (genre_key genre).

Lemma get_genre_hero_cases w :
  get_genre_hero sp genre w
  = if Text.nonempty g then
      match _GENRE_HERO_CACHE w !! g with
      | Some data => (Ret (Some data), w)
      | None => resolve_miss sp g w
      end
    else (Ret None, w).
Proof.
  unfold get_genre_hero. destruct (Text.nonempty g); [|reflexivity].
  unfold bind at 1, get_hero_cache. cbn [negb]. cbv beta iota.
  destruct (_GENRE_HERO_CACHE w !! g); reflexivity.
Qed.

(** An empty name resolves to nothing and touches nothing. *)
Lemma get_genre_hero_empty w :
  Text.nonempty g = false → get_genre_hero sp genre w = (Ret None, w).
Proof. intros E. by rewrite get_genre_hero_cases, E. Qed.

(** A cache hit returns the entry and touches nothing. *)
Lemma get_genre_hero_hit w d :
  Text.nonempty g = true → _GENRE_HERO_CACHE w !! g = Some d →
  get_genre_hero sp genre w = (Ret (Some d), w).
Proof. intros E H. by rewrite get_genre_hero_cases, E, H. Qed.

(** A cache miss looks the genre up: at least one external call is made,
    and the cache changes only by the entry of a hero that is returned. *)
Lemma get_genre_hero_miss P w :
  P (hero_payload g) → Text.nonempty g = true → _GENRE_HERO_CACHE w !! g = None →
  hero_step P g w (get_genre_hero sp genre w)
  ∧ length (calls w) < length (calls (get_genre_hero sp genre w).2).
Proof.
  intros HP E H. rewrite get_genre_hero_cases, E, H. unfold resolve_miss.
  pose proof (λ w0, lookup_then_memoize P (_search_artist_by_genre sp g) g w0
                      (sound_search_artist_by_genre sp P g HP)) as Hsearch.
  pose proof (λ w0, then_memoize_busy (_search_artist_by_genre sp g) g w0
                      (search_artist_by_genre_busy sp g w0)) as Hbusy.
  destruct (_CANON !! g) as [canon_id|].
  - pose proof (lookup_then_memoize P (_safe_artist sp canon_id) g w
                  (sound_safe_artist sp P canon_id)) as Hfast.
    pose proof (then_memoize_busy (_safe_artist sp canon_id) g w
                  (safe_artist_busy sp canon_id w)) as Hfb.
    destruct (bind (_safe_artist sp canon_id) (memoize g) w) as [[[d|]|e] w1] eqn:E1;
      simpl in Hfb.
    + rewrite (bind_run _ _ _ _ _ E1). split; [exact Hfast | exact Hfb].
    + rewrite (bind_run _ _ _ _ _ E1). split.
      * eapply hero_step_after_none; [exact Hfast | done | apply Hsearch].
      * eapply Nat.lt_trans; [exact Hfb | apply Hbusy].
    + rewrite (bind_raise _ _ _ _ _ E1). split; [exact Hfast | exact Hfb].
  - rewrite bind_ret_l. split; [apply Hsearch | apply Hbusy].
Qed.

End HeroCache.

(** C9: the genre-hero cache stores only successful resolutions.  With [g]
    the trimmed, lower-cased genre and [r] the outcome of
    [get_genre_hero]:
    - when [r] is absent (or an exception), the cache is left unchanged;
    - when [r] is a hero, the cache holds it under [g] afterwards, and
      differs from the cache before at most by that entry;
    - an entry already cached under a non-empty [g] is returned as it is,
      with no external call and no change of state;
    - after an absent result for a non-empty [g], calling again with the
      same genre makes external lookups again. *)
Theorem genre_hero_cache_discipline sp genre w :
  let g := genre_key genre in
  let r := get_genre_hero sp genre w in
  (r.1 = Ret None → _GENRE_HERO_CACHE r.2 = _GENRE_HERO_CACHE w)
  ∧ (∀ e, r.1 = Raise e → _GENRE_HERO_CACHE r.2 = _GENRE_HERO_CACHE w)
  ∧ (∀ d, r.1 = Ret (Some d) →
       _GENRE_HERO_CACHE r.2 !! g = Some d
       ∧ (_GENRE_HERO_CACHE r.2 = _GENRE_HERO_CACHE w ∨ _GENRE_HERO_CACHE r.2 = <[g := d]> (_GENRE_HERO_CACHE w)))
  ∧ (∀ d, g ≠ "" → _GENRE_HERO_CACHE w !! g = Some d → r = (Ret (Some d), w))
  ∧ (r.1 = Ret None → g ≠ "" →
       length (calls r.2) < length (calls (get_genre_hero sp genre r.2).2)).
Proof.
  intros g r.
  destruct (Text.nonempty g) eqn:Eg.
  - destruct (_GENRE_HERO_CACHE w !! g) as [d0|] eqn:Ec.
    + assert (Er : r = (Ret (Some d0), w)) by by apply get_genre_hero_hit.
      rewrite Er. simpl. split; [|split; [|split; [|split]]]; try done.
      * intros d [= <-]. split; [exact Ec | by left].
      * intros d _ [= <-]. reflexivity.
    + destruct (get_genre_hero_miss sp genre (λ _, True) w I Eg Ec) as [[_ Hc] _].
      fold r in Hc.
      split; [|split; [|split; [|split]]].
      * intros Hr. by rewrite Hr in Hc.
      * intros e Hr. by rewrite Hr in Hc.
      * intros d Hr. rewrite Hr in Hc. rewrite Hc. split; [apply lookup_insert_eq | by right].
      * intros d _ [=].
      * intros Hr _. rewrite Hr in Hc.
        apply (get_genre_hero_miss sp genre (λ _, True) r.2 I Eg).
        by rewrite Hc.
  - assert (Er : r = (Ret None, w)) by by apply get_genre_hero_empty.
    apply nonempty_false in Eg.
    rewrite Er. simpl. split; [|split; [|split; [|split]]]; try done.
Qed.

Lemma genre_hero_cache_discipline_witness :
  let w1 := (get_genre_hero Scenario.recovering " Pop " Scenario.fresh).2 in
  _GENRE_HERO_CACHE w1 = ∅
  ∧ length (calls w1) < length (calls (get_genre_hero Scenario.recovering " Pop " w1).2).
Proof.
  destruct (genre_hero_cache_discipline Scenario.recovering " Pop " Scenario.fresh)
    as (Hnone & _ & _ & _ & Hagain).
  split.
  - apply Hnone. vm_compute. reflexivity.
  - apply Hagain; [vm_compute; reflexivity | vm_compute; discriminate].
Defined.

(** The service being down at first, the first resolution of " Pop " is
    absent and caches nothing; the second finds the canonical artist and
    caches it under "pop"; the third returns that entry without a call. *)
Example hero_after_recovery :
  let r1 := get_genre_hero Scenario.recovering " Pop " Scenario.fresh in
  let r2 := get_genre_hero Scenario.recovering " Pop " r1.2 in
  let r3 := get_genre_hero Scenario.recovering "POP" r2.2 in
  r1.1 = Ret None
  ∧ size (_GENRE_HERO_CACHE r1.2) = 0 ∧ length (calls r1.2) = 3
  ∧ r2.1 = Ret (Some Scenario.taylor_hero)
  ∧ _GENRE_HERO_CACHE r2.2 !! "pop" = Some Scenario.taylor_hero
  ∧ length (calls r2.2) = 4
  ∧ r3.1 = Ret (Some Scenario.taylor_hero)
  ∧ length (calls r3.2) = 4.
Proof. repeat split; vm_compute; reflexivity. Qed.

(** ** Totality of the seed budgeter *)

Lemma returns_ret {A} (Q : A → Prop) a : Q a → returns Q (ret a).
Proof. intros HQ w. by exists a, w. Qed.

Lemma returns_bind {A B} (Q : A → Prop) (R : B → Prop) (m : M A) (k : A → M B) :
  returns Q m → (∀ a, Q a → returns R (k a)) → returns R (bind m k).
Proof.
  intros Hm Hk w. destruct (Hm w) as (a & w1 & E & HQ).
  rewrite (bind_run _ _ _ _ _ E). by apply Hk.
Qed.

Lemma returns_attempt {A} (m : M A) : returns (λ _, True) (attempt m).
Proof. intros w. destruct (attempt_returns m w) as (o & E). eauto. Qed.

Lemma returns_weaken {A} (Q Q' : A → Prop) (m : M A) :
  (∀ a, Q a → Q' a) → returns Q m → returns Q' m.
Proof. intros HQ Hm w. destruct (Hm w) as (a & w1 & E & H). eauto. Qed.

Section Totality.

Variable sp : Spotify.

Lemma returns_allowed_genres : returns (λ V, V ≠ ∅) (_allowed_genres sp).
Proof. intros w. destruct (_allowed_genres_total sp w) as (V & w' & E & H). eauto. Qed.

Lemma returns_normalize_genre_list genres :
  returns (λ _, True) (_normalize_genre_list sp genres).
Proof.
  unfold _normalize_genre_list.
  eapply returns_bind; [apply returns_allowed_genres|]. intros V _. by apply returns_ret.
Qed.

Lemma returns_keyword_loop kws seeds max_tracks :
  returns (λ _, True) (keyword_loop sp kws seeds max_tracks).
Proof.
  revert seeds. induction kws as [|kw rest IH]; intros seeds; simpl.
  - by apply returns_ret.
  - eapply returns_bind; [apply returns_attempt|].
    intros [items|] _; [|by apply returns_ret].
    destruct (_ <=? _)%Z; [by apply returns_ret | apply IH].
Qed.

Lemma returns_artist_genres_loop aids raw :
  returns (λ _, True) (artist_genres_loop sp aids raw).
Proof.
  revert raw. induction aids as [|aid rest IH]; intros raw; simpl.
  - by apply returns_ret.
  - eapply returns_bind; [apply returns_attempt|]. intros [a|] _; apply IH.
Qed.

Lemma returns_artist_seed_genres artist_ids lim :
  returns (λ _, True) (_artist_seed_genres sp artist_ids lim).
Proof.
  unfold _artist_seed_genres.
  eapply returns_bind; [apply returns_artist_genres_loop|]. intros raw _.
  eapply returns_bind; [apply returns_normalize_genre_list|]. intros l _.
  by apply returns_ret.
Qed.

Lemma elements_nonempty (V : gset string) : V ≠ ∅ → elements V ≠ [].
Proof. intros HV E. apply HV. by apply leibniz_equiv, elements_empty_inv. Qed.

(** The seed budgeter never raises: [picked[0]] always exists. *)
Lemma returns_build_request ps n rnd :
  returns (λ _, True) (build_request sp ps n rnd).
Proof.
  unfold build_request.
  eapply returns_bind; [apply returns_normalize_genre_list|]. intros candidates _.
  eapply returns_bind with (Q := λ _, True).
  { destruct (truthy _ && negb (truthy _));
      [apply returns_artist_seed_genres | by apply returns_ret]. }
  intros sg1 _.
  eapply returns_bind with (Q := λ _, True).
  { destruct (negb (truthy _) && negb (truthy sg1)); [|by apply returns_ret].
    eapply returns_bind; [apply returns_allowed_genres|]. intros V HV.
    rewrite bool_decide_true by done.
    destruct (keep_allowed V upbeat_pref) as [|g0 gs]; simpl truthy; cbv iota.
    - destruct (elements V) as [|g gs] eqn:E; [|by apply returns_ret].
      by apply elements_nonempty in HV.
    - by apply returns_ret. }
  intros sg _.
  eapply returns_bind; [apply returns_keyword_loop|]. intros kw_seeds _.
  by apply returns_ret.
Qed.

End Totality.

(** ** The requests that are sent *)

Lemma add_from_recs_state sp kwargs p w :
  (_add_from_recs sp kwargs p w).2 = record_call (CallRecommendations kwargs) w
  ∧ ∃ r, (_add_from_recs sp kwargs p w).1 = Ret r.
Proof.
  unfold _add_from_recs. rewrite bind_attempt_external.
  destruct (returned _); simpl; eauto.
Qed.

(** The requester sends the full request first; whatever it sends after
    that is the seeds-only shape or the genres-only shape. *)
Lemma request_chain_first sp P kwargs sa sg seed_genres p w :
  P (slim_of kwargs sa sg) →
  (seed_genres ≠ [] → P (genres_only_of kwargs seed_genres)) →
  frame P (record_call (CallRecommendations kwargs) w)
    (request_chain sp kwargs sa sg seed_genres p w).2.
Proof.
  intros H2 H3. unfold request_chain.
  destruct (add_from_recs_state sp kwargs p w) as [Hst ([ok p1] & Hr)].
  destruct (_add_from_recs sp kwargs p w) as [o w1] eqn:E. simpl in Hst, Hr. subst o w1.
  rewrite (bind_run _ _ _ _ _ E).
  set (tail := bind _ _).
  assert (Hs : sound P (λ _ : pool, True) tail).
  { unfold tail.
    eapply sound_bind with (Q := λ _, True).
    { destruct (negb ok); [by apply sound_add_from_recs | by apply sound_ret]. }
    intros [ok2 p2] _.
    eapply sound_bind with (Q := λ _, True).
    { destruct seed_genres as [|g gs]; simpl.
      - rewrite andb_false_r. by apply sound_ret.
      - destruct (negb ok2); simpl; [|by apply sound_ret].
        apply sound_add_from_recs. by apply H3. }
    intros [ok3 p3] _. by apply sound_ret. }
  apply Hs.
Qed.

Lemma sound_recommend_tracks sp P ps n rnd :
  (∀ req, request_ok ps rnd req →
     P (req_kwargs req)
     ∧ P (slim_of (req_kwargs req) (req_seeds_artists req) (req_seeds_genres req))
     ∧ P (genres_only_of (req_kwargs req) (req_seed_genres req))) →
  sound P (λ _, True) (recommend_tracks sp ps n rnd).
Proof.
  intros HP. unfold recommend_tracks.
  eapply sound_bind; [apply sound_build_request|]. intros req Hreq.
  destruct (HP req Hreq) as (H1 & H2 & H3).
  eapply sound_bind; [by apply sound_request_chain|]. intros p _.
  eapply sound_bind; [apply sound_artist_quota|]. intros p' _.
  eapply sound_bind with (Q := λ _, True).
  { destruct (_ <? _)%Z; [|by apply sound_ret].
    eapply sound_bind; [apply sound_backfill_and_filter|]. intros f _. by apply sound_ret. }
  intros [f|] _; [by apply sound_ret | apply sound_raise].
Qed.

Lemma hero_payload_within_budget g : within_budget (hero_payload g).
Proof. unfold within_budget, seed_count, len. simpl. lia. Qed.

(** C8: every recommendation request the code constructs respects the seed
    budget.  The seed budgeter always hands over a request; its artist seeds
    are the first three of the caller's identifiers; each of the three
    shapes the requester may send carries at most five seeds, with the
    genre seeds in the slots the artists leave and at most one track seed;
    every recommendation call [recommend_tracks] logs is such a shape; and
    the one recommendation call of the genre-hero resolver has one seed. *)
Theorem seed_budget sp ps n rnd w genre :
  (∃ req w1, build_request sp ps n rnd w = (Ret req, w1) ∧ request_ok ps rnd req)
  ∧ (∃ l, calls (recommend_tracks sp ps n rnd w).2 = l ++ calls w
          ∧ Forall (on_recommendations (budget_ok (user_artist_ids ps))) l)
  ∧ (∃ l, calls (get_genre_hero sp genre w).2 = l ++ calls w
          ∧ Forall (on_recommendations within_budget) l).
Proof.
  split; [|split].
  - destruct (returns_build_request sp ps n rnd w) as (req & w1 & E & _).
    exists req, w1. split; [exact E|].
    destruct (sound_build_request sp (λ _, True) ps n rnd w) as [_ H].
    apply H. by rewrite E.
  - apply (sound_recommend_tracks sp (budget_ok (user_artist_ids ps)) ps n rnd).
    intros req (_ & H1 & H2 & H3 & _). done.
  - set (g := genre_key genre).
    destruct (Text.nonempty g) eqn:Eg.
    + destruct (_GENRE_HERO_CACHE w !! g) as [d|] eqn:Ec.
      * rewrite (get_genre_hero_hit sp genre w d Eg Ec). by exists [].
      * apply (get_genre_hero_miss sp genre within_budget w
                 (hero_payload_within_budget _) Eg Ec).
    + rewrite (get_genre_hero_empty sp genre w Eg). by exists [].
Qed.

(** With four artists supplied and a genre the vocabulary lacks, a service
    that is down sees three recommendation requests; latest first: the two
    genre seeds alone, then twice three artists and two genres. *)
Example three_requests_logged :
  let ps := {| user_artist_ids := ["a1"; "a2"; "a3"; "a4"];
               user_genres := GOther false; genre_candidates := GList [Some "jazz"];
               genres := GOther false;
               energy_range := None; valence_range := None;
               danceability_range := None; acousticness_range := None;
               tempo_bpm := None; keywords := ["summer"];
               instrumental_ok := None; vocals_required := None |} in
  let w := (recommend_tracks Scenario.offline ps 15 (Scenario.draws (1 # 2) 0)
              Scenario.fresh).2 in
  map seed_count
    (omap (λ c, match c with CallRecommendations p => Some p | _ => None end) (calls w))
  = [2; 5; 5]%Z.
Proof. vm_compute. reflexivity. Qed.

(** ** The tempo target *)

Lemma sent_tempo_range ps rnd :
  (-8 <= tempo_delta rnd <= 8)%Z → (32 <= sent_tempo ps rnd <= 228)%Z.
Proof. unfold sent_tempo. lia. Qed.

(** C10: the tempo target of the full request, the first recommendation
    call [recommend_tracks] makes, is the input tempo clamped to
    [[40, 220]] plus the integer drawn from [[-8, 8]]; no later request
    carries another tempo target; so the target sent lies in [[32, 228]],
    and both ends are reached: 32 for tempo 40 and draw -8, 228 for tempo
    220 and draw 8, outside the documented 40–220. *)
Theorem tempo_target_sent sp ps n rnd w :
  (-8 <= tempo_delta rnd <= 8)%Z →
  (∃ req w1 l,
     build_request sp ps n rnd w = (Ret req, w1)
     ∧ kw_target_tempo (req_kwargs req) = Some (sent_tempo ps rnd)
     ∧ calls (recommend_tracks sp ps n rnd w).2
       = l ++ CallRecommendations (req_kwargs req) :: calls w1
     ∧ Forall (on_recommendations (tempo_as_sent ps rnd)) l)
  ∧ sent_tempo ps rnd
    = (Z.max 40 (Z.min 220 (default 100 (tempo_bpm ps))) + tempo_delta rnd)%Z
  ∧ (32 <= sent_tempo ps rnd <= 228)%Z
  ∧ (∃ ps' rnd', (-8 <= tempo_delta rnd' <= 8)%Z ∧ sent_tempo ps' rnd' = 32%Z)
  ∧ (∃ ps' rnd', (-8 <= tempo_delta rnd' <= 8)%Z ∧ sent_tempo ps' rnd' = 228%Z).
Proof.
  intros Hd. split; [|split; [|split; [|split]]].
  - destruct (returns_build_request sp ps n rnd w) as (req & w1 & E & _).
    destruct (sound_build_request sp (λ _, True) ps n rnd w) as [_ Hreq].
    specialize (Hreq req). rewrite E in Hreq. specialize (Hreq eq_refl).
    destruct Hreq as (_ & _ & _ & _ & Htempo).
    set (P := tempo_as_sent ps rnd).
    assert (Hchain : frame P (record_call (CallRecommendations (req_kwargs req)) w1)
              (request_chain sp (req_kwargs req) (req_seeds_artists req)
                 (req_seeds_genres req) (req_seed_genres req) ([], ∅) w1).2).
    { apply request_chain_first; [by left | intros _; by left]. }
    unfold recommend_tracks. rewrite (bind_run _ _ _ _ _ E).
    set (rest := λ p : pool, bind (artist_quota sp (user_artist_ids ps) n p) _).
    assert (Hrest : ∀ p, sound P (λ _ : list string, True) (rest p)).
    { intros p. unfold rest.
      eapply sound_bind; [apply sound_artist_quota|]. intros p' _.
      eapply sound_bind with (Q := λ _, True).
      { destruct (_ <? _)%Z; [|by apply sound_ret].
        eapply sound_bind; [apply sound_backfill_and_filter|]. intros f _.
        by apply sound_ret. }
      intros [f|] _; [by apply sound_ret | apply sound_raise]. }
    assert (Hall : frame P (record_call (CallRecommendations (req_kwargs req)) w1)
              (bind (request_chain sp (req_kwargs req) (req_seeds_artists req)
                       (req_seeds_genres req) (req_seed_genres req) ([], ∅)) rest w1).2).
    { unfold bind.
      destruct (request_chain sp _ _ _ _ _ w1) as [[p|e] w2]; simpl in *; [|exact Hchain].
      eapply frame_trans; [exact Hchain | apply Hrest]. }
    destruct Hall as [(l & El & Fl) _].
    exists req, w1, l. done.
  - reflexivity.
  - by apply sent_tempo_range.
  - exists (Scenario.with_tempo 40), (Scenario.draws (1 # 2) (-8)). split; [simpl; lia | reflexivity].
  - exists (Scenario.with_tempo 220), (Scenario.draws (1 # 2) 8). split; [simpl; lia | reflexivity].
Qed.

Lemma tempo_target_sent_witness :
  ∃ req w1 l,
    build_request Scenario.offline (Scenario.with_tempo 220) 15 (Scenario.draws (1 # 2) 8)
      Scenario.fresh = (Ret req, w1)
    ∧ kw_target_tempo (req_kwargs req) = Some 228%Z
    ∧ calls (recommend_tracks Scenario.offline (Scenario.with_tempo 220) 15
               (Scenario.draws (1 # 2) 8) Scenario.fresh).2
      = l ++ CallRecommendations (req_kwargs req) :: calls w1
    ∧ Forall (on_recommendations
                (tempo_as_sent (Scenario.with_tempo 220) (Scenario.draws (1 # 2) 8))) l.
Proof.
  apply (tempo_target_sent Scenario.offline (Scenario.with_tempo 220) 15
           (Scenario.draws (1 # 2) 8) Scenario.fresh).
  simpl. lia.
Defined.

(** ** Recommendation requester *)

Lemma add_uri_ok t p : pool_ok p → pool_ok (add_uri t p) ∧ p.1 `prefix_of` (add_uri t p).1.
Proof.
  intros [Hnd Hsub]. unfold add_uri.
  destruct (track_uri t) as [u|]; [|done].
  destruct (Text.nonempty u); simpl; [|done].
  case_bool_decide as Hu; simpl; [|done].
  split; [split|].
  - apply NoDup_app. split; [exact Hnd|]. split; [|apply NoDup_singleton].
    intros x Hx Hx'. apply list_elem_of_singleton in Hx' as ->. apply Hu, Hsub, Hx.
  - intros x Hx. apply elem_of_app in Hx as [Hx|Hx].
    + apply elem_of_union_r, Hsub, Hx.
    + apply list_elem_of_singleton in Hx as ->. apply elem_of_union_l. set_solver.
  - by apply prefix_app_r.
Qed.

Lemma add_uris_ok items p :
  pool_ok p → pool_ok (add_uris items p) ∧ p.1 `prefix_of` (add_uris items p).1.
Proof.
  unfold add_uris. revert p. induction items as [|t rest IH]; intros p Hp; simpl; [done|].
  destruct (add_uri_ok t p Hp) as [Hp1 Hpre1].
  destruct (IH _ Hp1) as [Hp2 Hpre2]. split; [exact Hp2 | by etrans].
Qed.

Lemma add_from_recs_run sp kwargs p w :
  _add_from_recs sp kwargs p w
  = (Ret match returned (sp_recommendations sp (clock w) kwargs) with
         | Some items => (true, add_uris items p)
         | None => (false, p)
         end,
     record_call (CallRecommendations kwargs) w).
Proof.
  unfold _add_from_recs. rewrite bind_attempt_external.
  by destruct (returned _).
Qed.

Lemma run_stages_cons sp shape rest p w :
  run_stages sp (shape :: rest) p w
  = match returned (sp_recommendations sp (clock w) shape) with
    | Some (t :: ts) => (Ret (merge (t :: ts) p), record_call (CallRecommendations shape) w)
    | _ => run_stages sp rest p (record_call (CallRecommendations shape) w)
    end.
Proof.
  simpl. rewrite bind_attempt_external.
  by destruct (returned _) as [[|t ts]|].
Qed.

(** The requester keeps the pool well formed and only appends to [bag]. *)
Lemma request_chain_pool sp kwargs sa sg seed_genres p w :
  pool_ok p →
  ∃ p', (request_chain sp kwargs sa sg seed_genres p w).1 = Ret p'
        ∧ pool_ok p' ∧ p.1 `prefix_of` p'.1.
Proof.
  intros Hp.
  assert (Hstep : ∀ kw q w0, pool_ok q →
            ∃ ok q' w', _add_from_recs sp kw q w0 = (Ret (ok, q'), w')
                        ∧ pool_ok q' ∧ q.1 `prefix_of` q'.1).
  { intros kw q w0 Hq. rewrite add_from_recs_run.
    destruct (returned _) as [items|]; [|by eauto 6].
    destruct (add_uris_ok items q Hq). eauto 7. }
  unfold request_chain.
  destruct (Hstep kwargs p w Hp) as (ok1 & p1 & w1 & E1 & Hp1 & Hpre1).
  rewrite (bind_run _ _ _ _ _ E1).
  assert (∃ ok2 p2 w2,
            (if negb ok1 then _add_from_recs sp (slim_of kwargs sa sg) p1
             else ret (ok1, p1)) w1 = (Ret (ok2, p2), w2)
            ∧ pool_ok p2 ∧ p1.1 `prefix_of` p2.1) as (ok2 & p2 & w2 & E2 & Hp2 & Hpre2).
  { destruct (negb ok1); [by apply Hstep | by eauto 7]. }
  rewrite (bind_run _ _ _ _ _ E2).
  assert (∃ ok3 p3 w3,
            (if negb ok2 && truthy seed_genres
             then _add_from_recs sp (genres_only_of kwargs seed_genres) p2
             else ret (ok2, p2)) w2 = (Ret (ok3, p3), w3)
            ∧ pool_ok p3 ∧ p2.1 `prefix_of` p3.1) as (ok3 & p3 & w3 & E3 & Hp3 & Hpre3).
  { destruct (negb ok2 && truthy seed_genres); [by apply Hstep | by eauto 7]. }
  rewrite (bind_run _ _ _ _ _ E3).
  exists p3. split; [reflexivity|]. split; [exact Hp3|]. by do 2 (etrans; [eassumption|]).
Qed.

(** C2, as the specification states it: four shapes, the second being the
    full request again without null targets.  Against a service that fails
    every call the code sends three requests and the specified chain
    four. *)
Lemma requester_is_not_the_four_stage_chain :
  let run chain :=
    chain Scenario.offline Scenario.two_genre_kwargs None (Some ["pop"; "edm"])
      ["pop"; "edm"] (([], ∅) : pool) Scenario.fresh in
  run request_chain ≠ run spec_request_chain
  ∧ length (calls (run request_chain).2) = 3
  ∧ length (calls (run spec_request_chain).2) = 4.
Proof.
  split; [|split]; [|reflexivity|reflexivity].
  intros E. apply (f_equal (λ r, length (calls r.2))) in E. discriminate E.
Qed.

(** Filtering commutes with the removal of repeats. *)
Lemma filter_dedup_first (Q : string → Prop) `{!∀ x, Decision (Q x)} l :
  filter Q (dedup_first l) = dedup_first (filter Q l).
Proof.
  induction l as [|x l IH]; [done|]. cbn [dedup_first].
  rewrite !filter_cons. destruct (decide (Q x)) as [Hx|Hx].
  - cbn [dedup_first]. f_equal. rewrite <- IH, !list_filter_filter.
    apply list_filter_iff. tauto.
  - rewrite <- IH, list_filter_filter. apply list_filter_iff.
    intros y. split; [tauto|]. intros Hy. split; [exact Hy | by intros ->].
Qed.

(** The loop of [_add_from_recs] appends the identifiers that are
    non-empty and not in [seen], each where it first occurs. *)
Lemma add_uris_spec items bag (seen : gset string) :
  let new :=
    dedup_first (filter (λ u, Is_true (Text.nonempty u) ∧ u ∉ seen) (omap track_uri items)) in
  add_uris items (bag, seen) = (bag ++ new, list_to_set new ∪ seen).
Proof.
  unfold add_uris. revert bag seen.
  induction items as [|t rest IH]; intros bag seen; cbn [fold_left].
  { cbn. rewrite app_nil_r. f_equal. by rewrite (left_id_L ∅ (∪)). }
  change (omap track_uri (t :: rest))
    with (match track_uri t with
          | Some y => y :: omap track_uri rest
          | None => omap track_uri rest
          end).
  unfold add_uri at 2. cbn [fst snd].
  destruct (track_uri t) as [u|]; [|apply IH].
  cbn zeta. rewrite filter_cons.
  destruct (Text.nonempty u) eqn:En; cbn [andb].
  - case_bool_decide as Hu.
    + rewrite decide_True by (split; [exact I | exact Hu]).
      rewrite IH. cbn [dedup_first]. rewrite filter_dedup_first, list_filter_filter.
      rewrite <- app_assoc. cbn [app].
      assert (Hf : filter (λ y, Is_true (Text.nonempty y) ∧ y ∉ {[u]} ∪ seen)
                     (omap track_uri rest)
                   = filter (λ y, y ≠ u ∧ Is_true (Text.nonempty y) ∧ y ∉ seen)
                       (omap track_uri rest)).
      { apply list_filter_iff. intros y.
        rewrite not_elem_of_union, not_elem_of_singleton. tauto. }
      rewrite Hf. f_equal. apply set_eq. intros x.
      rewrite list_to_set_cons, !elem_of_union. tauto.
    + rewrite decide_False by tauto. apply IH.
  - rewrite decide_False by (intros [[] _]). apply IH.
Qed.

(** On a pool whose [seen] is the set of its identifiers, that loop is the
    merge. *)
Lemma add_uris_merge items p : p.2 = list_to_set p.1 → add_uris items p = merge items p.
Proof.
  destruct p as [bag seen]. cbn [fst snd]. intros ->.
  rewrite add_uris_spec. unfold merge. cbn [fst snd].
  rewrite (list_filter_iff _ (λ u, Is_true (Text.nonempty u) ∧ u ∉ bag))
    by (intros y; by rewrite elem_of_list_to_set).
  f_equal. by rewrite list_to_set_app_L, (comm_L (∪)).
Qed.

Lemma merge_exact items p : pool_exact p → pool_exact (merge items p).
Proof.
  intros [Hnd He]. split; [|done].
  rewrite <- (add_uris_merge items p He).
  apply add_uris_ok. split; [exact Hnd|]. rewrite He.
  intros u Hu. by apply elem_of_list_to_set.
Qed.

(** C2, amended: provided the service never answers a recommendation
    request with an empty track list, and starting from a running result
    that holds no identifier twice, the requester tries the shapes in a
    fixed order — (1) the full request with seeds, all jittered targets and
    the region hint, (2) the seeds only, keeping the region hint, (3) the
    genre seeds only, when there are any — going on to the next shape when
    a call raises and stopping at the first stage whose call returns at
    least one track; the tracks of that stage are merged into the running
    result deduplicated by identifier: the identifiers that are non-empty
    and not yet in the result are appended in the order of the answer, each
    once, so that the result still holds no identifier twice and what was
    there stays in front. *)
Theorem requester_stages sp kwargs sa sg seed_genres p w :
  (∀ t shape, sp_recommendations sp t shape ≠ Ret []) →
  pool_exact p →
  request_chain sp kwargs sa sg seed_genres p w
  = staged_request_chain sp kwargs sa sg seed_genres p w
  ∧ ∃ p', (request_chain sp kwargs sa sg seed_genres p w).1 = Ret p'
          ∧ pool_exact p' ∧ p.1 `prefix_of` p'.1.
Proof.
  intros Hne Hp.
  assert (Hret : ∀ t shape, returned (sp_recommendations sp t shape) ≠ Some []).
  { intros t shape E. destruct (sp_recommendations sp t shape) as [l|e] eqn:Er; [|done].
    simpl in E. injection E as ->. by apply (Hne t shape). }
  assert (Hpre : ∀ items, p.1 `prefix_of` (merge items p).1).
  { intros items. unfold merge. cbn [fst]. by apply prefix_app_r. }
  assert (Heq : request_chain sp kwargs sa sg seed_genres p w
                = staged_request_chain sp kwargs sa sg seed_genres p w
                ∧ ∃ p', (staged_request_chain sp kwargs sa sg seed_genres p w).1 = Ret p'
                        ∧ (p' = p ∨ ∃ items, p' = merge items p)).
  { unfold request_chain, staged_request_chain.
    rewrite (bind_run _ _ _ _ _ (add_from_recs_run sp kwargs p w)).
    simpl app. rewrite run_stages_cons.
    destruct (returned (sp_recommendations sp (clock w) kwargs)) as [[|t1 ts1]|] eqn:E1;
      [by apply Hret in E1 | rewrite (add_uris_merge _ p (proj2 Hp)); split; [reflexivity | eauto] |].
    simpl negb. cbv iota.
    rewrite (bind_run _ _ _ _ _ (add_from_recs_run sp _ p _)).
    rewrite run_stages_cons.
    destruct (returned (sp_recommendations sp _ (slim_of kwargs sa sg))) as [[|t2 ts2]|] eqn:E2;
      [by apply Hret in E2
      | rewrite (add_uris_merge _ p (proj2 Hp)); destruct (truthy seed_genres);
        (split; [reflexivity | eauto]) |].
    destruct (truthy seed_genres); cbn [negb andb]; [|split; [reflexivity | eauto]].
    rewrite (bind_run _ _ _ _ _ (add_from_recs_run sp _ p _)).
    rewrite run_stages_cons.
    destruct (returned (sp_recommendations sp _ (genres_only_of kwargs seed_genres)))
      as [[|t3 ts3]|] eqn:E3;
      [by apply Hret in E3
      | rewrite (add_uris_merge _ p (proj2 Hp)); split; [reflexivity | eauto]
      | split; [reflexivity | eauto]]. }
  destruct Heq as [Heq (p' & Ep' & Hp')]. split; [exact Heq|].
  exists p'. rewrite Heq. split; [exact Ep'|].
  destruct Hp' as [->|[items ->]]; [done|].
  split; [by apply merge_exact | apply Hpre].
Qed.

Lemma requester_stages_witness :
  let run chain :=
    chain Scenario.flaky Scenario.two_genre_kwargs None (Some ["pop"; "edm"])
      ["pop"; "edm"] (([], ∅) : pool) Scenario.fresh in
  run request_chain = run staged_request_chain
  ∧ ∃ p', (run request_chain).1 = Ret p' ∧ pool_exact p' ∧ [] `prefix_of` p'.1.
Proof.
  apply (requester_stages Scenario.flaky).
  - intros t shape. simpl. destruct (t <? 1); discriminate.
  - split; [constructor | reflexivity].
Defined.

(** The first call failing, the seeds-only request is sent and its fifteen
    tracks make the pool; the genres-only request is not sent. *)
Example second_stage_answers :
  let r := request_chain Scenario.flaky Scenario.two_genre_kwargs None
             (Some ["pop"; "edm"]) ["pop"; "edm"] ([], ∅) Scenario.fresh in
  match r.1 with Ret p => length p.1 | Raise _ => 0 end = 15
  ∧ length (calls r.2) = 2.
Proof. split; vm_compute; reflexivity. Qed.

(** Without that proviso: a call that returns no track without raising
    ends the chain of the source at once, with nothing merged. *)
Example empty_answer_ends_the_chain :
  let quiet :=
    {| sp_genre_seeds := sp_genre_seeds Scenario.offline;
       sp_artist := sp_artist Scenario.offline;
       sp_search_tracks := sp_search_tracks Scenario.offline;
       sp_search_artists := sp_search_artists Scenario.offline;
       sp_recommendations := fun t _ => if (t <? 1) then Ret [] else Ret Scenario.fifteen;
       sp_artist_top_tracks := sp_artist_top_tracks Scenario.offline;
       sp_tracks := sp_tracks Scenario.offline;
       sp_audio_features := sp_audio_features Scenario.offline |} in
  let r := request_chain quiet Scenario.two_genre_kwargs None
             (Some ["pop"; "edm"]) ["pop"; "edm"] ([], ∅) Scenario.fresh in
  match r.1 with Ret p => Some p.1 | Raise _ => None end = Some []
  ∧ length (calls r.2) = 1.
Proof. split; vm_compute; reflexivity. Qed.

(** ** The pipeline when the pool is already full *)

(** C1: [recommend_tracks] is to return what was collected, never to
    raise.  The source binds [filtered] only under [if len(bag) < n]: when
    the pool holds [n] identifiers or more after the artist quota, the
    final [random.shuffle(filtered)] raises [UnboundLocalError]. *)
Theorem recommend_tracks_unbound sp ps n rnd w k :
  gathered sp ps n rnd w = Some k →
  (n <= k)%Z →
  (recommend_tracks sp ps n rnd w).1 = Raise UnboundLocalError.
Proof.
  unfold gathered, recommend_tracks. intros Hk Hn.
  destruct (build_request sp ps n rnd w) as [[req|e] w1] eqn:E1; [|discriminate].
  rewrite (bind_run _ _ _ _ _ E1).
  destruct (request_chain sp _ _ _ _ _ w1) as [[p|e] w2] eqn:E2; [|discriminate].
  rewrite (bind_run _ _ _ _ _ E2).
  destruct (artist_quota sp _ n p w2) as [[p'|e] w3] eqn:E3; [|discriminate].
  rewrite (bind_run _ _ _ _ _ E3).
  injection Hk as <-.
  destruct (Z.ltb_spec (len p'.1) n) as [Hlt|_]; [lia|].
  reflexivity.
Qed.

(** The extractor's defaults, 15 tracks requested, and a service that
    recommends 15 tracks. *)
Lemma recommend_tracks_unbound_witness :
  (recommend_tracks Scenario.generous Scenario.default_params 15
     (Scenario.draws (1 # 2) 0) Scenario.fresh).1 = Raise UnboundLocalError.
Proof.
  apply (recommend_tracks_unbound Scenario.generous Scenario.default_params 15
           (Scenario.draws (1 # 2) 0) Scenario.fresh 15).
  - vm_compute. reflexivity.
  - lia.
Defined.

(** ** Staged relaxation *)

(** C3: the stage-2 survivors are to include the stage-1 survivors.  The
    source applies the stage-2 heuristic to the track URI, not to title and
    album: a track named "Happy Song" whose identifier spells "rAiN"
    survives stages 0 and 1 and is dropped by stage 2, and the pipeline
    returns nothing for it. *)
Theorem stage2_drops_stage1_survivor :
  let bag := [Scenario.rainy_uri] in
  let ps := Scenario.default_params in
  (stage0 (Scenario.catalog 100) bag ps Scenario.fresh).1 = Ret bag
  ∧ (stage1 (Scenario.catalog 100) bag ps Scenario.fresh).1 = Ret bag
  ∧ stage2 bag = []
  ∧ (recommend_tracks Scenario.rainy_service ps 15 (Scenario.draws (1 # 2) 0)
       Scenario.fresh).1 = Ret [].
Proof. repeat split; vm_compute; reflexivity. Qed.

(** ** What does hold of the staged relaxation and of the result *)

(** Dropping the vocals requirement rejects no more than before. *)
Lemma feature_reject_relax vr win f :
  feature_reject false win f = true → feature_reject vr win f = true.
Proof.
  unfold feature_reject.
  destruct (_ <=? _)%Z; [done|].
  destruct (at_least (66 # 100) _); [done|].
  destruct (vr && _); [done|]. simpl. done.
Qed.

Lemma mask_le_insert_false_l i m0 m1 : mask_le m0 m1 → mask_le (<[i := false]> m0) m1.
Proof.
  unfold mask_le. intros H. revert i.
  induction H as [|a b m0 m1 Hab H IH]; intros [|i]; simpl; constructor; auto; done.
Qed.

Lemma mask_le_insert_false i m0 m1 :
  mask_le m0 m1 → mask_le (<[i := false]> m0) (<[i := false]> m1).
Proof.
  unfold mask_le. intros H. revert i.
  induction H as [|a b m0 m1 Hab H IH]; intros [|i]; simpl; constructor; auto.
Qed.

Lemma mask_le_insert_false_r i m0 m1 :
  mask_le m0 m1 → m0 !! i = Some false → mask_le m0 (<[i := false]> m1).
Proof.
  unfold mask_le. intros H. revert i.
  induction H as [|a b m0 m1 Hab H IH]; intros [|i] Hi; simpl in *; constructor; auto.
  injection Hi as ->. done.
Qed.

Lemma mask_le_lookup i m0 m1 k0 :
  mask_le m0 m1 → m0 !! i = Some k0 → ∃ k1, m1 !! i = Some k1 ∧ (k0 = true → k1 = true).
Proof. intros H Hi. destruct (Forall2_lookup_l _ _ _ _ _ H Hi) as (k1 & ? & ?). eauto. Qed.

Lemma features_loop_relax feats vr win :
  ∀ i m0 m1 r0,
    mask_le m0 m1 →
    features_loop i feats m0 vr win = Ret r0 →
    ∃ r1, features_loop i feats m1 false win = Ret r1 ∧ mask_le r0 r1.
Proof.
  induction feats as [|f rest IH]; intros i m0 m1 r0 Hle Hrun; simpl in *.
  - injection Hrun as <-. eauto.
  - destruct (m0 !! i) as [k0|] eqn:E0; [|discriminate].
    destruct (mask_le_lookup i m0 m1 k0 Hle E0) as (k1 & E1 & Hk). rewrite E1.
    destruct f as [f|]; [|by eapply IH].
    destruct (k1 && feature_reject false win f) eqn:R1;
      destruct (k0 && feature_reject vr win f) eqn:R0.
    + eapply IH; [|exact Hrun]. by apply mask_le_insert_false.
    + eapply IH; [|exact Hrun]. apply mask_le_insert_false_r; [exact Hle|].
      apply andb_true_iff in R1 as [_ R1]. apply (feature_reject_relax vr) in R1.
      rewrite R1, andb_true_r in R0. by rewrite R0 in E0.
    + eapply IH; [|exact Hrun]. by apply mask_le_insert_false_l.
    + by eapply IH.
Qed.

Lemma select_kept_mono uris m0 m1 :
  mask_le m0 m1 → select_kept uris m0 `sublist_of` select_kept uris m1.
Proof.
  intros H. revert uris.
  induction H as [|a b m0 m1 Hab H IH]; intros [|u us]; simpl; try constructor.
  destruct a, b.
  - by apply sublist_skip.
  - by discriminate Hab.
  - by apply sublist_cons.
  - apply IH.
Qed.

Lemma mask_le_refl m : mask_le m m.
Proof. unfold mask_le. induction m; constructor; auto. Qed.

(** The first inclusion of C3 holds: against a catalog that answers a
    lookup the same way whenever it is asked, whatever stage 0 keeps,
    stage 1 keeps too, in the same order. *)
Lemma stage0_sublist_stage1 sp bag ps w w' l0 :
  (∀ t t' ids, sp_tracks sp t ids = sp_tracks sp t' ids) →
  (∀ t t' ids, sp_audio_features sp t ids = sp_audio_features sp t' ids) →
  (stage0 sp bag ps w).1 = Ret l0 →
  ∃ l1, (stage1 sp bag ps w').1 = Ret l1 ∧ l0 `sublist_of` l1.
Proof.
  intros Hmeta Hfeats. unfold stage0, stage1, _audio_feature_filter.
  destruct (negb (truthy bag)); [intros [= <-]; by exists bag|].
  rewrite !bind_attempt_external, !clock_record_call.
  change (tempo_bpm (relax ps)) with (tempo_bpm ps).
  change (vocals_needed (relax ps)) with false.
  rewrite (Hmeta (clock w') (clock w)), (Hfeats (S (clock w')) (S (clock w))).
  set (mask := meta_loop 0 _ _).
  destruct (returned (sp_audio_features sp _ _)) as [[[|f fs]|]|];
    try (intros [= <-]; eexists; split; [reflexivity|done]).
  destruct (features_loop 0 (f :: fs) mask (vocals_needed ps) _) as [r0|e] eqn:E0;
    [|discriminate].
  destruct (features_loop_relax _ _ _ 0 mask mask r0 (mask_le_refl mask) E0) as (r1 & E1 & Hle).
  rewrite E1. intros [= <-]. eexists. split; [reflexivity|].
  by apply select_kept_mono.
Qed.

Lemma sound_also {A} P (Q Q' : A → Prop) (m : M A) :
  sound P Q m → (∀ w a, (m w).1 = Ret a → Q' a) → sound P Q' m.
Proof. intros Hm HQ w. destruct (Hm w) as [Hf _]. split; [exact Hf | apply HQ]. Qed.

Lemma add_top_tracks_ok items taken per_artist p :
  pool_ok p → pool_ok (add_top_tracks items taken per_artist p).
Proof.
  revert taken p. induction items as [|t rest IH]; intros taken p Hp; simpl; [done|].
  destruct (_ <=? _)%Z; [done|].
  pose proof (add_uri_ok t p Hp) as [Hp' _]. unfold add_uri in Hp'.
  destruct (track_uri t) as [u|]; [|by apply IH].
  destruct (Text.nonempty u && bool_decide (u ∉ p.2)); by apply IH.
Qed.

Lemma select_kept_sublist uris mask : select_kept uris mask `sublist_of` uris.
Proof.
  revert mask. induction uris as [|u us IH]; intros [|[] mask]; simpl;
    try constructor; try apply sublist_nil_l; apply IH.
Qed.

Lemma slice_to_sublist {A} (k : Z) (l : list A) : slice_to k l `sublist_of` l.
Proof. unfold slice_to. destruct (0 <=? k)%Z; apply sublist_take. Qed.

Section Result.

Variable sp : Spotify.

Local Abbreviation anything := (λ _ : payload, True).

Lemma sound_request_chain_pool kwargs sa sg seed_genres p :
  pool_ok p → sound anything pool_ok (request_chain sp kwargs sa sg seed_genres p).
Proof.
  intros Hp. eapply sound_also; [by apply (sound_request_chain sp anything)|].
  intros w p' E.
  destruct (request_chain_pool sp kwargs sa sg seed_genres p w Hp) as (q & Eq & Hq & _).
  rewrite Eq in E. by injection E as <-.
Qed.

Lemma sound_top_tracks_loop_pool aids per_artist p :
  pool_ok p → sound anything pool_ok (top_tracks_loop sp aids per_artist p).
Proof.
  revert p. induction aids as [|aid rest IH]; intros p Hp; simpl.
  - by apply sound_ret.
  - sound_call.
    intros [items|] _; apply IH; [by apply add_top_tracks_ok | done].
Qed.

Lemma sound_artist_quota_pool ids n p :
  pool_ok p → sound anything pool_ok (artist_quota sp ids n p).
Proof.
  intros Hp. unfold artist_quota. destruct (truthy ids); [|by apply sound_ret].
  by apply sound_top_tracks_loop_pool.
Qed.

Lemma sound_audio_feature_filter_sublist uris ps :
  sound anything (λ l, l `sublist_of` uris) (_audio_feature_filter sp uris ps).
Proof.
  unfold _audio_feature_filter.
  destruct (negb (truthy uris)); [by apply sound_ret|].
  sound_call.
  intros meta _.
  sound_call.
  intros [[[|f fs]|]|] _; try (apply sound_ret, select_kept_sublist).
  destruct (features_loop _ _ _ _ _); [apply sound_ret, select_kept_sublist | apply sound_raise].
Qed.

Lemma sound_backfill_and_filter_distinct ps n candidates p :
  pool_ok p → sound anything NoDup (backfill_and_filter sp ps n candidates p).
Proof.
  intros Hp. unfold backfill_and_filter, stage0, stage1.
  sound_call.
  intros res _.
  set (p' := match res with Some items => add_uris items p | None => p end).
  assert (Hbag : NoDup p'.1).
  { unfold p'. destruct res as [items|]; [|apply Hp].
    by destruct (add_uris_ok items p Hp) as [[? _] _]. }
  eapply sound_bind; [apply sound_audio_feature_filter_sublist|]. intros f0 Hf0.
  eapply sound_bind with (Q := λ l, l `sublist_of` p'.1).
  { destruct (_ <? _)%Z; [apply sound_audio_feature_filter_sublist | by apply sound_ret]. }
  intros f1 Hf1. apply sound_ret.
  destruct (_ <? _)%Z.
  - unfold stage2. by apply NoDup_filter.
  - by eapply sublist_NoDup.
Qed.

(** Where [recommend_tracks] does return, C1 holds of the result: no
    identifier twice and at most [n] of them, for a [shuffle] that
    permutes. *)
Lemma recommend_tracks_returns_distinct ps n rnd w l :
  (∀ k, shuffle rnd k ≡ₚ k) →
  (recommend_tracks sp ps n rnd w).1 = Ret l →
  NoDup l ∧ (len l <= n)%Z.
Proof.
  intros Hperm.
  assert (Hs : sound anything (λ l, NoDup l ∧ (len l <= n)%Z) (recommend_tracks sp ps n rnd)).
  { unfold recommend_tracks.
    eapply sound_bind; [apply (sound_build_request sp anything)|]. intros req _.
    eapply sound_bind.
    { apply sound_request_chain_pool. split; [constructor | intros u Hu; inversion Hu]. }
    intros p Hp.
    eapply sound_bind; [by apply sound_artist_quota_pool|]. intros p' Hp'.
    destruct (Z.ltb_spec (len p'.1) n) as [Hlt|_].
    - eapply sound_bind with (Q := λ o, ∀ f, o = Some f → NoDup f).
      { eapply sound_bind; [by apply sound_backfill_and_filter_distinct|].
        intros f Hf. apply sound_ret. by intros ? [= <-]. }
      intros [f|] Hf; [|apply sound_raise].
      apply sound_ret. split.
      + eapply sublist_NoDup; [|apply slice_to_sublist]. rewrite Hperm. by apply Hf.
      + apply length_slice_to. pose proof (len_nonneg p'.1). lia.
    - eapply sound_bind with (Q := λ o, o = None); [by apply sound_ret|].
      intros ? ->. apply sound_raise. }
  intros E. by apply (Hs w).
Qed.

End Result.

(** * Properties of the rest of the code *)

(** ** Genre vocabulary *)

Lemma _allowed_genres_hit sp w V :
  _ALLOWED_GENRES_CACHE w = Some V → V ≠ ∅ → _allowed_genres sp w = (Ret V, w).
Proof.
  intros Hc HV. unfold _allowed_genres, bind, get_allowed_cache. cbv beta iota.
  rewrite Hc. by rewrite bool_decide_true.
Qed.

Lemma fetch_allowed_genres_spec sp w :
  ∃ V, (fetch_allowed_genres sp w).1 = Ret V ∧ V ≠ ∅
       ∧ _ALLOWED_GENRES_CACHE (fetch_allowed_genres sp w).2 = Some V
       ∧ calls (fetch_allowed_genres sp w).2 = CallGenreSeeds :: calls w
       ∧ _GENRE_HERO_CACHE (fetch_allowed_genres sp w).2 = _GENRE_HERO_CACHE w.
Proof.
  unfold fetch_allowed_genres. rewrite bind_attempt_external.
  destruct (returned _) as [[|g gs]|]; simpl;
    eauto 10 using DEFAULT_SEED_GENRES_nonempty, list_to_set_cons_nonempty.
Qed.

Lemma _allowed_genres_settles sp w :
  ∃ V w', _allowed_genres sp w = (Ret V, w') ∧ V ≠ ∅
          ∧ _ALLOWED_GENRES_CACHE w' = Some V
          ∧ _GENRE_HERO_CACHE w' = _GENRE_HERO_CACHE w
          ∧ (calls w' = calls w ∨ calls w' = CallGenreSeeds :: calls w).
Proof.
  assert (Hfetch : ∃ V w', fetch_allowed_genres sp w = (Ret V, w') ∧ V ≠ ∅
                    ∧ _ALLOWED_GENRES_CACHE w' = Some V
                    ∧ _GENRE_HERO_CACHE w' = _GENRE_HERO_CACHE w
                    ∧ (calls w' = calls w ∨ calls w' = CallGenreSeeds :: calls w)).
  { destruct (fetch_allowed_genres_spec sp w) as (V & H1 & H2 & H3 & H4 & H5).
    destruct (fetch_allowed_genres sp w) as [o w'] eqn:E. simpl in *. subst o.
    exists V, w'. eauto 8. }
  destruct (_ALLOWED_GENRES_CACHE w) as [c|] eqn:Ec.
  - destruct (decide (c ≠ ∅)) as [Hne|He].
    + exists c, w. rewrite (_allowed_genres_hit sp w c Ec Hne). eauto 8.
    + unfold _allowed_genres, bind, get_allowed_cache. cbv beta iota.
      rewrite Ec, bool_decide_false by done. exact Hfetch.
  - unfold _allowed_genres, bind, get_allowed_cache. cbv beta iota. rewrite Ec.
    exact Hfetch.
Qed.

(** With the vocabulary [V] cached, the normalizer is [normalize_in V] and
    changes nothing. *)
Lemma _normalize_genre_list_hit sp genres w V :
  _ALLOWED_GENRES_CACHE w = Some V → V ≠ ∅ →
  _normalize_genre_list sp genres w = (Ret (normalize_in V genres), w).
Proof.
  intros Hc HV. unfold _normalize_genre_list.
  rewrite (bind_run _ _ _ _ _ (_allowed_genres_hit sp w V Hc HV)).
  by rewrite bool_decide_true.
Qed.

Lemma _normalize_genre_list_run sp genres w :
  ∃ V w', _normalize_genre_list sp genres w = (Ret (normalize_in V genres), w')
          ∧ V ≠ ∅ ∧ _ALLOWED_GENRES_CACHE w' = Some V
          ∧ _GENRE_HERO_CACHE w' = _GENRE_HERO_CACHE w
          ∧ (calls w' = calls w ∨ calls w' = CallGenreSeeds :: calls w).
Proof.
  destruct (_allowed_genres_settles sp w) as (V & w' & E & HV & Hc & Hh & Hl).
  exists V, w'. split; [|done].
  unfold _normalize_genre_list. rewrite (bind_run _ _ _ _ _ E).
  by rewrite bool_decide_true.
Qed.

(** The world after the vocabulary [V] was fetched at [w]: the genre-seeds
    call is logged and [V] is cached. *)
Lemma fetch_allowed_genres_run sp w :
  let V := match sp_genre_seeds sp (clock w) with
           | Ret (g :: gs) => list_to_set (g :: gs)
           | _ => DEFAULT_SEED_GENRES
           end in
  fetch_allowed_genres sp w
  = (Ret V, {| calls := CallGenreSeeds :: calls w;
               _ALLOWED_GENRES_CACHE := Some V;
               _GENRE_HERO_CACHE := _GENRE_HERO_CACHE w |}).
Proof.
  unfold fetch_allowed_genres. rewrite bind_attempt_external.
  by destruct (sp_genre_seeds sp (clock w)) as [[|g gs]|e].
Qed.

(** X1: [_allowed_genres] never raises and never returns an empty set.  With a
    non-empty vocabulary cached it returns that set, with no call and no
    change.  Otherwise it makes exactly one call, the genre-seeds request,
    and returns and caches the set of the genres the service answered, or
    the built-in default set when the call raises or answers with no genre;
    the hero cache stays as it was.  From then on every call, through
    whatever client, returns that set and changes nothing. *)
Theorem allowed_genres_cached sp w :
  let r := _allowed_genres sp w in
  let answered := match sp_genre_seeds sp (clock w) with
                  | Ret (g :: gs) => list_to_set (g :: gs)
                  | _ => DEFAULT_SEED_GENRES
                  end in
  ((∃ V0, _ALLOWED_GENRES_CACHE w = Some V0 ∧ V0 ≠ ∅ ∧ r = (Ret V0, w))
   ∨ ((_ALLOWED_GENRES_CACHE w = None ∨ _ALLOWED_GENRES_CACHE w = Some ∅)
      ∧ r = (Ret answered,
             {| calls := CallGenreSeeds :: calls w;
                _ALLOWED_GENRES_CACHE := Some answered;
                _GENRE_HERO_CACHE := _GENRE_HERO_CACHE w |})))
  ∧ ∃ V, r.1 = Ret V ∧ V ≠ ∅
         ∧ _ALLOWED_GENRES_CACHE r.2 = Some V
         ∧ (∀ sp', _allowed_genres sp' r.2 = (Ret V, r.2)).
Proof.
  intros r answered.
  assert (Hne : answered ≠ ∅).
  { unfold answered. destruct (sp_genre_seeds sp (clock w)) as [[|g gs]|e];
      auto using DEFAULT_SEED_GENRES_nonempty, list_to_set_cons_nonempty. }
  assert (Hcases : (∃ V0, _ALLOWED_GENRES_CACHE w = Some V0 ∧ V0 ≠ ∅ ∧ r = (Ret V0, w))
                   ∨ ((_ALLOWED_GENRES_CACHE w = None ∨ _ALLOWED_GENRES_CACHE w = Some ∅)
                      ∧ r = (Ret answered,
                             {| calls := CallGenreSeeds :: calls w;
                                _ALLOWED_GENRES_CACHE := Some answered;
                                _GENRE_HERO_CACHE := _GENRE_HERO_CACHE w |}))).
  { destruct (_ALLOWED_GENRES_CACHE w) as [c|] eqn:Ec.
    - destruct (decide (c ≠ ∅)) as [Hc|Hc].
      + left. exists c. split; [done|]. split; [done|]. by apply _allowed_genres_hit.
      + right. split; [right; f_equal; by destruct (decide (c = ∅))|].
        unfold r, _allowed_genres, bind, get_allowed_cache. cbv beta iota.
        rewrite Ec, bool_decide_false by done. apply fetch_allowed_genres_run.
    - right. split; [by left|].
      unfold r, _allowed_genres, bind, get_allowed_cache. cbv beta iota. rewrite Ec.
      apply fetch_allowed_genres_run. }
  split; [exact Hcases|].
  destruct Hcases as [(V0 & Hc & Hn & ->)|[_ ->]]; cbn [fst snd].
  - exists V0. split; [done|]. split; [done|]. split; [done|].
    intros sp'. by apply _allowed_genres_hit.
  - exists answered. split; [done|]. split; [done|]. split; [done|].
    intros sp'. by apply _allowed_genres_hit.
Qed.

(** ** Tokens *)

Lemma all_chars_app ok s1 s2 :
  all_chars ok (s1 +:+ s2) = all_chars ok s1 && all_chars ok s2.
Proof. induction s1 as [|c s1 IH]; simpl; [done|]. by rewrite IH, andb_assoc. Qed.

Lemma re_split_from_chars sep s cur in_run :
  all_chars (λ c, negb (sep c)) cur = true →
  Forall (λ t, all_chars (λ c, negb (sep c)) t = true) (Text.re_split_from sep s cur in_run).
Proof.
  revert cur in_run. induction s as [|c s IH]; intros cur in_run Hcur; simpl.
  - by constructor.
  - destruct (sep c) eqn:Ec.
    + destruct in_run; [by apply IH|]. constructor; [done | by apply IH].
    + apply IH. rewrite all_chars_app, Hcur. simpl. by rewrite Ec.
Qed.

Lemma split_tokens_forall s : Forall genre_token (_split_tokens s).
Proof.
  unfold _split_tokens, Text.re_split.
  pose proof (re_split_from_chars genre_sep (Text.lower s) "" false eq_refl) as H.
  induction H as [|t l Ht Hl IH]; [constructor|].
  rewrite filter_cons. destruct (decide (Is_true (Text.nonempty t))) as [Hn|Hn]; [|exact IH].
  constructor; [|exact IH]. split; [by apply Is_true_eq_true | exact Ht].
Qed.

Lemma lower_fixed s : all_chars genre_char s = true → Text.lower s = s.
Proof.
  induction s as [|c s IH]; simpl; [done|]. intros H.
  apply andb_true_iff in H as [Hc Hs]. rewrite (IH Hs). f_equal.
  unfold Text.lower_ascii. destruct (Text.is_upper c) eqn:Eu; [|done].
  exfalso. unfold genre_char, genre_sep in Hc. rewrite negb_involutive in Hc.
  unfold Text.is_upper, Text.is_lower in *.
  apply andb_true_iff in Eu as [E1 E2]. apply N.leb_le in E1, E2.
  apply orb_true_iff in Hc as [Hc|Hc].
  - apply andb_true_iff in Hc as [E3 _]. apply N.leb_le in E3. lia.
  - apply N.eqb_eq in Hc. lia.
Qed.

Lemma append_empty_r s : s +:+ "" = s.
Proof.
  induction s as [|a s IH]; [done|].
  change (String a (s +:+ "") = String a s). by rewrite IH.
Qed.

Lemma append_snoc_cons cur c s : (cur +:+ String c "") +:+ s = cur +:+ String c s.
Proof.
  induction cur as [|a cur IH]; [done|].
  change (String a ((cur +:+ String c "") +:+ s) = String a (cur +:+ String c s)).
  by rewrite IH.
Qed.

Lemma re_split_from_no_sep sep s cur in_run :
  all_chars (λ c, negb (sep c)) s = true →
  Text.re_split_from sep s cur in_run = [cur +:+ s].
Proof.
  revert cur in_run. induction s as [|c s IH]; intros cur in_run H; simpl.
  - by rewrite append_empty_r.
  - apply andb_true_iff in H as [Hc Hs]. apply negb_true_iff in Hc. rewrite Hc.
    by rewrite (IH _ _ Hs), append_snoc_cons.
Qed.

(** A well-formed token is its own tokenization. *)
Lemma split_tokens_token t : genre_token t → _split_tokens t = [t].
Proof.
  intros [Hn Hc]. unfold _split_tokens, Text.re_split.
  rewrite (lower_fixed t Hc), (re_split_from_no_sep genre_sep t "" false Hc). simpl.
  rewrite filter_cons_True by (by apply Is_true_eq_left). reflexivity.
Qed.

(** X2: every token [_split_tokens] yields is non-empty and made of [a-z] and
    [-] only, whatever the input; and tokenizing the tokens again changes
    nothing. *)
Theorem split_tokens_well_formed s :
  Forall genre_token (_split_tokens s)
  ∧ flat_map _split_tokens (_split_tokens s) = _split_tokens s.
Proof.
  pose proof (split_tokens_forall s) as H. split; [exact H|].
  induction H as [|t l Ht Hl IH]; [done|].
  simpl. by rewrite (split_tokens_token t Ht), IH.
Qed.

(** ** Genre normalizer: shape of the result *)

Lemma clean_tokens_spec tokens seen :
  NoDup (clean_tokens tokens seen)
  ∧ ∀ t, t ∈ clean_tokens tokens seen →
         (t ∉ seen) ∧ Text.nonempty t = true ∧ ∃ t0, t0 ∈ tokens ∧ t = folded t0.
Proof.
  revert seen. induction tokens as [|t0 rest IH]; intros seen; cbn [clean_tokens].
  - split; [constructor | intros t Ht; by apply not_elem_of_nil in Ht].
  - fold (folded t0).
    destruct (Text.nonempty (folded t0)) eqn:En; simpl.
    + case_bool_decide as Hs; simpl.
      * destruct (IH ({[folded t0]} ∪ seen)) as [Hnd Hin]. split.
        -- constructor; [|exact Hnd]. intros Hx. apply Hin in Hx as [Hx _].
           apply Hx, elem_of_union_l, elem_of_singleton. reflexivity.
        -- intros t Ht. apply elem_of_cons in Ht as [->|Ht].
           ++ split; [done|]. split; [done|]. exists t0. split; [left | done].
           ++ apply Hin in Ht as (H1 & H2 & t1 & H3 & H4).
              split; [intros Hs'; apply H1, elem_of_union_r, Hs'|].
              split; [done|]. exists t1. split; [by right | done].
      * destruct (IH seen) as [Hnd Hin]. split; [done|].
        intros t Ht. apply Hin in Ht as (H1 & H2 & t1 & H3 & H4).
        split; [done|]. split; [done|]. exists t1. split; [by right | done].
    + destruct (IH seen) as [Hnd Hin]. split; [done|].
      intros t Ht. apply Hin in Ht as (H1 & H2 & t1 & H3 & H4).
      split; [done|]. split; [done|]. exists t1. split; [by right | done].
Qed.

Lemma NoDup_fallback_genres : NoDup fallback_genres.
Proof. apply (bool_decide_unpack _). vm_compute. exact I. Qed.

Lemma normalize_in_shape V genres :
  length (normalize_in V genres) ≤ 5
  ∧ NoDup (normalize_in V genres)
  ∧ ∀ g, g ∈ normalize_in V genres → g ∈ V.
Proof.
  split; [apply length_normalize_in|]. unfold normalize_in.
  destruct (clean_tokens_spec (genre_tokens genres) ∅) as [Hnd _].
  set (cleaned := clean_tokens _ _) in *.
  destruct (truthy (keep_allowed V cleaned)).
  - split.
    + eapply sublist_NoDup; [|apply sublist_take]. by apply NoDup_filter.
    + intros g Hg. apply elem_of_take in Hg as (i & Hg & _).
      apply list_elem_of_lookup_2 in Hg. by apply list_elem_of_filter in Hg as [? _].
  - split.
    + eapply sublist_NoDup; [|apply sublist_take].
      eapply sublist_NoDup; [|apply sublist_take].
      apply NoDup_filter, NoDup_fallback_genres.
    + intros g Hg. apply elem_of_take in Hg as (i & Hg & _).
      apply list_elem_of_lookup_2 in Hg.
      apply elem_of_take in Hg as (j & Hg & _).
      apply list_elem_of_lookup_2 in Hg. by apply list_elem_of_filter in Hg as [? _].
Qed.

(** X3: the normalizer never raises; its result has at most five entries, no
    entry twice, and only entries of the vocabulary in effect, which is the
    one cached afterwards; the debug wrapper returns the same list. *)
Theorem normalize_output sp genres w :
  ∃ V l w',
    _normalize_genre_list sp genres w = (Ret l, w')
    ∧ _ALLOWED_GENRES_CACHE w' = Some V
    ∧ length l ≤ 5 ∧ NoDup l ∧ (∀ g, g ∈ l → g ∈ V)
    ∧ normalize_genres_for_debug sp genres w = (Ret l, w').
Proof.
  destruct (_normalize_genre_list_run sp genres w) as (V & w' & Hrun & HV & Hc & _).
  exists V, (normalize_in V genres), w'.
  destruct (normalize_in_shape V genres) as (H5 & Hnd & Hin).
  repeat split; try done.
  unfold normalize_genres_for_debug, bind, attempt. by rewrite Hrun.
Qed.

(** ** Genre normalizer: idempotence *)

Lemma synonyms_settled : map_Forall (λ _ v, settled v = true) synonyms.
Proof. apply (bool_decide_unpack _). vm_compute. exact I. Qed.

Lemma fallback_settled : Forall (λ v, settled v = true) fallback_genres.
Proof. apply (bool_decide_unpack _). vm_compute. exact I. Qed.

Lemma settled_spec v : settled v = true → folded v = v ∧ genre_token v.
Proof.
  unfold settled. rewrite !andb_true_iff. intros [[H1 H2] H3].
  apply bool_decide_eq_true in H1. done.
Qed.

(** Folding a well-formed token gives a settled one. *)
Lemma folded_settled t : genre_token t → folded t = t ∨ settled (folded t) = true.
Proof.
  intros Ht. destruct (synonyms !! t) as [v|] eqn:E.
  - right. replace (folded t) with v by (unfold folded; by rewrite E).
    by apply (synonyms_settled t v).
  - left. unfold folded. by rewrite E.
Qed.

Lemma folded_token t : genre_token t → folded (folded t) = folded t ∧ genre_token (folded t).
Proof.
  intros Ht. destruct (folded_settled t Ht) as [E|Hs].
  - rewrite !E. done.
  - by apply settled_spec.
Qed.

Lemma genre_tokens_well_formed genres : Forall genre_token (genre_tokens genres).
Proof.
  destruct genres as [s|l|b]; simpl; [apply split_tokens_forall | | constructor].
  induction l as [|[s|] l IH]; simpl; [constructor | | exact IH].
  apply Forall_app. split; [apply split_tokens_forall | exact IH].
Qed.

(** Every entry of a normalized list is a well-formed token that the
    synonym table leaves alone. *)
Lemma normalize_in_settled V genres t :
  t ∈ normalize_in V genres → folded t = t ∧ genre_token t.
Proof.
  unfold normalize_in.
  set (cleaned := clean_tokens _ _).
  assert (Hclean : ∀ x, x ∈ cleaned → folded x = x ∧ genre_token x).
  { intros x Hx. apply clean_tokens_spec in Hx as (_ & _ & t0 & Ht0 & ->).
    apply folded_token.
    pose proof (genre_tokens_well_formed genres) as Hall.
    rewrite Forall_forall in Hall. by apply Hall. }
  destruct (truthy (keep_allowed V cleaned)); intros Ht.
  - apply elem_of_take in Ht as (i & Ht & _). apply list_elem_of_lookup_2 in Ht.
    apply list_elem_of_filter in Ht as [_ Ht]. by apply Hclean.
  - apply elem_of_take in Ht as (i & Ht & _). apply list_elem_of_lookup_2 in Ht.
    apply elem_of_take in Ht as (j & Ht & _). apply list_elem_of_lookup_2 in Ht.
    apply list_elem_of_filter in Ht as [_ Ht].
    pose proof fallback_settled as Hall. rewrite Forall_forall in Hall.
    by apply settled_spec, Hall.
Qed.

Lemma genre_tokens_of_tokens l :
  Forall genre_token l → genre_tokens (GList (map Some l)) = l.
Proof.
  induction 1 as [|t l Ht Hl IH]; simpl; [done|].
  simpl in IH. by rewrite (split_tokens_token t Ht), IH.
Qed.

Lemma clean_tokens_fixed l seen :
  NoDup l →
  (∀ t, t ∈ l → folded t = t ∧ Text.nonempty t = true ∧ t ∉ seen) →
  clean_tokens l seen = l.
Proof.
  revert seen. induction l as [|t l IH]; intros seen Hnd Hl; cbn [clean_tokens]; [done|].
  apply NoDup_cons in Hnd as [Hnotin Hnd].
  destruct (Hl t) as (Hf & Hn & Hs); [left|].
  fold (folded t). rewrite Hf, Hn. simpl. rewrite bool_decide_true by done. f_equal.
  apply IH; [done|]. intros x Hx.
  destruct (Hl x) as (Hf' & Hn' & Hs'); [by right|].
  split; [done|]. split; [done|].
  intros Hin. apply elem_of_union in Hin as [Hin|Hin]; [|done].
  apply elem_of_singleton in Hin as ->. done.
Qed.

Lemma keep_allowed_all V l : (∀ g, g ∈ l → g ∈ V) → keep_allowed V l = l.
Proof.
  unfold keep_allowed. induction l as [|g l IH]; intros H; [done|].
  rewrite filter_cons_True by (apply H; left). f_equal. apply IH.
  intros x Hx. apply H. by right.
Qed.

Lemma normalize_in_idempotent V genres :
  normalize_in V (GList (map Some (normalize_in V genres))) = normalize_in V genres.
Proof.
  destruct (normalize_in_shape V genres) as (H5 & Hnd & HV).
  pose proof (normalize_in_settled V genres) as Hs.
  set (out := normalize_in V genres) in *.
  unfold normalize_in at 1.
  rewrite genre_tokens_of_tokens by (apply Forall_forall; intros t Ht; by apply Hs).
  rewrite clean_tokens_fixed; [|done|].
  2:{ intros t Ht. destruct (Hs t Ht) as [Hf [Hn _]].
      split; [done|]. split; [done|]. apply not_elem_of_empty. }
  rewrite (keep_allowed_all V out HV).
  destruct out as [|g out'] eqn:Eout; simpl truthy; cbv iota.
  - (* the first pass found nothing: the fallback list finds nothing again *)
    unfold out, normalize_in in Eout.
    destruct (truthy (keep_allowed V (clean_tokens (genre_tokens genres) ∅))) eqn:Et.
    + destruct (keep_allowed V _); [discriminate Et | discriminate Eout].
    + rewrite take_take in Eout. rewrite take_take.
      replace (5 `min` 5) with 5 in * by done. exact Eout.
  - apply take_ge. exact H5.
Qed.

(** X4: normalization is idempotent: feeding the normalized list back, through
    whatever client, returns the same list and changes nothing. *)
Theorem normalize_idempotent sp genres w :
  let r := _normalize_genre_list sp genres w in
  ∃ l, r.1 = Ret l
       ∧ ∀ sp', _normalize_genre_list sp' (GList (map Some l)) r.2 = (Ret l, r.2).
Proof.
  intros r.
  destruct (_normalize_genre_list_run sp genres w) as (V & w' & Hrun & HV & Hc & _).
  unfold r. rewrite Hrun. simpl. exists (normalize_in V genres). split; [done|].
  intros sp'. rewrite (_normalize_genre_list_hit sp' _ w' V Hc HV).
  by rewrite normalize_in_idempotent.
Qed.

(** ** Seeds from keywords *)

Lemma logged_refl C k w : logged C k w w.
Proof. exists []. split; [done|]. split; [constructor | simpl; lia]. Qed.

Lemma logged_step C k c w w' :
  C c → logged C k (record_call c w) w' → logged C (S k) w w'.
Proof.
  intros Hc (l & E & Hl & Hk). exists (l ++ [c]). split; [|split].
  - rewrite E. simpl. by rewrite <- app_assoc.
  - apply Forall_app. split; [done | by constructor].
  - rewrite length_app. simpl. lia.
Qed.

Lemma logged_weaken (C C' : call → Prop) k k' w w' :
  (∀ c, C c → C' c) → k ≤ k' → logged C k w w' → logged C' k' w w'.
Proof.
  intros HC Hk (l & E & Hl & Hlen). exists l. split; [done|]. split; [|lia].
  eapply Forall_impl; eauto.
Qed.

Lemma logged_trans C k1 k2 w1 w2 w3 :
  logged C k1 w1 w2 → logged C k2 w2 w3 → logged C (k1 + k2) w1 w3.
Proof.
  intros (l1 & E1 & H1 & K1) (l2 & E2 & H2 & K2). exists (l2 ++ l1).
  split; [|split].
  - rewrite E2, E1. by rewrite app_assoc.
  - apply Forall_app. done.
  - rewrite length_app. lia.
Qed.

Lemma caches_kept_refl w : caches_kept w w.
Proof. done. Qed.

Lemma caches_kept_trans w1 w2 w3 :
  caches_kept w1 w2 → caches_kept w2 w3 → caches_kept w1 w3.
Proof. intros [A1 B1] [A2 B2]. split; congruence. Qed.

Lemma caches_kept_record_call c w : caches_kept w (record_call c w).
Proof. done. Qed.

Lemma collect_ids_len items seeds max_tracks :
  (len seeds = 0 ∨ len seeds < max_tracks)%Z →
  (len (collect_ids items seeds max_tracks) <= Z.max 1 max_tracks)%Z.
Proof.
  revert seeds. induction items as [|t items IH]; intros seeds Hs; simpl.
  - lia.
  - destruct (track_id t) as [i|]; [|by apply IH].
    destruct (Text.nonempty i); [|by apply IH].
    assert (Hlen : len (seeds ++ [i]) = (len seeds + 1)%Z).
    { unfold len. rewrite length_app. simpl. lia. }
    destruct (Z.leb_spec max_tracks (len (seeds ++ [i]))) as [Hge|Hlt].
    + lia.
    + apply IH. lia.
Qed.

Lemma keyword_loop_spec sp (C : call → Prop) kws seeds max_tracks w :
  (∀ kw, kw ∈ kws → C (CallSearch (keyword_query kw) "track" 2 (Some DEFAULT_MARKET))) →
  (len seeds = 0 ∨ len seeds < max_tracks)%Z →
  ∃ l w', keyword_loop sp kws seeds max_tracks w = (Ret l, w')
          ∧ (len l <= Z.max 1 max_tracks)%Z
          ∧ logged C (length kws) w w'
          ∧ caches_kept w w'.
Proof.
  revert seeds w. induction kws as [|kw kws IH]; intros seeds w HC Hs.
  - exists seeds, w. split; [done|]. split; [lia|]. split; [apply logged_refl | done].
  - cbn [keyword_loop]. rewrite bind_attempt_external.
    assert (Hc : C (CallSearch (keyword_query kw) "track" 2 (Some DEFAULT_MARKET))).
    { apply HC. left. }
    assert (Hrest : ∀ kw', kw' ∈ kws →
              C (CallSearch (keyword_query kw') "track" 2 (Some DEFAULT_MARKET))).
    { intros kw' Hkw'. apply HC. by right. }
    set (w1 := record_call _ w) in *.
    assert (Hstep : logged C 1 w w1 ∧ caches_kept w w1).
    { split; [|apply caches_kept_record_call].
      eapply logged_step; [exact Hc | apply logged_refl]. }
    destruct Hstep as [Hlog1 Hk1].
    destruct (returned _) as [items|]; cbv beta iota zeta.
    + pose proof (collect_ids_len items seeds max_tracks Hs) as Hlen.
      destruct (Z.leb_spec max_tracks (len (collect_ids items seeds max_tracks))) as [Hge|Hlt].
      * exists (collect_ids items seeds max_tracks), w1.
        split; [reflexivity|]. split; [done|]. split; [|done].
        eapply logged_weaken; [| |exact Hlog1]; [done | simpl; lia].
      * assert (Hpre : (len (collect_ids items seeds max_tracks) = 0
                        ∨ len (collect_ids items seeds max_tracks) < max_tracks)%Z) by lia.
        destruct (IH (collect_ids items seeds max_tracks) w1 Hrest Hpre)
          as (l & w' & E & Hl & Hlog & Hk).
        exists l, w'. split; [exact E|]. split; [done|]. split.
        -- apply (logged_trans C 1 (length kws) w w1 w'); done.
        -- eapply caches_kept_trans; [exact Hk1 | exact Hk].
    + exists seeds, w1. split; [reflexivity|]. split; [lia|]. split; [|done].
      eapply logged_weaken; [| |exact Hlog1]; [done | simpl; lia].
Qed.

(** X5: [_keywords_to_seed_tracks] never raises; it returns at most
    [max(1, max_tracks)] identifiers, after at most three searches, each a
    track search for one of the first three keywords with limit 2 on the
    default market; the caches are untouched. *)
Theorem keywords_to_seed_tracks_bounded sp keywords max_tracks w :
  ∃ l w', _keywords_to_seed_tracks sp keywords max_tracks w = (Ret l, w')
          ∧ (len l <= Z.max 1 max_tracks)%Z
          ∧ logged (keyword_search_of keywords) 3 w w'
          ∧ caches_kept w w'.
Proof.
  unfold _keywords_to_seed_tracks.
  assert (HC : ∀ kw, kw ∈ take 3 keywords →
            keyword_search_of keywords
              (CallSearch (keyword_query kw) "track" 2 (Some DEFAULT_MARKET))).
  { intros kw Hkw. simpl. split; [|done]. apply list_elem_of_fmap. by exists kw. }
  assert (H0 : (len ([] : list string) = 0 ∨ len ([] : list string) < max_tracks)%Z)
    by (by left).
  destruct (keyword_loop_spec sp (keyword_search_of keywords) (take 3 keywords) []
              max_tracks w HC H0) as (l & w' & E & Hl & Hlog & Hk).
  exists l, w'. split; [done|]. split; [done|]. split; [|done].
  eapply logged_weaken; [| |exact Hlog]; [done|]. rewrite length_take. lia.
Qed.

(** ** Seeds from the artists' genres *)

Lemma artist_genres_loop_spec sp (C : call → Prop) aids raw w :
  (∀ aid, aid ∈ aids → C (CallArtist aid)) →
  ∃ raw' w', artist_genres_loop sp aids raw w = (Ret raw', w')
             ∧ logged C (length aids) w w' ∧ caches_kept w w'.
Proof.
  revert raw w. induction aids as [|aid aids IH]; intros raw w HC.
  - exists raw, w. split; [done|]. split; [apply logged_refl | done].
  - cbn [artist_genres_loop]. rewrite bind_attempt_external.
    assert (Hc : C (CallArtist aid)) by (apply HC; left).
    assert (Hrest : ∀ aid', aid' ∈ aids → C (CallArtist aid'))
      by (intros aid' Haid'; apply HC; by right).
    set (w1 := record_call _ w) in *.
    assert (Hlog1 : logged C 1 w w1).
    { eapply logged_step; [exact Hc | apply logged_refl]. }
    assert (Hk1 : caches_kept w w1) by apply caches_kept_record_call.
    assert (Hgo : ∀ raw1, ∃ raw' w', artist_genres_loop sp aids raw1 w1 = (Ret raw', w')
                     ∧ logged C (S (length aids)) w w' ∧ caches_kept w w').
    { intros raw1. destruct (IH raw1 w1 Hrest) as (raw' & w' & E & Hlog & Hk).
      exists raw', w'. split; [exact E|]. split.
      - apply (logged_trans C 1 (length aids) w w1 w'); done.
      - eapply caches_kept_trans; [exact Hk1 | exact Hk]. }
    destruct (returned _) as [a|]; cbv beta iota zeta; apply Hgo.
Qed.

(** X6: [_artist_seed_genres] never raises.  For a limit that is not negative
    it returns at most [limit] seeds, and never more than five; no seed
    twice; every seed is in the vocabulary cached afterwards.  It looks up
    at most the first three artists and the vocabulary, four calls at the
    most, and leaves the hero cache alone. *)
Theorem artist_seed_genres_bounded sp artist_ids lim w :
  (0 <= lim)%Z →
  ∃ V l w', _artist_seed_genres sp artist_ids lim w = (Ret l, w')
            ∧ _ALLOWED_GENRES_CACHE w' = Some V
            ∧ (len l <= Z.min lim 5)%Z ∧ NoDup l ∧ (∀ g, g ∈ l → g ∈ V)
            ∧ logged (artist_lookup_of artist_ids) 4 w w'
            ∧ _GENRE_HERO_CACHE w' = _GENRE_HERO_CACHE w.
Proof.
  intros Hlim. unfold _artist_seed_genres.
  assert (HC : ∀ aid, aid ∈ take 3 artist_ids → artist_lookup_of artist_ids (CallArtist aid))
    by (intros aid Haid; exact Haid).
  destruct (artist_genres_loop_spec sp (artist_lookup_of artist_ids) (take 3 artist_ids)
              [] w HC) as (raw & w1 & E1 & Hlog1 & Hk1).
  rewrite (bind_run _ _ _ _ _ E1).
  destruct (_normalize_genre_list_run sp (GList (map Some raw)) w1)
    as (V & w2 & E2 & HV & Hc & Hh & Hcalls).
  rewrite (bind_run _ _ _ _ _ E2).
  destruct (normalize_in_shape V (GList (map Some raw))) as (H5 & Hnd & Hin).
  set (normalized := normalize_in V (GList (map Some raw))) in *.
  pose proof (slice_to_sublist lim normalized) as Hsub.
  exists V, (slice_to lim normalized), w2.
  split; [reflexivity|]. split; [exact Hc|]. split; [|split; [|split; [|split]]].
  - pose proof (length_slice_to lim normalized Hlim) as Hl.
    pose proof (sublist_length _ _ Hsub) as Hl'. unfold len in *. lia.
  - eapply sublist_NoDup; [exact Hnd | exact Hsub].
  - intros g Hg. apply Hin. eapply elem_of_sublist; [exact Hg | exact Hsub].
  - assert (Hlog2 : logged (artist_lookup_of artist_ids) 1 w1 w2).
    { destruct Hcalls as [Hsame|Hone].
      - exists []. split; [by rewrite Hsame|]. split; [constructor | simpl; lia].
      - exists [CallGenreSeeds]. split; [by rewrite Hone|].
        split; [by repeat constructor | simpl; lia]. }
    eapply logged_weaken; [| |exact (logged_trans _ _ _ _ _ _ Hlog1 Hlog2)]; [done|].
    rewrite length_take. lia.
  - destruct Hk1 as [_ Hh1]. congruence.
Qed.

Lemma artist_seed_genres_bounded_witness :
  ∃ V l w',
    _artist_seed_genres Scenario.recovering
      ["06HL4z0CvFAxyc27GXpf02"; "3TVXtAsR1Inumwj472S9r4"] 2 Scenario.fresh = (Ret l, w')
    ∧ _ALLOWED_GENRES_CACHE w' = Some V
    ∧ (len l <= Z.min 2 5)%Z ∧ NoDup l ∧ (∀ g, g ∈ l → g ∈ V)
    ∧ logged (artist_lookup_of ["06HL4z0CvFAxyc27GXpf02"; "3TVXtAsR1Inumwj472S9r4"]) 4
        Scenario.fresh w'
    ∧ _GENRE_HERO_CACHE w' = _GENRE_HERO_CACHE Scenario.fresh.
Proof.
  apply (artist_seed_genres_bounded Scenario.recovering
           ["06HL4z0CvFAxyc27GXpf02"; "3TVXtAsR1Inumwj472S9r4"] 2 Scenario.fresh).
  lia.
Defined.

(** ** Content filter: outcomes *)

Lemma length_meta_loop i meta mask : length (meta_loop i meta mask) = length mask.
Proof.
  revert i mask. induction meta as [|t meta IH]; intros i mask; simpl; [done|].
  rewrite IH. destruct (_looks_like_sfx _); [apply length_insert | done].
Qed.

(** The audio-feature loop from index [i]: it runs through when the
    feature list fits the mask, and raises [IndexError] when it is longer. *)
Lemma features_loop_spec feats vr win i mask :
  i ≤ length mask →
  if decide (i + length feats ≤ length mask)
  then ∃ mask', features_loop i feats mask vr win = Ret mask'
                ∧ length mask' = length mask
  else features_loop i feats mask vr win = Raise IndexError.
Proof.
  revert i mask. induction feats as [|f feats IH]; intros i mask Hi; simpl.
  - rewrite decide_True by lia. eauto.
  - destruct (mask !! i) as [kept|] eqn:E.
    + apply lookup_lt_Some in E.
      assert (Hgo : ∀ mask1, length mask1 = length mask →
                if decide (i + S (length feats) ≤ length mask)
                then ∃ mask', features_loop (S i) feats mask1 vr win = Ret mask'
                              ∧ length mask' = length mask
                else features_loop (S i) feats mask1 vr win = Raise IndexError).
      { intros mask1 Hlen. specialize (IH (S i) mask1). rewrite Hlen in IH.
        assert (Hi' : S i ≤ length mask) by lia. specialize (IH Hi').
        destruct (decide (S i + length feats ≤ length mask));
          destruct (decide (i + S (length feats) ≤ length mask)); try lia; done. }
      destruct f as [f'|]; [|by apply Hgo].
      destruct (kept && feature_reject vr win f'); apply Hgo; [apply length_insert | done].
    + apply lookup_ge_None in E. rewrite decide_False by lia. done.
Qed.

Lemma select_kept_all (uris : list string) :
  select_kept uris (replicate (length uris) true) = uris.
Proof. induction uris as [|u us IH]; simpl; [done|]. by rewrite IH. Qed.

(** One run of the filter on a non-empty list, in terms of the two replies. *)
Lemma _audio_feature_filter_run sp u us ps w :
  _audio_feature_filter sp (u :: us) ps w
  = (match returned (sp_audio_features sp (S (clock w)) (map last_segment (u :: us))) with
    | Some (Some (f :: fs)) =>
        match features_loop 0 (f :: fs)
                (meta_loop 0
                   (default [] (returned (sp_tracks sp (clock w) (map last_segment (u :: us)))))
                   (replicate (length (u :: us)) true))
                (vocals_needed ps) (tempo_window (tempo_bpm ps)) with
        | Ret mask' => Ret (select_kept (u :: us) mask')
        | Raise e => Raise e
        end
    | _ =>
        Ret (select_kept (u :: us)
               (meta_loop 0
                  (default [] (returned (sp_tracks sp (clock w) (map last_segment (u :: us)))))
                  (replicate (length (u :: us)) true)))
    end,
    record_call (CallAudioFeatures (map last_segment (u :: us)))
      (record_call (CallTracks (map last_segment (u :: us))) w)).
Proof.
  unfold _audio_feature_filter. cbn [truthy negb].
  rewrite bind_attempt_external. cbv beta zeta.
  rewrite bind_attempt_external. cbv beta. rewrite clock_record_call.
  destruct (returned (sp_audio_features _ _ _)) as [[[|f fs]|]|]; try reflexivity.
  destruct (features_loop _ _ _ _ _); reflexivity.
Qed.

(** X7: the content filter raises nothing but [IndexError], and that exactly
    when the audio-feature reply has more entries than there are URIs; what
    it returns is a sublist of its input, in order; an empty input comes
    back without any call, otherwise exactly the two lookups are made; the
    caches are untouched. *)
Theorem audio_feature_filter_outcome sp uris ps w :
  let r := _audio_feature_filter sp uris ps w in
  let ids := map last_segment uris in
  match r.1 with
  | Ret l => l `sublist_of` uris
  | Raise e => e = IndexError
  end
  ∧ (r.1 = Raise IndexError
     ↔ uris ≠ [] ∧ ∃ fs, sp_audio_features sp (S (clock w)) ids = Ret (Some fs)
                         ∧ length uris < length fs)
  ∧ (uris = [] → r = (Ret [], w))
  ∧ (uris ≠ [] → calls r.2 = CallAudioFeatures ids :: CallTracks ids :: calls w)
  ∧ caches_kept w r.2.
Proof.
  intros r ids. subst r ids. destruct uris as [|u us].
  - change (_audio_feature_filter sp [] ps w) with (@Ret (list string) [], w).
    cbn [fst snd]. split; [done|]. split; [|done].
    split; [discriminate|]. by intros [Hne _].
  - rewrite _audio_feature_filter_run.
    set (ids := map last_segment (u :: us)).
    set (mask := meta_loop 0 _ _).
    assert (Hmask : length mask = length (u :: us)).
    { unfold mask. by rewrite length_meta_loop, length_replicate. }
    cbn [fst snd].
    destruct (sp_audio_features sp (S (clock w)) ids) as [[[|f fs]|]|e] eqn:Eo;
      cbn [returned].
    + split; [apply select_kept_sublist|]. split; [|done].
      split; [discriminate|]. intros (_ & fs & Efs & Hlen).
      injection Efs as <-. simpl in Hlen. lia.
    + generalize (features_loop_spec (f :: fs) (vocals_needed ps)
                    (tempo_window (tempo_bpm ps)) 0 mask (Nat.le_0_l _)).
      destruct (decide _) as [Hfit|Hlong].
      * intros (mask' & -> & _). split; [apply select_kept_sublist|]. split; [|done].
        split; [discriminate|]. intros (_ & fs' & Efs & Hlen).
        injection Efs as <-. rewrite Hmask in Hfit. simpl in Hfit, Hlen. lia.
      * intros ->. split; [done|]. split; [|done].
        split; [|done]. intros _. split; [done|]. exists (f :: fs).
        split; [done|]. rewrite Hmask in Hlong. simpl in Hlong |- *. lia.
    + split; [apply select_kept_sublist|]. split; [|done].
      split; [discriminate|]. intros (_ & fs & Efs & _). discriminate Efs.
    + split; [apply select_kept_sublist|]. split; [|done].
      split; [discriminate|]. intros (_ & fs & Efs & _). discriminate Efs.
Qed.

(** X8: the filter fails open: when both lookups fail, every URI is kept. *)
Theorem audio_feature_filter_fails_open sp uris ps w e1 e2 :
  sp_tracks sp (clock w) (map last_segment uris) = Raise e1 →
  sp_audio_features sp (S (clock w)) (map last_segment uris) = Raise e2 →
  (_audio_feature_filter sp uris ps w).1 = Ret uris.
Proof.
  intros H1 H2. destruct uris as [|u us]; [reflexivity|].
  rewrite _audio_feature_filter_run, H1, H2. cbn [returned default fst meta_loop].
  by rewrite select_kept_all.
Qed.

Lemma audio_feature_filter_fails_open_witness :
  (_audio_feature_filter Scenario.offline
     [Scenario.rainy_uri; "spotify:track:4uLU6hMCjMI75M1A2tKULa"]
     Scenario.default_params Scenario.fresh).1
  = Ret [Scenario.rainy_uri; "spotify:track:4uLU6hMCjMI75M1A2tKULa"].
Proof.
  apply (audio_feature_filter_fails_open Scenario.offline
           [Scenario.rainy_uri; "spotify:track:4uLU6hMCjMI75M1A2tKULa"]
           Scenario.default_params Scenario.fresh SpotifyException SpotifyException);
    reflexivity.
Defined.

(** ** Artist quota *)

Lemma add_top_tracks_count items taken per_artist p :
  p.1 `prefix_of` (add_top_tracks items taken per_artist p).1
  ∧ (len (add_top_tracks items taken per_artist p).1 - len p.1
     <= Z.max 0 (per_artist - taken))%Z.
Proof.
  revert taken p. induction items as [|t items IH]; intros taken p; cbn [add_top_tracks].
  - split; [done | lia].
  - destruct (Z.leb_spec per_artist taken) as [Hfull|Hroom]; [split; [done | lia]|].
    assert (Hskip : p.1 `prefix_of` (add_top_tracks items taken per_artist p).1
                    ∧ (len (add_top_tracks items taken per_artist p).1 - len p.1
                       <= Z.max 0 (per_artist - taken))%Z) by apply IH.
    destruct (track_uri t) as [u|]; [|exact Hskip].
    destruct (Text.nonempty u && bool_decide (u ∉ p.2)); [|exact Hskip].
    destruct (IH (taken + 1)%Z ((p.1 ++ [u]), {[u]} ∪ p.2)) as [Hpre Hlen].
    cbn [fst] in Hpre, Hlen. split.
    + etrans; [|exact Hpre]. by apply prefix_app_r.
    + assert (len (p.1 ++ [u]) = (len p.1 + 1)%Z)
        by (unfold len; rewrite length_app; simpl; lia).
      lia.
Qed.

Lemma top_tracks_loop_spec sp (C : call → Prop) aids per_artist p w :
  (∀ aid, aid ∈ aids → C (CallArtistTopTracks aid DEFAULT_MARKET)) →
  ∃ p' w', top_tracks_loop sp aids per_artist p w = (Ret p', w')
           ∧ p.1 `prefix_of` p'.1
           ∧ (len p'.1 - len p.1 <= Z.of_nat (length aids) * Z.max 0 per_artist)%Z
           ∧ (pool_ok p → pool_ok p')
           ∧ logged C (length aids) w w' ∧ caches_kept w w'.
Proof.
  revert p w. induction aids as [|aid aids IH]; intros p w HC.
  - exists p, w. split; [done|]. split; [done|]. split; [simpl; lia|].
    split; [done|]. split; [apply logged_refl | done].
  - cbn [top_tracks_loop]. rewrite bind_attempt_external.
    assert (Hc : C (CallArtistTopTracks aid DEFAULT_MARKET)) by (apply HC; left).
    assert (Hrest : ∀ aid', aid' ∈ aids → C (CallArtistTopTracks aid' DEFAULT_MARKET))
      by (intros aid' Haid'; apply HC; by right).
    set (w1 := record_call _ w) in *.
    assert (Hlog1 : logged C 1 w w1).
    { eapply logged_step; [exact Hc | apply logged_refl]. }
    assert (Hk1 : caches_kept w w1) by apply caches_kept_record_call.
    assert (Hgo : ∀ p1, p.1 `prefix_of` p1.1 →
                (len p1.1 - len p.1 <= Z.max 0 per_artist)%Z →
                (pool_ok p → pool_ok p1) →
                ∃ p' w', top_tracks_loop sp aids per_artist p1 w1 = (Ret p', w')
                  ∧ p.1 `prefix_of` p'.1
                  ∧ (len p'.1 - len p.1
                     <= Z.of_nat (length (aid :: aids)) * Z.max 0 per_artist)%Z
                  ∧ (pool_ok p → pool_ok p')
                  ∧ logged C (length (aid :: aids)) w w' ∧ caches_kept w w').
    { intros p1 Hpre Hlen Hok.
      destruct (IH p1 w1 Hrest) as (p' & w' & E & Hpre' & Hlen' & Hok' & Hlog & Hk).
      exists p', w'. split; [exact E|]. split; [by etrans|].
      split; [|split; [tauto|split]].
      - cbn [length]. rewrite Nat2Z.inj_succ, Z.mul_succ_l. lia.
      - apply (logged_trans C 1 (length aids) w w1 w'); done.
      - eapply caches_kept_trans; [exact Hk1 | exact Hk]. }
    destruct (returned _) as [items|]; cbv beta iota zeta.
    + destruct (add_top_tracks_count items 0 per_artist p) as [Hpre Hlen].
      apply Hgo; [done | lia | intros Hp; by apply add_top_tracks_ok].
    + apply Hgo; [done | lia | done].
Qed.

(** The quota never raises, and reports what it did. *)
Lemma artist_quota_run sp ids n p w :
  ∃ p' w', artist_quota sp ids n p w = (Ret p', w')
           ∧ p.1 `prefix_of` p'.1
           ∧ (len p'.1 - len p.1
              <= Z.of_nat (length (take 5 ids))
                 * Z.max 2 (target_total n / Z.max 1 (len ids)))%Z
           ∧ (pool_ok p → pool_ok p')
           ∧ logged (top_tracks_lookup_of ids) 5 w w' ∧ caches_kept w w'.
Proof.
  unfold artist_quota. destruct ids as [|i ids'] eqn:Eids; cbn [truthy].
  - exists p, w. split; [done|]. split; [done|]. split; [simpl; lia|].
    split; [done|]. split; [apply logged_refl | done].
  - rewrite <- Eids. fold (target_total n).
    set (per_artist := Z.max 2 (target_total n / Z.max 1 (len ids))).
    assert (HC : ∀ aid, aid ∈ take 5 ids →
              top_tracks_lookup_of ids (CallArtistTopTracks aid DEFAULT_MARKET)) by done.
    destruct (top_tracks_loop_spec sp (top_tracks_lookup_of ids) (take 5 ids)
                per_artist p w HC) as (p' & w' & E & Hpre & Hlen & Hok & Hlog & Hk).
    exists p', w'. split; [exact E|]. split; [done|]. split; [|split; [done|split; [|done]]].
    + replace (Z.max 0 per_artist) with per_artist in Hlen by (unfold per_artist; lia).
      exact Hlen.
    + eapply logged_weaken; [| |exact Hlog]; [done|]. rewrite length_take. lia.
Qed.

(** X9: the artist quota never raises.  It only appends to the bag: what it
    adds is at most [max(10, target_total)] tracks, where [target_total] is
    [max(8, min(3n // 5, 28))], hence never more than 28; a pool without
    duplicates stays so.  It asks for the top tracks of at most the first
    five artists, on the default market, and leaves the caches alone. *)
Theorem artist_quota_bounded sp ids n p w :
  ∃ p' w', artist_quota sp ids n p w = (Ret p', w')
           ∧ p.1 `prefix_of` p'.1
           ∧ (len p'.1 - len p.1 <= Z.max 10 (target_total n))%Z
           ∧ (len p'.1 - len p.1 <= 28)%Z
           ∧ (pool_ok p → pool_ok p')
           ∧ logged (top_tracks_lookup_of ids) 5 w w' ∧ caches_kept w w'.
Proof.
  destruct (artist_quota_run sp ids n p w) as (p' & w' & E & Hpre & Hlen & Hok & Hlog & Hk).
  exists p', w'. split; [exact E|]. split; [done|].
  assert (Hbound : (Z.of_nat (length (take 5 ids))
                    * Z.max 2 (target_total n / Z.max 1 (len ids))
                    <= Z.max 10 (target_total n))%Z).
  { rewrite length_take. unfold len.
    set (k := length ids). set (T := target_total n).
    assert (HT : (8 <= T <= 28)%Z) by (unfold T, target_total; lia).
    destruct (decide (k = 0)) as [->|Hk0]; [simpl; lia|].
    replace (Z.max 1 (Z.of_nat k)) with (Z.of_nat k) by lia.
    pose proof (Z.mul_div_le T (Z.of_nat k) ltac:(lia)) as Hdiv.
    pose proof (Z.div_pos T (Z.of_nat k) ltac:(lia) ltac:(lia)) as Hq.
    set (q := (T / Z.of_nat k)%Z) in *.
    destruct (Z.max_spec 2 q) as [[_ ->]|[_ ->]]; nia. }
  assert (HT : (target_total n <= 28)%Z) by (unfold target_total; lia).
  split; [lia|]. split; [lia|]. done.
Qed.

(** ** The recommender: outcomes *)

Lemma raises_only_ret {A} E (a : A) : raises_only E (ret a).
Proof. intros w e H. discriminate H. Qed.

Lemma raises_only_raise {A} (E : exn → Prop) e : E e → raises_only E (raise e : M A).
Proof. intros He w e' H. by injection H as <-. Qed.

Lemma raises_only_bind {A B} E (m : M A) (k : A → M B) :
  raises_only E m → (∀ a, raises_only E (k a)) → raises_only E (bind m k).
Proof.
  intros Hm Hk w e. unfold bind. specialize (Hm w).
  destruct (m w) as [[a|e'] w']; simpl in *; [apply Hk | intros [= <-]; by apply Hm].
Qed.

Lemma raises_only_attempt {A} E (m : M A) : raises_only E (attempt m).
Proof. intros w e. unfold attempt. by destruct (m w) as [[a|e'] w']. Qed.

Lemma _audio_feature_filter_raises sp uris ps :
  raises_only (λ e, e = IndexError) (_audio_feature_filter sp uris ps).
Proof.
  intros w e. destruct uris as [|u us]; [discriminate|].
  rewrite _audio_feature_filter_run. cbn [fst].
  destruct (returned _) as [[[|f fs]|]|]; try discriminate.
  set (mask := meta_loop 0 _ _).
  generalize (features_loop_spec (f :: fs) (vocals_needed ps)
                (tempo_window (tempo_bpm ps)) 0 mask (Nat.le_0_l _)).
  destruct (decide _) as [Hfit|Hlong].
  - intros (mask' & -> & _). discriminate.
  - intros ->. by intros [= <-].
Qed.

Lemma backfill_and_filter_raises sp ps n candidates p :
  raises_only (λ e, e = IndexError) (backfill_and_filter sp ps n candidates p).
Proof.
  unfold backfill_and_filter, stage0, stage1.
  apply raises_only_bind; [apply raises_only_attempt|]. intros res.
  apply raises_only_bind; [apply _audio_feature_filter_raises|]. intros f0.
  apply raises_only_bind.
  - destruct (_ <? _)%Z; [apply _audio_feature_filter_raises | apply raises_only_ret].
  - intros f1. apply raises_only_ret.
Qed.

Lemma pool_ok_empty : pool_ok ([], ∅).
Proof. split; [constructor | intros u Hu; inversion Hu]. Qed.

(** [recommend_tracks] always gets to the test [len(bag) < n]; from there it
    is the backfill block or the unbound [filtered]. *)
Lemma recommend_tracks_run sp ps n rnd w :
  ∃ req p w3,
    pool_ok p
    ∧ gathered sp ps n rnd w = Some (len p.1)
    ∧ recommend_tracks sp ps n rnd w
      = if (len p.1 <? n)%Z
        then bind (backfill_and_filter sp ps n (req_candidates req) p)
               (λ f, ret (slice_to n (shuffle rnd f))) w3
        else (Raise UnboundLocalError, w3).
Proof.
  destruct (returns_build_request sp ps n rnd w) as (req & w1 & E1 & _).
  destruct (request_chain_pool sp (req_kwargs req) (req_seeds_artists req)
              (req_seeds_genres req) (req_seed_genres req) ([], ∅) w1 pool_ok_empty)
    as (p1 & E2 & Hp1 & _).
  destruct (request_chain sp _ _ _ _ _ w1) as [o2 w2] eqn:E2'. simpl in E2. subst o2.
  destruct (artist_quota_run sp (user_artist_ids ps) n p1 w2)
    as (p2 & w3 & E3 & _ & _ & Hok & _).
  exists req, p2, w3. split; [by apply Hok|]. split.
  - unfold gathered. by rewrite E1, E2', E3.
  - unfold recommend_tracks.
    rewrite (bind_run _ _ _ _ _ E1), (bind_run _ _ _ _ _ E2'), (bind_run _ _ _ _ _ E3).
    destruct (len p2.1 <? n)%Z; [|reflexivity].
    unfold bind. by destruct (backfill_and_filter sp ps n (req_candidates req) p2 w3)
      as [[f|e] w4].
Qed.

(** X10: the outcomes of [recommend_tracks].  It always gets to the test
    [len(bag) < n], with some [k] tracks gathered.  It returns only when
    [k < n], and then at most [n] identifiers, none twice.  It raises
    [UnboundLocalError] exactly when [n <= k] (so always for [n <= 0]); the
    only other exception is the filter's [IndexError]. *)
Theorem recommend_tracks_outcomes sp ps n rnd w :
  (∀ l, shuffle rnd l ≡ₚ l) →
  ∃ k, gathered sp ps n rnd w = Some k ∧ (0 <= k)%Z
       ∧ match (recommend_tracks sp ps n rnd w).1 with
         | Ret l => (k < n)%Z ∧ NoDup l ∧ (len l <= n)%Z
         | Raise e => (e = UnboundLocalError ∧ (n <= k)%Z)
                      ∨ (e = IndexError ∧ (k < n)%Z)
         end.
Proof.
  intros Hsh.
  destruct (recommend_tracks_run sp ps n rnd w) as (req & p & w3 & Hp & Hg & Hrun).
  exists (len p.1). split; [exact Hg|]. split; [apply len_nonneg|].
  pose proof (recommend_tracks_returns_distinct sp ps n rnd w) as Hret.
  destruct (Z.ltb_spec (len p.1) n) as [Hlt|Hge].
  - destruct (recommend_tracks sp ps n rnd w) as [[l|e] wf] eqn:Er; cbn [fst].
    + destruct (Hret l Hsh eq_refl) as [Hnd Hlen]. done.
    + right. split; [|done].
      pose proof (raises_only_bind (λ e, e = IndexError) _ _
                    (backfill_and_filter_raises sp ps n (req_candidates req) p)
                    (λ f, raises_only_ret _ (slice_to n (shuffle rnd f))) w3 e) as Hraise.
      apply Hraise. by rewrite <- Hrun.
  - rewrite Hrun. cbn [fst]. left. done.
Qed.

Lemma recommend_tracks_outcomes_witness :
  ∃ k, gathered Scenario.generous Scenario.default_params 20 (Scenario.draws (1 # 2) 0)
         Scenario.fresh = Some k
       ∧ (0 <= k)%Z
       ∧ match (recommend_tracks Scenario.generous Scenario.default_params 20
                  (Scenario.draws (1 # 2) 0) Scenario.fresh).1 with
         | Ret l => (k < 20)%Z ∧ NoDup l ∧ (len l <= 20)%Z
         | Raise e => (e = UnboundLocalError ∧ (20 <= k)%Z)
                      ∨ (e = IndexError ∧ (k < 20)%Z)
         end.
Proof.
  apply (recommend_tracks_outcomes Scenario.generous Scenario.default_params 20
           (Scenario.draws (1 # 2) 0) Scenario.fresh).
  intros l. reflexivity.
Defined.

(** ** The recommender: shape of the requests *)

Lemma yields_ret {A} (Q : A → Prop) a : Q a → yields Q (ret a).
Proof. intros H w a' E. by injection E as <-. Qed.

Lemma yields_bind_any {A B} (R : B → Prop) (m : M A) (k : A → M B) :
  (∀ a, yields R (k a)) → yields R (bind m k).
Proof.
  intros Hk w b. unfold bind.
  destruct (m w) as [[a|e] w']; [apply Hk | discriminate].
Qed.

Lemma sound_strengthen {A} P (Q Q' : A → Prop) (m : M A) :
  sound P Q m → yields Q' m → sound P (λ a, Q a ∧ Q' a) m.
Proof.
  intros Hs Hy w. destruct (Hs w) as [Hf Hq]. split; [exact Hf|].
  intros a E. split; [by apply Hq | by apply (Hy w)].
Qed.

Lemma clamp01_unit x : (0 <= clamp01 x <= 1)%Q.
Proof.
  unfold clamp01.
  destruct (Q.min_spec 1 x) as [[H E]|[H E]]; rewrite E;
    destruct (Q.max_spec 0 1) as [[H' E']|[H' E']];
    destruct (Q.max_spec 0 x) as [[H2 E2]|[H2 E2]]; rewrite ?E', ?E2; split; lra.
Qed.

Lemma mid_unit pair : (0 <= mid pair <= 1)%Q.
Proof. apply clamp01_unit. Qed.

Lemma _j_unit center u :
  (0 <= center <= 1)%Q → (0 <= u <= 1)%Q → unit_target (_j (Some center) (12 # 100) u).
Proof.
  intros Hc Hu. cbn [_j unit_target].
  assert (Hs : (0 <= 12 # 100)%Q) by (vm_compute; discriminate).
  destruct (jitter_bounds center (12 # 100) Hc Hs) as (H1 & H2 & H3 & H4).
  apply round2_unit.
  assert (Hlohi : (Qmax 0 (center - (12 # 100)) <= Qmin 1 (center + (12 # 100)))%Q)
    by lra.
  pose proof (uniform_between _ _ u Hlohi Hu) as [Ha Hb].
  split; lra.
Qed.

Lemma build_request_shape sp ps n rnd :
  draws_in_unit rnd →
  yields (λ req, request_shape n (req_kwargs req)) (build_request sp ps n rnd).
Proof.
  intros (He & Hv & Hd & Ha). unfold build_request.
  apply yields_bind_any; intros candidates. cbv beta zeta.
  apply yields_bind_any; intros sg1.
  apply yields_bind_any; intros sg.
  apply yields_bind_any; intros kw_seeds.
  apply yields_ret. cbn [req_kwargs].
  assert (Hshape : ∀ sa sgs st,
            request_shape n
              {| kw_limit := Z.min 50 (Z.max 10 n);
                 kw_market := Some DEFAULT_MARKET;
                 kw_target_energy := _j (Some (mid (energy_range ps))) (12 # 100) (u_energy rnd);
                 kw_target_valence := _j (Some (mid (valence_range ps))) (12 # 100) (u_valence rnd);
                 kw_target_danceability :=
                   _j (Some (mid (danceability_range ps))) (12 # 100) (u_danceability rnd);
                 kw_target_acousticness :=
                   _j (Some (mid (acousticness_range ps))) (12 # 100) (u_acousticness rnd);
                 kw_target_tempo :=
                   Some (Z.max 40 (Z.min 220 (default 100 (tempo_bpm ps))) + tempo_delta rnd)%Z;
                 kw_seed_artists := sa; kw_seed_genres := sgs; kw_seed_tracks := st |}).
  { intros sa sgs st. unfold request_shape. cbn.
    split; [done|]. split; [done|].
    split; [|split; [|split]]; apply _j_unit; try done; apply mid_unit. }
  destruct (truthy kw_seeds && _ && _); [destruct (0 <? _)%Z|]; apply Hshape.
Qed.

(** X11: every recommendation request [recommend_tracks] sends asks for
    [min(50, max(10, n))] tracks, between 10 and 50, on the default market,
    and each target it carries lies in [[0, 1]], as long as the draws of
    [random()] do. *)
Theorem requests_well_formed sp ps n rnd w :
  draws_in_unit rnd →
  ∃ l, calls (recommend_tracks sp ps n rnd w).2 = l ++ calls w
       ∧ Forall (on_recommendations (request_shape n)) l
       ∧ (10 <= Z.min 50 (Z.max 10 n) <= 50)%Z.
Proof.
  intros Hrnd.
  assert (Hs : sound (request_shape n) (λ _, True) (recommend_tracks sp ps n rnd)).
  { unfold recommend_tracks.
    eapply sound_bind.
    { apply sound_strengthen; [apply sound_build_request | by apply build_request_shape]. }
    intros req [_ Hshape].
    assert (Hbare : ∀ sa sgs,
              request_shape n
                {| kw_limit := kw_limit (req_kwargs req); kw_market := Some DEFAULT_MARKET;
                   kw_target_energy := None; kw_target_valence := None;
                   kw_target_danceability := None; kw_target_acousticness := None;
                   kw_target_tempo := None;
                   kw_seed_artists := sa; kw_seed_genres := sgs;
                   kw_seed_tracks := None |}).
    { intros sa sgs. destruct Hshape as (Hl & _). unfold request_shape. cbn.
      by rewrite Hl. }
    eapply sound_bind.
    { apply sound_request_chain; [exact Hshape | apply Hbare | intros _; apply Hbare]. }
    intros p _.
    eapply sound_bind; [apply sound_artist_quota|]. intros p' _.
    eapply sound_bind with (Q := λ _, True).
    { destruct (_ <? _)%Z; [|by apply sound_ret].
      eapply sound_bind; [apply sound_backfill_and_filter|]. intros f _.
      by apply sound_ret. }
    intros [f|] _; [by apply sound_ret | apply sound_raise]. }
  destruct (Hs w) as [[(l & E & Hl) _] _]. exists l. split; [done|]. split; [done | lia].
Qed.

Lemma requests_well_formed_witness :
  ∃ l, calls (recommend_tracks Scenario.flaky Scenario.default_params 15
                (Scenario.draws (1 # 2) 0) Scenario.fresh).2
       = l ++ calls Scenario.fresh
       ∧ Forall (on_recommendations (request_shape 15)) l
       ∧ (10 <= Z.min 50 (Z.max 10 15) <= 50)%Z.
Proof.
  apply (requests_well_formed Scenario.flaky Scenario.default_params 15
           (Scenario.draws (1 # 2) 0) Scenario.fresh).
  repeat split; vm_compute; discriminate.
Defined.

(** ** Genre hero resolver: what is returned *)

Lemma yields_raise {A} (Q : A → Prop) e : yields Q (raise e).
Proof. intros w a E. discriminate E. Qed.

Lemma yields_bind {A B} (Q : A → Prop) (R : B → Prop) (m : M A) (k : A → M B) :
  yields Q m → (∀ a, Q a → yields R (k a)) → yields R (bind m k).
Proof.
  intros Hm Hk w b. unfold bind. specialize (Hm w).
  destruct (m w) as [[a|e] w']; [|discriminate]. apply Hk. by apply Hm.
Qed.

Lemma yields_attempt {A} (Q : A → Prop) (m : M A) :
  yields Q m → yields (λ o, ∀ a, o = Some a → Q a) (attempt m).
Proof.
  intros Hm w o. unfold attempt. specialize (Hm w).
  destruct (m w) as [[a|e] w']; intros [= <-] a' [=]. subst a'. by apply Hm.
Qed.

Lemma yields_lift {A} (o : outcome A) : yields (λ a, o = Ret a) (lift o).
Proof. intros w a E. exact E. Qed.

Lemma first_with_image_pictured items a :
  first_with_image items = Ret (Some a) → pictured a.
Proof.
  induction items as [|a0 items IH]; cbn [first_with_image]; [discriminate|].
  destruct (_first_image_url a0) as [u|e] eqn:E; [|discriminate].
  destruct (url_truthy u) eqn:Eu; [|exact IH].
  intros [= <-]. destruct u as [s|]; [|discriminate]. by exists s.
Qed.

Lemma hero_from_tracks_pictured sp ts :
  yields (λ r, ∀ a, r = Some a → pictured a) (hero_from_tracks sp ts).
Proof.
  induction ts as [|t ts IH]; cbn [hero_from_tracks].
  - apply yields_ret. intros a [=].
  - destruct (track_artists t) as [|[aid|] rest]; [exact IH | | apply yields_raise].
    apply yields_bind_any; intros [a'|]; [|exact IH].
    destruct (artist_truthy a'); [|exact IH].
    eapply yields_bind; [apply yields_lift|]. intros u Hu. cbv beta.
    destruct (url_truthy u) eqn:Eu; [|exact IH].
    apply yields_ret. intros a [= <-]. destruct u as [s|]; [|discriminate]. by exists s.
Qed.

Lemma _search_artist_by_genre_pictured sp genre :
  yields (λ r, ∀ a, r = Some a → pictured a) (_search_artist_by_genre sp genre).
Proof.
  unfold _search_artist_by_genre. cbv zeta.
  eapply (yields_bind (λ o, ∀ r, o = Some r → ∀ a, r = Some a → pictured a)).
  { apply (yields_attempt (λ r, ∀ a, r = Some a → pictured a)).
    apply yields_bind_any; intros items w r E a ->.
    apply (first_with_image_pictured items). exact E. }
  intros direct Hd.
  assert (Hrecs : yields (λ r, ∀ a, r = Some a → pictured a)
            (let* via_recs :=
               attempt (let* recs := external (CallRecommendations (hero_payload genre))
                                       (λ t, sp_recommendations sp t (hero_payload genre)) in
                        hero_from_tracks sp recs) in
             match via_recs with
             | Some (Some a) => ret (Some a)
             | _ => ret None
             end)).
  { eapply (yields_bind (λ o, ∀ r, o = Some r → ∀ a, r = Some a → pictured a)).
    { apply (yields_attempt (λ r, ∀ a, r = Some a → pictured a)).
      apply yields_bind_any; intros recs. apply hero_from_tracks_pictured. }
    intros via Hv.
    destruct via as [[a|]|]; apply yields_ret; [|intros a' [=]|intros a' [=]].
    intros a' [= <-]. by apply (Hv (Some a) eq_refl). }
  destruct direct as [[a|]|]; [|exact Hrecs|exact Hrecs].
  apply yields_ret. intros a' [= <-]. by apply (Hd (Some a) eq_refl).
Qed.

Lemma returns_search_artist_by_genre sp genre :
  returns (λ _, True) (_search_artist_by_genre sp genre).
Proof.
  unfold _search_artist_by_genre. cbv zeta.
  eapply returns_bind; [apply returns_attempt|]. intros direct _.
  assert (Hrecs : ∀ m : M (option artist),
            returns (λ _, True)
              (let* via_recs := attempt m in
               match via_recs with
               | Some (Some a) => ret (Some a)
               | _ => ret None
               end)).
  { intros m. eapply returns_bind; [apply returns_attempt|].
    intros [[a|]|] _; by apply returns_ret. }
  destruct direct as [[a|]|]; [by apply returns_ret | apply Hrecs | apply Hrecs].
Qed.

Lemma search_artist_by_genre_first_call sp genre w :
  ∃ l, calls (_search_artist_by_genre sp genre w).2 = l ++ genre_search genre :: calls w.
Proof.
  unfold _search_artist_by_genre. cbv zeta.
  set (c := CallSearch _ _ _ _).
  set (k := λ direct : option (option artist), _).
  assert (Hk : ∀ d w0, ∃ l, calls (k d w0).2 = l ++ calls w0).
  { intros d w0.
    assert (Hs : sound (λ _, True) (λ _ : option artist, True) (k d)).
    { unfold k. destruct d as [[a|]|]; [by apply sound_ret | |].
      all: eapply sound_bind with (Q := λ _, True);
        [eapply sound_weaken; [|apply sound_attempt]; [done|];
         eapply sound_bind; [apply (sound_external (λ _, True)); exact I|]; intros recs _;
         apply sound_hero_from_tracks
        |intros [[a|]|] _; by apply sound_ret]. }
    destruct (Hs w0) as [[(l & E & _) _] _]. by exists l. }
  set (m := let* items := external c _ in lift (first_with_image items)).
  destruct (attempt_returns m w) as (d & E).
  rewrite (bind_run _ _ _ _ _ E).
  assert (Hm : (m w).2 = record_call c w).
  { unfold m, bind, external, lift. by destruct (sp_search_artists sp _ _ _). }
  rewrite Hm. destruct (Hk d (record_call c w)) as (l & ->). by exists l.
Qed.

(** X12: [_search_artist_by_genre] never raises.  An artist it returns has a
    first image with a non-empty URL.  Its first call is the artist search
    for [genre:"<genre>"] with limit 10; the only recommendation request it
    may make is the one seeded with the genre; the hero cache is not
    touched. *)
Theorem genre_search_returns_pictured sp genre w :
  ∃ r w', _search_artist_by_genre sp genre w = (Ret r, w')
          ∧ (∀ a, r = Some a → pictured a)
          ∧ (∃ l, calls w' = l ++ genre_search genre :: calls w)
          ∧ (∃ l, calls w' = l ++ calls w
                  ∧ Forall (on_recommendations (λ p, p = hero_payload genre)) l)
          ∧ _GENRE_HERO_CACHE w' = _GENRE_HERO_CACHE w.
Proof.
  destruct (returns_search_artist_by_genre sp genre w) as (r & w' & E & _).
  pose proof (_search_artist_by_genre_pictured sp genre w r) as Hpic.
  pose proof (search_artist_by_genre_first_call sp genre w) as Hfirst.
  destruct (sound_search_artist_by_genre sp (λ p, p = hero_payload genre) genre eq_refl w)
    as [[Hlog Hcache] _].
  rewrite E in Hpic, Hfirst, Hlog, Hcache. cbn [fst snd] in *.
  exists r, w'. split; [done|]. split; [by apply Hpic|]. done.
Qed.

(** ** Genre hero resolver: outcomes *)

Lemma _first_image_url_raises a e : _first_image_url a = Raise e → e = KeyError.
Proof.
  unfold _first_image_url. destruct (default [] (artist_images a)) as [|[|u] rest]; congruence.
Qed.

Lemma hero_of_raises a e : hero_of a = Raise e → e = KeyError.
Proof.
  unfold hero_of. destruct (artist_id a); [|congruence].
  destruct (artist_name a); [|congruence].
  destruct (_first_image_url a) as [img|e'] eqn:E.
  - destruct (artist_url a); congruence.
  - intros [= <-]. by eapply _first_image_url_raises.
Qed.

Lemma hero_of_image a d : hero_of a = Ret d → _first_image_url a = Ret (hero_image d).
Proof.
  unfold hero_of. destruct (artist_id a); [|discriminate].
  destruct (artist_name a); [|discriminate].
  destruct (_first_image_url a) as [img|e']; [|discriminate].
  destruct (artist_url a); [|discriminate]. by intros [= <-].
Qed.

Lemma memoize_outcome g a w :
  match (memoize g a w).1 with
  | Raise e => e = KeyError
  | Ret (Some d) => ∃ a', a = Some a' ∧ hero_of a' = Ret d
  | Ret None => True
  end.
Proof.
  unfold memoize. destruct a as [a'|]; [|done].
  destruct (artist_truthy a'); [|done].
  unfold bind, lift. destruct (hero_of a') as [d|e] eqn:E; cbn.
  - by exists a'.
  - by eapply hero_of_raises.
Qed.

Lemma memoize_none g a w : (memoize g a w).1 = Ret None → (memoize g a w).2 = w.
Proof.
  unfold memoize. destruct a as [a'|]; [|done].
  destruct (artist_truthy a'); [|done].
  unfold bind, lift. by destruct (hero_of a').
Qed.

(** The dynamic path: the genre search, then the memo. *)
Lemma dynamic_outcome sp g w :
  match (bind (_search_artist_by_genre sp g) (memoize g) w).1 with
  | Raise e => e = KeyError
  | Ret (Some d) =>
      ∃ a w', _search_artist_by_genre sp g w = (Ret (Some a), w')
              ∧ hero_of a = Ret d ∧ pictured a ∧ url_truthy (hero_image d) = true
  | Ret None => True
  end.
Proof.
  destruct (returns_search_artist_by_genre sp g w) as (r & w' & E & _).
  pose proof (_search_artist_by_genre_pictured sp g w r) as Hpic.
  rewrite E in Hpic. rewrite (bind_run _ _ _ _ _ E).
  pose proof (memoize_outcome g r w') as Hm.
  destruct (memoize g r w') as [[[d|]|e] w2]; cbn [fst] in *; [|done|done].
  destruct Hm as (a & -> & Hd). exists a, w'.
  destruct (Hpic eq_refl a eq_refl) as (u & Hu & Hne).
  split; [done|]. split; [done|]. split; [by exists u|].
  apply hero_of_image in Hd. rewrite Hu in Hd. injection Hd as <-. exact Hne.
Qed.

(** X13: the only exception [get_genre_hero] lets out is [KeyError].  A hero it
    returns is the cached one; or the one built from the canonical artist
    of the genre as the service answered; or one built from the artist that
    the genre search, run for the genre key after the canonical attempt,
    returned: that artist's first image URL is non-empty and is the hero's
    image. *)
Theorem genre_hero_outcomes sp genre w :
  let g := genre_key genre in
  let after_canon := match _CANON !! g with
                     | Some canon_id => record_call (CallArtist canon_id) w
                     | None => w
                     end in
  match (get_genre_hero sp genre w).1 with
  | Raise e => e = KeyError
  | Ret (Some d) =>
      _GENRE_HERO_CACHE w !! g = Some d
      ∨ (∃ canon_id a, _CANON !! g = Some canon_id
                       ∧ sp_artist sp (clock w) canon_id = Ret a
                       ∧ artist_truthy a = true
                       ∧ hero_of a = Ret d)
      ∨ (∃ a w', _search_artist_by_genre sp g after_canon = (Ret (Some a), w')
                 ∧ hero_of a = Ret d ∧ pictured a ∧ url_truthy (hero_image d) = true)
  | Ret None => True
  end.
Proof.
  intros g after_canon. rewrite get_genre_hero_cases. fold g.
  destruct (Text.nonempty g); [|done].
  destruct (_GENRE_HERO_CACHE w !! g) as [d0|] eqn:Ec; [by left|].
  unfold resolve_miss.
  assert (Hdyn :
            match (bind (_search_artist_by_genre sp g) (memoize g) after_canon).1 with
            | Raise e => e = KeyError
            | Ret (Some d) =>
                None = Some d
                ∨ (∃ canon_id a, _CANON !! g = Some canon_id
                                 ∧ sp_artist sp (clock w) canon_id = Ret a
                                 ∧ artist_truthy a = true
                                 ∧ hero_of a = Ret d)
                ∨ (∃ a w', _search_artist_by_genre sp g after_canon = (Ret (Some a), w')
                           ∧ hero_of a = Ret d ∧ pictured a
                           ∧ url_truthy (hero_image d) = true)
            | Ret None => True
            end).
  { pose proof (dynamic_outcome sp g after_canon) as H.
    destruct (bind _ _ after_canon) as [[[d|]|e] w1]; cbn [fst] in *; auto. }
  unfold after_canon in *. clear after_canon.
  destruct (_CANON !! g) as [canon_id|] eqn:Eg.
  - unfold bind at 1. unfold _safe_artist. rewrite bind_attempt_external.
    pose proof (memoize_outcome g (returned (sp_artist sp (clock w) canon_id))
                  (record_call (CallArtist canon_id) w)) as Hm.
    pose proof (memoize_none g (returned (sp_artist sp (clock w) canon_id))
                  (record_call (CallArtist canon_id) w)) as Hw.
    destruct (memoize g _ _) as [[[d|]|e] w1] eqn:Em; cbn [fst snd] in *.
    + destruct Hm as (a & Ha & Hd). right. left. exists canon_id, a.
      destruct (sp_artist sp (clock w) canon_id) as [a0|]; [|discriminate].
      injection Ha as ->. split; [done|]. split; [done|]. split; [|done].
      unfold memoize in Em. cbn [returned] in Em.
      by destruct (artist_truthy a).
    + rewrite (Hw eq_refl). exact Hdyn.
    + exact Hm.
  - rewrite bind_ret_l. exact Hdyn.
Qed.

(** ** OAuth settings *)

Lemma _get_env_spec environ primary alt :
  Text.nonempty alt = true →
  match Auth._get_env environ primary (Some alt) with
  | Auth.Ok v =>
      Auth.configured environ primary alt
      ∧ v = Auth.setting environ primary alt ∧ Text.nonempty v = true
  | Auth.Err e =>
      ¬ Auth.configured environ primary alt
      ∧ e = Auth.RuntimeError (Auth.missing_env primary (Some alt))
  end.
Proof.
  intros Halt. unfold Auth._get_env. cbv zeta.
  assert (Hval : Auth.env_value environ primary (Some alt)
                 = if Auth.str_truthy (environ !! primary) then environ !! primary
                   else environ !! alt).
  { unfold Auth.env_value. cbn [Auth.str_truthy default]. by rewrite Halt. }
  rewrite Hval. unfold Auth.configured, Auth.setting.
  destruct (Auth.str_truthy (environ !! primary)) eqn:Ep.
  - rewrite Ep. split; [by left|]. split; [done|].
    destruct (environ !! primary); [exact Ep | discriminate].
  - destruct (Auth.str_truthy (environ !! alt)) eqn:Ea.
    + split; [by right|]. split; [done|].
      destruct (environ !! alt); [exact Ea | discriminate].
    + split; [|done]. intros [H|H]; discriminate.
Qed.

(** X14: [oauth] succeeds exactly when each of the three settings is available
    under its SPOTIFY_ or its SPOTIPY_ name.  It then carries the state it
    was given and the fixed scopes, each credential is the SPOTIFY_ value
    when that is set and non-empty and the SPOTIPY_ value otherwise, and no
    credential is empty.  Otherwise it raises the [RuntimeError] that names
    a setting which is not available. *)
Theorem oauth_settings environ state :
  let id := Auth.configured environ "SPOTIFY_CLIENT_ID" "SPOTIPY_CLIENT_ID" in
  let secret := Auth.configured environ "SPOTIFY_CLIENT_SECRET" "SPOTIPY_CLIENT_SECRET" in
  let uri := Auth.configured environ "SPOTIFY_REDIRECT_URI" "SPOTIPY_REDIRECT_URI" in
  match Auth.oauth environ state with
  | Auth.Ok cfg =>
      (id ∧ secret ∧ uri)
      ∧ cfg = {| Auth.client_id :=
                   Auth.setting environ "SPOTIFY_CLIENT_ID" "SPOTIPY_CLIENT_ID";
                 Auth.client_secret :=
                   Auth.setting environ "SPOTIFY_CLIENT_SECRET" "SPOTIPY_CLIENT_SECRET";
                 Auth.redirect_uri :=
                   Auth.setting environ "SPOTIFY_REDIRECT_URI" "SPOTIPY_REDIRECT_URI";
                 Auth.scope := Auth.SCOPES; Auth.show_dialog := true;
                 Auth.state := state |}
      ∧ Text.nonempty (Auth.client_id cfg) = true
      ∧ Text.nonempty (Auth.client_secret cfg) = true
      ∧ Text.nonempty (Auth.redirect_uri cfg) = true
  | Auth.Err e =>
      ¬ (id ∧ secret ∧ uri)
      ∧ ∃ primary alt, ¬ Auth.configured environ primary alt
                       ∧ e = Auth.RuntimeError (Auth.missing_env primary (Some alt))
  end.
Proof.
  intros id secret uri. unfold Auth.oauth.
  pose proof (_get_env_spec environ "SPOTIFY_CLIENT_ID" "SPOTIPY_CLIENT_ID" eq_refl) as H1.
  pose proof (_get_env_spec environ "SPOTIFY_CLIENT_SECRET" "SPOTIPY_CLIENT_SECRET" eq_refl)
    as H2.
  pose proof (_get_env_spec environ "SPOTIFY_REDIRECT_URI" "SPOTIPY_REDIRECT_URI" eq_refl)
    as H3.
  destruct (Auth._get_env environ "SPOTIFY_CLIENT_ID" _) as [v1|e1].
  - destruct H1 as (C1 & -> & N1).
    destruct (Auth._get_env environ "SPOTIFY_CLIENT_SECRET" _) as [v2|e2].
    + destruct H2 as (C2 & -> & N2).
      destruct (Auth._get_env environ "SPOTIFY_REDIRECT_URI" _) as [v3|e3].
      * destruct H3 as (C3 & -> & N3). done.
      * destruct H3 as (C3 & ->). split; [by intros (_ & _ & ?)|]. eauto.
    + destruct H2 as (C2 & ->). split; [by intros (_ & ? & _)|]. eauto.
  - destruct H1 as (C1 & ->). split; [by intros (? & _ & _)|]. eauto.
Qed.

(** ** Token store *)

Lemma oauth_any_state environ state state' :
  match Auth.oauth environ state with
  | Auth.Ok _ => ∃ cfg, Auth.oauth environ state' = Auth.Ok cfg
  | Auth.Err e => Auth.oauth environ state' = Auth.Err e
  end.
Proof.
  unfold Auth.oauth.
  destruct (Auth._get_env environ "SPOTIFY_CLIENT_ID" _); [|done].
  destruct (Auth._get_env environ "SPOTIFY_CLIENT_SECRET" _); [|done].
  destruct (Auth._get_env environ "SPOTIFY_REDIRECT_URI" _); [|done].
  by eexists.
Qed.

(** X15: exchange, then use.  Once [exchange_code_for_token] has returned for a
    user, the store is the old one with, under that user, the very token
    the service gave for the code, and that token has an access token.  If
    the service then reports this token as not expired, [get_spotify]
    returns a client authorized with its access token and leaves the store
    as it is. *)
Theorem exchange_then_get environ svc state code username TOKENS TOKENS' :
  Auth.exchange_code_for_token environ svc state code username TOKENS
  = (Auth.Ok tt, TOKENS') →
  ∃ cfg t a,
    Auth.oauth environ state = Auth.Ok cfg
    ∧ Auth.get_access_token svc cfg code = Auth.Ok (Some t)
    ∧ TOKENS' = <[username := t]> TOKENS
    ∧ t !! "access_token" = Some a
    ∧ ((∀ cfg', Auth.is_token_expired svc cfg' t = Auth.Ok false) →
       Auth.get_spotify environ svc username TOKENS'
       = (Auth.Ok {| Auth.auth := a |}, TOKENS')).
Proof.
  intros Hex. unfold Auth.exchange_code_for_token in Hex.
  pose proof (oauth_any_state environ state "refresh") as Hoauth.
  destruct (Auth.oauth environ state) as [cfg|e] eqn:Ecfg; [|discriminate].
  destruct Hoauth as (cfg' & Hcfg').
  destruct (Auth.get_access_token svc cfg code) as [[t|]|e] eqn:Et;
    [|discriminate|discriminate].
  destruct (bool_decide (t ≠ ∅)) eqn:Hne; [|discriminate].
  destruct (bool_decide (is_Some (t !! "access_token"))) eqn:Hat; [|discriminate].
  cbn [andb] in Hex. injection Hex as <-.
  apply bool_decide_eq_true in Hne, Hat. destruct Hat as [a Ha].
  exists cfg, t, a. split; [done|]. split; [done|]. split; [done|]. split; [done|].
  intros Hfresh.
  unfold Auth.get_spotify. rewrite lookup_insert_eq.
  rewrite bool_decide_false by done. rewrite Hcfg', Hfresh, Ha. done.
Qed.

Lemma exchange_then_get_witness :
  <["benijah" := Auth.example_token]> Auth.no_tokens !! "benijah" = Some Auth.example_token
  ∧ Auth.get_spotify Auth.example_env Auth.example_accounts "benijah"
      (<["benijah" := Auth.example_token]> Auth.no_tokens)
    = (Auth.Ok {| Auth.auth := "BQDf3" |},
       <["benijah" := Auth.example_token]> Auth.no_tokens).
Proof.
  destruct (exchange_then_get Auth.example_env Auth.example_accounts "benijah" "AQBx7"
              "benijah" Auth.no_tokens
              (<["benijah" := Auth.example_token]> Auth.no_tokens) eq_refl)
    as (cfg & t & a & _ & Ht & _ & Ha & Hget).
  injection Ht as <-.
  change (Auth.example_token !! "access_token") with (Some "BQDf3") in Ha.
  injection Ha as <-.
  split; [reflexivity|]. apply Hget. intros cfg'. reflexivity.
Defined.

(** X16: [get_spotify] and the store.  Entries of other users are never
    touched.  A client that is returned is authorized with the access token
    the store holds for the user afterwards.  A user with no entry gets the
    "not connected" error, whatever the settings.  The store changes only by
    a refresh the service answered, and then holds that answer, also when
    the answer has no access token and the call ends in [KeyError]. *)
Theorem get_spotify_store environ svc username TOKENS :
  let r := Auth.get_spotify environ svc username TOKENS in
  (∀ u, u ≠ username → r.2 !! u = TOKENS !! u)
  ∧ (∀ c, r.1 = Auth.Ok c →
       ∃ t, r.2 !! username = Some t ∧ t !! "access_token" = Some (Auth.auth c))
  ∧ (TOKENS !! username = None → r = (Auth.Err Auth.not_connected, TOKENS))
  ∧ (r.2 = TOKENS
     ∨ ∃ cfg t refresh_token t',
         TOKENS !! username = Some t
         ∧ t !! "refresh_token" = Some refresh_token
         ∧ Auth.refresh_access_token svc cfg refresh_token = Auth.Ok t'
         ∧ r.2 = <[username := t']> TOKENS
         ∧ (t' !! "access_token" = None → r.1 = Auth.Err (Auth.KeyError "access_token"))).
Proof.
  intros r. subst r. unfold Auth.get_spotify.
  destruct (TOKENS !! username) as [t|] eqn:Et; [|cbn; split_and!; auto; done].
  case_bool_decide as Hempty; [cbn; split_and!; auto; done|].
  destruct (Auth.oauth environ "refresh") as [cfg|e]; [|cbn; split_and!; auto; done].
  destruct (Auth.is_token_expired svc cfg t) as [[|]|e]; [| |cbn; split_and!; auto; done].
  - destruct (t !! "refresh_token") as [rt|] eqn:Ert; [|cbn; split_and!; auto; done].
    destruct (Auth.refresh_access_token svc cfg rt) as [t'|e] eqn:Erf;
      [|cbn; split_and!; auto; done].
    cbv zeta.
    assert (Hother : ∀ u, u ≠ username → <[username := t']> TOKENS !! u = TOKENS !! u).
    { intros u Hu. by rewrite lookup_insert_ne. }
    destruct (t' !! "access_token") as [a|] eqn:Ea; cbn [fst snd].
    + split; [exact Hother|]. split.
      * intros c [= <-]. exists t'. by rewrite lookup_insert_eq.
      * split; [done|]. right. exists cfg, t, rt, t'. rewrite Ea. done.
    + split; [exact Hother|]. split; [done|]. split; [done|].
      right. exists cfg, t, rt, t'. rewrite Ea. done.
  - destruct (t !! "access_token") as [a|] eqn:Ea; cbn [fst snd].
    + split; [done|]. split; [|split; [done | by left]].
      intros c [= <-]. by exists t.
    + split; [done|]. split; [done|]. split; [done | by left].
Qed.

(** ** The OAuth callback *)

Lemma code_eq c n : (n < 256)%N → (Text.code c =? n)%N = true → c = ascii_of_N n.
Proof.
  intros Hn H. apply N.eqb_eq in H. unfold Text.code in H.
  rewrite <- H. by rewrite ascii_N_embedding.
Qed.

Lemma contains_dash_cons c s :
  Text.contains "-" (String c s) = (Text.code c =? 45)%N || Text.contains "-" s.
Proof.
  cbn [Text.contains String.prefix]. f_equal.
  destruct (Text.code c =? 45)%N eqn:E.
  - apply (code_eq c 45) in E; [|done]. subst c. by destruct s.
  - destruct (ascii_dec "-" c) as [<-|Hne]; [discriminate E | done].
Qed.

Lemma contains_dash_free s : Text.contains "-" s = false ↔ Routes.dash_free s.
Proof.
  unfold Routes.dash_free. induction s as [|c s IH]; [done|].
  rewrite contains_dash_cons. cbn [all_chars].
  rewrite orb_false_iff, andb_true_iff, negb_true_iff. by rewrite IH.
Qed.

Lemma before_dash_spec s :
  Routes.dash_free (Routes.before_dash s)
  ∧ ∃ rest, s = Routes.before_dash s +:+ rest
            ∧ (rest = "" ∨ ∃ rest', rest = String "-" rest').
Proof.
  unfold Routes.dash_free. induction s as [|c s (IH1 & rest & IH2 & IH3)];
    cbn [Routes.before_dash].
  - split; [done|]. exists "". split; [done | by left].
  - destruct (Text.code c =? 45)%N eqn:E.
    + split; [done|]. exists (String c s). split; [done|]. right. exists s.
      by rewrite (code_eq c 45 eq_refl E).
    + split; [cbn [all_chars]; by rewrite E, IH1|].
      exists rest. split; [|done].
      change (String c s = String c (Routes.before_dash s +:+ rest)). by rewrite <- IH2.
Qed.

(** X17: the user name the callback stores the token under is the part of the
    state before its first ["-"]: it has no ["-"], the state is that name,
    alone or followed by ["-"] and more, and it is the whole state exactly
    when the state has no ["-"].  The callback never raises: it redirects
    to [?connected=<name>] with a token holding an access token stored
    under that name, or to [?spotify_error=...] with the store as it was;
    no other entry of the store changes. *)
Theorem callback_stores_under_prefix environ svc quote_str code state TOKENS :
  let u := Routes.callback_username state in
  let r := Routes.spotify_callback environ svc quote_str code state TOKENS in
  Routes.dash_free u
  ∧ (∃ rest, state = u +:+ rest ∧ (rest = "" ∨ ∃ rest', rest = String "-" rest'))
  ∧ (u = state ↔ Routes.dash_free state)
  ∧ (∀ v, v ≠ u → r.2 !! v = TOKENS !! v)
  ∧ ((r.1 = Routes.Redirect (Routes.FRONTEND_BASE environ +:+ "?connected=" +:+ u)
      ∧ ∃ t a, r.2 = <[u := t]> TOKENS ∧ t !! "access_token" = Some a)
     ∨ (∃ e, r.1 = Routes.Redirect (Routes.FRONTEND_BASE environ
                                    +:+ "?spotify_error=" +:+ quote_str e)
             ∧ r.2 = TOKENS)).
Proof.
  intros u r.
  assert (Hu : Routes.dash_free u
               ∧ (∃ rest, state = u +:+ rest ∧ (rest = "" ∨ ∃ rest', rest = String "-" rest'))
               ∧ (u = state ↔ Routes.dash_free state)).
  { unfold u, Routes.callback_username.
    destruct (Text.contains "-" state) eqn:E.
    - destruct (before_dash_spec state) as (H1 & H2). split; [done|]. split; [done|].
      split.
      + intros Heq. rewrite Heq in H1. exact H1.
      + intros Hfree. apply contains_dash_free in Hfree. congruence.
    - apply contains_dash_free in E. split; [done|]. split; [|done].
      exists "". split; [by rewrite append_empty_r | by left]. }
  destruct Hu as (H1 & H2 & H3). split; [done|]. split; [done|]. split; [done|].
  subst r. unfold Routes.spotify_callback. cbv zeta. fold u.
  unfold Auth.exchange_code_for_token.
  destruct (Auth.oauth environ state) as [cfg|e]; [|cbn; split; [done | right; eauto]].
  destruct (Auth.get_access_token svc cfg code) as [[t|]|e];
    [|cbn; split; [done | right; eauto]|cbn; split; [done | right; eauto]].
  destruct (bool_decide (t ≠ ∅) && bool_decide (is_Some (t !! "access_token"))) eqn:Hok;
    [|cbn; split; [done | right; eauto]].
  apply andb_true_iff in Hok as [_ Hat]. apply bool_decide_eq_true in Hat as [a Ha].
  cbn [fst snd]. split.
  - intros v Hv. by rewrite lookup_insert_ne.
  - left. split; [done|]. by exists t, a.
Qed.

(** ** Steering of [playlist_create] *)

Lemma lstrip_all_chars ok s : all_chars ok s = true → all_chars ok (Text.lstrip s) = true.
Proof.
  induction s as [|c s IH]; [done|]. cbn [Text.lstrip]. intros H.
  destruct (Text.is_space c); [|done].
  apply IH. cbn [all_chars] in H. by apply andb_true_iff in H as [_ ?].
Qed.

Lemma rstrip_all_chars ok s : all_chars ok s = true → all_chars ok (Text.rstrip s) = true.
Proof.
  induction s as [|c s IH]; [done|]. cbn [Text.rstrip all_chars]. intros H.
  apply andb_true_iff in H as [Hc Hs]. specialize (IH Hs).
  destruct (Text.rstrip s) as [|d r].
  - destruct (Text.is_space c); [done|]. cbn [all_chars]. by rewrite Hc.
  - cbn [all_chars] in *. by rewrite Hc, IH.
Qed.

Lemma rstrip_idem s : Text.rstrip (Text.rstrip s) = Text.rstrip s.
Proof.
  induction s as [|c s IH]; [done|]. cbn [Text.rstrip].
  destruct (Text.rstrip s) as [|d r] eqn:E.
  - destruct (Text.is_space c) eqn:Ec; [done|]. cbn [Text.rstrip]. by rewrite Ec.
  - change (Text.rstrip (String c (String d r))) with
      (match Text.rstrip (String d r) with
       | EmptyString => if Text.is_space c then EmptyString else String c EmptyString
       | r' => String c r'
       end).
    by rewrite IH.
Qed.

Lemma rstrip_head c t :
  Text.is_space c = false → ∃ t', Text.rstrip (String c t) = String c t'.
Proof.
  intros Hc. cbn [Text.rstrip]. destruct (Text.rstrip t) as [|d r]; [|by eexists].
  rewrite Hc. by eexists.
Qed.

Lemma lstrip_head s :
  Text.lstrip s = "" ∨ ∃ c t, Text.lstrip s = String c t ∧ Text.is_space c = false.
Proof.
  induction s as [|c s IH]; [by left|]. cbn [Text.lstrip].
  destruct (Text.is_space c) eqn:Ec; [exact IH|]. right. by exists c, s.
Qed.

Lemma strip_idem s : Text.strip (Text.strip s) = Text.strip s.
Proof.
  unfold Text.strip. destruct (lstrip_head s) as [->|(c & t & -> & Hc)]; [done|].
  destruct (rstrip_head c t Hc) as (t' & E). rewrite E.
  cbn [Text.lstrip]. rewrite Hc. rewrite <- E. apply rstrip_idem.
Qed.

Lemma strip_all_chars ok s : all_chars ok s = true → all_chars ok (Text.strip s) = true.
Proof. intros H. by apply rstrip_all_chars, lstrip_all_chars. Qed.

Lemma split_commas_from_chars s cur :
  all_chars (λ c, negb (Text.code c =? 44)%N) cur = true →
  Forall (λ t, all_chars (λ c, negb (Text.code c =? 44)%N) t = true)
    (Routes.split_commas_from s cur).
Proof.
  revert cur. induction s as [|c s IH]; intros cur Hcur; cbn [Routes.split_commas_from].
  - by constructor.
  - destruct (Text.code c =? 44)%N eqn:Ec.
    + constructor; [done | by apply IH].
    + apply IH. rewrite all_chars_app, Hcur. cbn [all_chars]. by rewrite Ec.
Qed.

Lemma split_commas_from_app x rest cur :
  all_chars (λ c, negb (Text.code c =? 44)%N) x = true →
  Routes.split_commas_from (x +:+ rest) cur = Routes.split_commas_from rest (cur +:+ x).
Proof.
  revert cur. induction x as [|c x IH]; intros cur H.
  - by rewrite append_empty_r.
  - cbn [all_chars] in H. apply andb_true_iff in H as [Hc Hx].
    apply negb_true_iff in Hc.
    change (String c x +:+ rest) with (String c (x +:+ rest)).
    cbn [Routes.split_commas_from]. rewrite Hc, (IH _ Hx). by rewrite append_snoc_cons.
Qed.

Lemma split_commas_from_join x l cur :
  Forall (λ t, all_chars (λ c, negb (Text.code c =? 44)%N) t = true) (x :: l) →
  Routes.split_commas_from (Routes.join_commas (x :: l)) cur = (cur +:+ x) :: l.
Proof.
  revert x cur. induction l as [|y l IH]; intros x cur H.
  - apply Forall_cons in H as [Hx _]. cbn [Routes.join_commas].
    rewrite <- (append_empty_r x) at 1. by rewrite (split_commas_from_app x "" cur Hx).
  - apply Forall_cons in H as [Hx Hl].
    change (Routes.join_commas (x :: y :: l))
      with (x +:+ String "," (Routes.join_commas (y :: l))).
    rewrite (split_commas_from_app x _ cur Hx). cbn [Routes.split_commas_from].
    change (Text.code "," =? 44)%N with true. cbv iota. f_equal.
    by rewrite (IH y "" Hl).
Qed.

Lemma csv_items_fixed l :
  Forall Routes.csv_item l →
  filter (λ x, Is_true (Text.nonempty x)) (map Text.strip l) = l.
Proof.
  induction 1 as [|t l (Hn & _ & Hs) Hl IH]; [done|].
  cbn [map]. rewrite Hs, filter_cons_True by (by apply Is_true_eq_left). by rewrite IH.
Qed.

(** X18: what the steering reads from a comma-separated argument: every item
    is non-empty, free of commas and of white space at its ends; an absent
    argument gives no item; and a list of such items, joined by commas, is
    read back as it is. *)
Theorem csv_items_spec arg :
  Forall Routes.csv_item (Routes.csv_items arg)
  ∧ Routes.csv_items None = []
  ∧ ∀ l, Forall Routes.csv_item l → Routes.csv_items (Some (Routes.join_commas l)) = l.
Proof.
  split; [|split; [done|]].
  - unfold Routes.csv_items, Routes.split_commas.
    pose proof (split_commas_from_chars (default "" arg) "" eq_refl) as H.
    induction H as [|t l Ht Hl IH]; [constructor|].
    cbn [map]. rewrite filter_cons.
    destruct (decide (Is_true (Text.nonempty (Text.strip t)))) as [Hn|Hn]; [|exact IH].
    constructor; [|exact IH].
    split; [by apply Is_true_eq_true|]. split; [by apply strip_all_chars | apply strip_idem].
  - intros l Hl. unfold Routes.csv_items, Routes.split_commas.
    change (default "" (Some (Routes.join_commas l))) with (Routes.join_commas l).
    destruct l as [|x l]; [done|].
    rewrite split_commas_from_join.
    2:{ eapply Forall_impl; [exact Hl|]. by intros t (_ & ? & _). }
    change ("" +:+ x) with x. by apply csv_items_fixed.
Qed.

Lemma yields_bind_first {A B} (R : A → B → Prop) (m : M A) (k : A → M B) :
  (∀ a, yields (R a) (k a)) →
  ∀ w b, (bind m k w).1 = Ret b → ∃ a, (m w).1 = Ret a ∧ R a b.
Proof.
  intros Hk w b. unfold bind. destruct (m w) as [[a|e] w'] eqn:E; [|discriminate].
  intros Hb. exists a. split; [done|]. by apply (Hk a w').
Qed.

Lemma build_request_candidates sp ps n rnd w req :
  (build_request sp ps n rnd w).1 = Ret req →
  (_normalize_genre_list sp (raw_genres_of ps) w).1 = Ret (req_candidates req).
Proof.
  intros H. unfold build_request in H.
  apply (yields_bind_first (λ c req, req_candidates req = c)) in H.
  - by destruct H as (c & Hc & ->).
  - intros c. cbv beta zeta.
    apply yields_bind_any; intros sg1.
    apply yields_bind_any; intros sg.
    apply yields_bind_any; intros kw_seeds.
    by apply yields_ret.
Qed.

Lemma build_request_energy sp ps n rnd :
  yields (λ req, kw_target_energy (req_kwargs req)
                 = _j (Some (mid (energy_range ps))) (12 # 100) (u_energy rnd))
    (build_request sp ps n rnd).
Proof.
  unfold build_request.
  apply yields_bind_any; intros candidates. cbv beta zeta.
  apply yields_bind_any; intros sg1.
  apply yields_bind_any; intros sg.
  apply yields_bind_any; intros kw_seeds.
  apply yields_ret. cbn [req_kwargs].
  destruct (truthy kw_seeds && _ && _); [destruct (0 <? _)%Z|]; reflexivity.
Qed.

Lemma clamp01_fixed y e : (y == e)%Q → (0 <= e <= 1)%Q → (clamp01 y == e)%Q.
Proof.
  intros Hy He. unfold clamp01.
  destruct (Q.min_spec 1 y) as [[H E]|[H E]];
    destruct (Q.max_spec 0 (Qmin 1 y)) as [[H' E']|[H' E']]; rewrite E', ?E; lra.
Qed.

(** The slider value [e] as the centre of the energy target: the target
    sent is within 0.13 of it (0.12 of spread, 0.005 of rounding, and a
    margin for binary floating point). *)
Lemma energy_target_near e u :
  (0 <= e <= 1)%Q → (0 <= u <= 1)%Q →
  ∃ r, _j (Some (mid (Some [e; e]))) (12 # 100) u = Some r
       ∧ (e - (13 # 100) <= r <= e + (13 # 100))%Q.
Proof.
  intros He Hu. eexists. split; [reflexivity|].
  set (c := mid (Some [e; e])).
  assert (Hc : (c == e)%Q).
  { unfold c. change (mid (Some [e; e])) with (clamp01 ((e + (e + 0)) / 2)).
    apply clamp01_fixed; [|done].
    assert (Hsum : (e + (e + 0) == e * 2)%Q) by ring.
    rewrite Hsum. apply Qdiv_mult_l. discriminate. }
  assert (Hc01 : (0 <= c <= 1)%Q) by apply mid_unit.
  assert (Hs : (0 <= 12 # 100)%Q) by (vm_compute; discriminate).
  destruct (jitter_bounds c (12 # 100) Hc01 Hs) as (H1 & H2 & H3 & H4).
  pose proof (Q.le_max_r 0 (c - (12 # 100))) as Hlo.
  pose proof (Q.le_min_r 1 (c + (12 # 100))) as Hhi.
  assert (Hlohi : (Qmax 0 (c - (12 # 100)) <= Qmin 1 (c + (12 # 100)))%Q) by lra.
  pose proof (uniform_between _ _ u Hlohi Hu) as [Ha Hb].
  pose proof (round2_close (uniform (Qmax 0 (c - (12 # 100))) (Qmin 1 (c + (12 # 100))) u))
    as [Hr1 Hr2].
  split; lra.
Qed.

Lemma yields_bind_ret {A B} (R : B → Prop) (a : A) (k : A → M B) :
  yields R (k a) → yields R (bind (ret a) k).
Proof. intros H w b. unfold bind, ret. apply H. Qed.

(** The seeds of the full request: the artist seeds are the first three of
    the caller's artists, and when the normalized candidates are not empty
    the genre seeds are the candidates that fit the slots the artists
    leave. *)
Lemma build_request_seeds sp ps n rnd :
  yields (λ req,
            kw_seed_artists (req_kwargs req)
            = (if truthy (take 3 (user_artist_ids ps))
               then Some (take 3 (user_artist_ids ps)) else None)
            ∧ (req_candidates req ≠ [] →
               kw_seed_genres (req_kwargs req)
               = Some (take (5 - length (take 3 (user_artist_ids ps)))
                         (req_candidates req))))
    (build_request sp ps n rnd).
Proof.
  unfold build_request.
  apply yields_bind_any; intros candidates. cbv beta zeta.
  set (sa := take 3 (user_artist_ids ps)).
  assert (Hsa : length sa ≤ 3) by (unfold sa; rewrite length_take; lia).
  destruct candidates as [|c cs].
  - apply yields_bind_any; intros sg1.
    apply yields_bind_any; intros sg.
    apply yields_bind_any; intros kw_seeds.
    apply yields_ret. cbn [req_kwargs req_candidates]. split; [|done].
    destruct (truthy kw_seeds && _ && _); [destruct (0 <? _)%Z|]; cbn [kw_seed_artists];
      (destruct (truthy sa); [|done]); unfold sa; by rewrite slice_to_5_take_3.
  - set (sg0 := slice_to (Z.max 0 (5 - len sa)) (c :: cs)).
    assert (Hsg0 : sg0 = take (5 - length sa) (c :: cs)).
    { unfold sg0, slice_to, len. destruct (Z.leb_spec 0 (Z.max 0 (5 - Z.of_nat (length sa))));
        [|lia]. f_equal. lia. }
    assert (Ht : truthy sg0 = true).
    { rewrite Hsg0. destruct (5 - length sa) as [|k] eqn:Ek; [lia | done]. }
    rewrite Ht. cbn [negb]. rewrite andb_false_r.
    apply yields_bind_ret. rewrite Ht. cbn [negb]. rewrite andb_false_r.
    apply yields_bind_ret.
    apply yields_bind_any; intros kw_seeds.
    apply yields_ret. cbn [req_kwargs req_candidates].
    assert (Hlt : (len sa <? 5)%Z = true) by (apply Z.ltb_lt; unfold len; lia).
    rewrite Hlt, Ht. cbn [andb].
    assert (Hsl : slice_to (5 - len sa) sg0 = take (5 - length sa) (c :: cs)).
    { rewrite Hsg0. unfold slice_to, len.
      destruct (Z.leb_spec 0 (5 - Z.of_nat (length sa))); [|lia].
      rewrite take_take. f_equal. lia. }
    rewrite Hsl.
    split; [|intros _].
    + destruct (truthy kw_seeds && _ && _); [destruct (0 <? _)%Z|]; cbn [kw_seed_artists];
        (destruct (truthy sa); [|done]); unfold sa; by rewrite slice_to_5_take_3.
    + destruct (truthy kw_seeds && _ && _); [destruct (0 <? _)%Z|]; reflexivity.
Qed.

(** The full request is the first recommendation request [recommend_tracks]
    sends: building it makes no recommendation call, and it is logged right
    after. *)
Lemma recommend_tracks_first_request sp ps n rnd w req w1 :
  build_request sp ps n rnd w = (Ret req, w1) →
  ∃ l0 l, calls w1 = l0 ++ calls w
          ∧ Forall (on_recommendations (λ _, False)) l0
          ∧ calls (recommend_tracks sp ps n rnd w).2
            = l ++ CallRecommendations (req_kwargs req) :: calls w1.
Proof.
  intros E.
  destruct (sound_build_request sp (λ _, False) ps n rnd w) as [[(l0 & El0 & Fl0) _] _].
  rewrite E in El0. cbn [snd] in El0.
  set (P := λ _ : payload, True).
  assert (Hchain : frame P (record_call (CallRecommendations (req_kwargs req)) w1)
            (request_chain sp (req_kwargs req) (req_seeds_artists req)
               (req_seeds_genres req) (req_seed_genres req) ([], ∅) w1).2).
  { by apply request_chain_first. }
  unfold recommend_tracks. rewrite (bind_run _ _ _ _ _ E).
  set (rest := λ p : pool, bind (artist_quota sp (user_artist_ids ps) n p) _).
  assert (Hrest : ∀ p, sound P (λ _ : list string, True) (rest p)).
  { intros p. unfold rest.
    eapply sound_bind; [apply sound_artist_quota|]. intros p' _.
    eapply sound_bind with (Q := λ _, True).
    { destruct (_ <? _)%Z; [|by apply sound_ret].
      eapply sound_bind; [apply sound_backfill_and_filter|]. intros f _.
      by apply sound_ret. }
    intros [f|] _; [by apply sound_ret | apply sound_raise]. }
  assert (Hall : frame P (record_call (CallRecommendations (req_kwargs req)) w1)
            (bind (request_chain sp (req_kwargs req) (req_seeds_artists req)
                     (req_seeds_genres req) (req_seed_genres req) ([], ∅)) rest w1).2).
  { unfold bind.
    destruct (request_chain sp _ _ _ _ _ w1) as [[p|e] w2]; simpl in *; [|exact Hchain].
    eapply frame_trans; [exact Hchain | apply Hrest]. }
  destruct Hall as [(l & El & _) _].
  exists l0, l. done.
Qed.

(** X19: the steering of [playlist_create] reaches the first recommendation
    request [recommend_tracks] sends, the full request.  When the user
    picked artists, its artist seeds are the first three of them.  When the
    user picked genres, those, and not the extractor's, are what is
    normalized, and if the normalized list is not empty its genre seeds are
    the first 5 - k entries of that list, k being the number of its artist
    seeds.  An energy value puts its energy target within 0.13 of that
    value clamped to [[0, 1]].  With nothing picked the parameters are the
    extractor's. *)
Theorem steering_reaches_request sp ps energy genres_csv artist_ids_csv n rnd w :
  (0 <= u_energy rnd <= 1)%Q →
  let picked_artists := Routes.csv_items artist_ids_csv in
  let picked_genres := Routes.csv_items genres_csv in
  let ps' := Routes.steer ps energy genres_csv artist_ids_csv in
  ∃ full l0 l cands,
    calls (recommend_tracks sp ps' n rnd w).2
    = l ++ CallRecommendations full :: l0 ++ calls w
    ∧ Forall (on_recommendations (λ _, False)) l0
    ∧ (picked_artists ≠ [] → kw_seed_artists full = Some (take 3 picked_artists))
    ∧ (picked_genres ≠ [] →
       (_normalize_genre_list sp (GList (map Some picked_genres)) w).1 = Ret cands
       ∧ (cands ≠ [] →
          kw_seed_genres full
          = Some (take (5 - length (default [] (kw_seed_artists full))) cands)))
    ∧ (∀ x, energy = Some x →
         ∃ r, kw_target_energy full = Some r
              ∧ (clamp01 x - (13 # 100) <= r <= clamp01 x + (13 # 100))%Q)
    ∧ (picked_genres = [] → picked_artists = [] → energy = None → ps' = ps).
Proof.
  intros Hu picked_artists picked_genres ps'.
  destruct (returns_build_request sp ps' n rnd w) as (req & w1 & E & _).
  assert (E1 : (build_request sp ps' n rnd w).1 = Ret req) by (by rewrite E).
  destruct (recommend_tracks_first_request sp ps' n rnd w req w1 E)
    as (l0 & l & El0 & Fl0 & El).
  destruct (build_request_seeds sp ps' n rnd w req E1) as [Hart Hgen].
  exists (req_kwargs req), l0, l, (req_candidates req).
  split; [by rewrite El, El0|]. split; [exact Fl0|].
  assert (Hk : default [] (kw_seed_artists (req_kwargs req))
               = take 3 (user_artist_ids ps')).
  { rewrite Hart. by destruct (take 3 (user_artist_ids ps')). }
  split; [|split; [|split]].
  - intros Hne. rewrite Hart.
    unfold ps', Routes.steer. cbn [user_artist_ids]. fold picked_artists.
    destruct picked_artists as [|a rest]; [done|]. reflexivity.
  - intros Hne. split.
    + rewrite <- (build_request_candidates sp ps' n rnd w req E1).
      f_equal. unfold ps', Routes.steer, raw_genres_of. cbn [user_genres].
      fold picked_genres. by destruct picked_genres.
    + intros Hc. rewrite Hk. by apply Hgen.
  - intros x ->. rewrite (build_request_energy sp ps' n rnd w req E1).
    unfold ps', Routes.steer. cbn [energy_range].
    apply energy_target_near; [apply clamp01_unit | done].
  - intros Hg Ha ->. unfold ps', Routes.steer. fold picked_genres picked_artists.
    rewrite Hg, Ha. cbn [truthy]. by destruct ps.
Qed.

Lemma steering_reaches_request_witness :
  ∃ full l0 l,
    calls (recommend_tracks Scenario.offline
             (Routes.steer Scenario.default_params (Some (9 # 10)) (Some "edm, pop")
                (Some "06HL4z0CvFAxyc27GXpf02"))
             15 (Scenario.draws (1 # 2) 0) Scenario.fresh).2
    = l ++ CallRecommendations full :: l0 ++ []
    ∧ kw_seed_artists full = Some ["06HL4z0CvFAxyc27GXpf02"]
    ∧ kw_seed_genres full = Some ["edm"; "pop"]
    ∧ ∃ r, kw_target_energy full = Some r
           ∧ ((9 # 10) - (13 # 100) <= r <= (9 # 10) + (13 # 100))%Q.
Proof.
  destruct (steering_reaches_request Scenario.offline Scenario.default_params
              (Some (9 # 10)) (Some "edm, pop") (Some "06HL4z0CvFAxyc27GXpf02") 15
              (Scenario.draws (1 # 2) 0) Scenario.fresh)
    as (full & l0 & l & cands & El & _ & Hart & Hgen & Hen & _);
    [split; vm_compute; discriminate|].
  exists full, l0, l. split; [exact El|].
  assert (Ha : kw_seed_artists full = Some ["06HL4z0CvFAxyc27GXpf02"]).
  { apply Hart. vm_compute. discriminate. }
  split; [exact Ha|].
  destruct Hgen as [Hc Hg]; [vm_compute; discriminate|].
  assert (Ec : cands = ["edm"; "pop"]).
  { vm_compute in Hc. injection Hc as <-. reflexivity. }
  split.
  - rewrite Hg, Ha, Ec; [reflexivity | by rewrite Ec].
  - destruct (Hen (9 # 10) eq_refl) as (r & Hr & Hb). exists r. split; [exact Hr|].
    exact Hb.
Defined.

(** ** The genre list for the interface *)

Lemma leb_trans s1 s2 s3 :
  String.leb s1 s2 = true → String.leb s2 s3 = true → String.leb s1 s3 = true.
Proof.
  unfold String.leb. revert s2 s3.
  induction s1 as [|c1 s1 IH]; intros [|c2 s2] [|c3 s3]; cbn [String.compare]; try done.
  unfold Ascii.compare.
  destruct (N.compare_spec (N_of_ascii c1) (N_of_ascii c2));
    destruct (N.compare_spec (N_of_ascii c2) (N_of_ascii c3));
    destruct (N.compare_spec (N_of_ascii c1) (N_of_ascii c3));
    try done; try lia. apply IH.
Qed.

Lemma insert_sorted_perm x l : insert_sorted x l ≡ₚ x :: l.
Proof.
  induction l as [|y l IH]; cbn [insert_sorted]; [done|].
  destruct (String.leb x y); [done|]. rewrite IH. apply Permutation_swap.
Qed.

Lemma sorted_perm l : sorted l ≡ₚ l.
Proof.
  induction l as [|x l IH]; [done|]. cbn [sorted fold_right].
  fold (sorted l). by rewrite insert_sorted_perm, IH.
Qed.

Lemma ascending_cons x l :
  ascending (x :: l) ↔ (∀ y, y ∈ l → String.leb x y = true) ∧ ascending l.
Proof.
  revert x. induction l as [|y l IH]; intros x.
  - split; [|done]. intros _. split; [|done]. intros y Hy. by apply not_elem_of_nil in Hy.
  - change (ascending (x :: y :: l)) with (String.leb x y = true ∧ ascending (y :: l)).
    split.
    + intros [Hxy Hyl]. split; [|done]. intros z Hz.
      apply elem_of_cons in Hz as [->|Hz]; [done|].
      apply IH in Hyl as [Hy _]. eapply leb_trans; [exact Hxy | by apply Hy].
    + intros [Hx Hyl]. split; [apply Hx; left | done].
Qed.

Lemma insert_sorted_ascending x l : ascending l → ascending (insert_sorted x l).
Proof.
  induction l as [|y l IH]; intros Hl; cbn [insert_sorted]; [done|].
  destruct (String.leb x y) eqn:E.
  - change (String.leb x y = true ∧ ascending (y :: l)). done.
  - apply ascending_cons in Hl as [Hy Hl]. apply ascending_cons. split; [|by apply IH].
    intros z Hz. rewrite insert_sorted_perm in Hz.
    apply elem_of_cons in Hz as [->|Hz]; [|by apply Hy].
    destruct (String.leb_total x y) as [H|H]; [congruence | done].
Qed.

Lemma sorted_ascending l : ascending (sorted l).
Proof.
  induction l as [|x l IH]; [done|]. cbn [sorted fold_right].
  by apply insert_sorted_ascending.
Qed.

Lemma ascending_unique l1 l2 : ascending l1 → ascending l2 → l1 ≡ₚ l2 → l1 = l2.
Proof.
  revert l2. induction l1 as [|x l1 IH]; intros l2 H1 H2 Hp.
  - by apply Permutation_nil_l in Hp.
  - destruct l2 as [|y l2]; [by apply Permutation_nil_r in Hp|].
    apply ascending_cons in H1 as [Hx H1]. apply ascending_cons in H2 as [Hy H2].
    assert (x = y) as <-.
    { assert (Hxin : x ∈ y :: l2) by (rewrite <- Hp; left).
      assert (Hyin : y ∈ x :: l1) by (rewrite Hp; left).
      apply elem_of_cons in Hxin as [?|Hxin]; [done|].
      apply elem_of_cons in Hyin as [?|Hyin]; [done|].
      apply String.leb_antisym; [by apply Hx | by apply Hy]. }
    f_equal. apply IH; [done | done |]. by apply Permutation_cons_inv in Hp.
Qed.

Lemma sorted_elements_of_list l :
  ascending l → NoDup l → sorted (elements (list_to_set l : gset string)) = l.
Proof.
  intros Ha Hnd. apply ascending_unique; [apply sorted_ascending | done |].
  rewrite sorted_perm. by apply elements_list_to_set.
Qed.

Lemma allowed_genres_for_debug_run sp w :
  ∃ V w', allowed_genres_for_debug sp w = (Ret (sorted (elements V)), w')
          ∧ V ≠ ∅ ∧ _ALLOWED_GENRES_CACHE w' = Some V
          ∧ _GENRE_HERO_CACHE w' = _GENRE_HERO_CACHE w
          ∧ (calls w' = calls w ∨ calls w' = CallGenreSeeds :: calls w).
Proof.
  destruct (_allowed_genres_settles sp w) as (V & w' & E & HV & Hc & Hh & Hl).
  exists V, w'. split; [|done].
  unfold allowed_genres_for_debug. unfold bind at 1, attempt.
  rewrite (bind_run _ _ _ _ _ E). by rewrite bool_decide_true.
Qed.

(** X20: the genre list for the interface is the vocabulary, sorted.
    [allowed_genres_for_debug] never raises and returns the vocabulary that
    is cached afterwards as an ascending list without duplicates, never
    empty, after at most one call: its second fetch and its fallbacks are
    never reached.  [spotify_genres] returns the very same list: its
    baseline list is never served, and its [sorted(set(...))] changes
    nothing. *)
Theorem genre_list_is_sorted_vocabulary sp w :
  ∃ V l w',
    allowed_genres_for_debug sp w = (Ret l, w')
    ∧ Routes.spotify_genres sp w = (Ret l, w')
    ∧ _ALLOWED_GENRES_CACHE w' = Some V
    ∧ (∀ g, g ∈ l ↔ g ∈ V) ∧ l ≠ [] ∧ NoDup l ∧ ascending l
    ∧ (calls w' = calls w ∨ calls w' = CallGenreSeeds :: calls w).
Proof.
  destruct (allowed_genres_for_debug_run sp w) as (V & w' & E & HV & Hc & Hh & Hl).
  set (l := sorted (elements V)) in *.
  assert (Hperm : l ≡ₚ elements V) by apply sorted_perm.
  assert (Hnd : NoDup l) by (rewrite Hperm; apply NoDup_elements).
  assert (Hasc : ascending l) by apply sorted_ascending.
  assert (Hne : l ≠ []).
  { intros Hnil. rewrite Hnil in Hperm. symmetry in Hperm.
    apply Permutation_nil_r in Hperm. by apply (elements_nonempty V HV). }
  exists V, l, w'. split; [exact E|]. split; [|split; [done|split; [|done]]].
  - unfold Routes.spotify_genres. rewrite (bind_run _ _ _ _ _ E).
    clearbody l. assert (Ht : truthy l = true) by (destruct l; [by destruct Hne | done]).
    rewrite Ht. unfold ret. by rewrite sorted_elements_of_list.
  - intros g. rewrite Hperm. apply elem_of_elements.
Qed.

(** ** The hero routes *)

(** One resolution: what was cached stays as it was, and a hero that is
    returned is cached under the key of the genre. *)
Lemma get_genre_hero_step sp genre w :
  (∀ k d, _GENRE_HERO_CACHE w !! k = Some d
          → _GENRE_HERO_CACHE (get_genre_hero sp genre w).2 !! k = Some d)
  ∧ (∀ d, (get_genre_hero sp genre w).1 = Ret (Some d)
          → _GENRE_HERO_CACHE (get_genre_hero sp genre w).2 !! genre_key genre = Some d).
Proof.
  destruct (Text.nonempty (genre_key genre)) eqn:En.
  2:{ rewrite (get_genre_hero_empty sp genre w En). split; [done|]. intros d [=]. }
  destruct (_GENRE_HERO_CACHE w !! genre_key genre) as [d0|] eqn:Ec.
  { rewrite (get_genre_hero_hit sp genre w d0 En Ec). split; [done|].
    intros d [= <-]. exact Ec. }
  destruct (get_genre_hero_miss sp genre (λ _, True) w I En Ec) as [[_ Hstep] _].
  destruct (get_genre_hero sp genre w) as [[[d|]|e] w'] eqn:E; cbn [fst snd] in *.
  - rewrite Hstep. split.
    + intros k d1 Hk. destruct (decide (k = genre_key genre)) as [->|Hne]; [congruence|].
      by rewrite lookup_insert_ne.
    + intros d1 [= <-]. by rewrite lookup_insert_eq.
  - rewrite Hstep. split; [done|]. intros d [=].
  - rewrite Hstep. split; [done|]. intros d [=].
Qed.

Lemma heroes_loop_spec sp (all : list string) items out w :
  (∀ g, g ∈ items → g ∈ all) →
  (∀ g d, out !! g = Some d → g ∈ all ∧ _GENRE_HERO_CACHE w !! genre_key g = Some d) →
  (∀ k d, _GENRE_HERO_CACHE w !! k = Some d
          → _GENRE_HERO_CACHE (Routes.heroes_loop sp items out w).2 !! k = Some d)
  ∧ ∀ out', (Routes.heroes_loop sp items out w).1 = Ret out' →
      ∀ g d, out' !! g = Some d
             → g ∈ all
               ∧ _GENRE_HERO_CACHE (Routes.heroes_loop sp items out w).2 !! genre_key g
                 = Some d.
Proof.
  revert out w. induction items as [|g items IH]; intros out w Hall Hout.
  - cbn. split; [done|]. intros out' [= <-]. exact Hout.
  - cbn [Routes.heroes_loop]. unfold bind.
    destruct (get_genre_hero_step sp g w) as [Hmono Hnew].
    destruct (get_genre_hero sp g w) as [[h|e] w1] eqn:E; cbn [fst snd] in *.
    2:{ split; [exact Hmono | intros out' [=]]. }
    assert (Hall' : ∀ g', g' ∈ items → g' ∈ all) by (intros g' Hg'; apply Hall; by right).
    assert (Hkeep : ∀ g' d, out !! g' = Some d
                    → g' ∈ all ∧ _GENRE_HERO_CACHE w1 !! genre_key g' = Some d).
    { intros g' d Hg'. destruct (Hout g' d Hg') as [Hin Hc]. split; [done | by apply Hmono]. }
    destruct h as [d|].
    + destruct (IH (<[g := d]> out) w1 Hall') as [Hm Hr].
      { intros g' d' Hg'. destruct (decide (g' = g)) as [->|Hne].
        - rewrite lookup_insert_eq in Hg'. injection Hg' as <-.
          split; [apply Hall; left | by apply Hnew].
        - rewrite lookup_insert_ne in Hg' by done. by apply Hkeep. }
      split; [|exact Hr]. intros k d' Hk. by apply Hm, Hmono.
    + destruct (IH out w1 Hall' Hkeep) as [Hm Hr].
      split; [|exact Hr]. intros k d' Hk. by apply Hm, Hmono.
Qed.

(** X21: the hero routes and the cache.  Neither route ever changes or drops an
    entry the hero cache already holds.  What [spotify_genre_heroes] serves
    is not empty; each of its keys is an item of the comma-separated
    argument, and its hero is the one the cache holds, afterwards, under
    that item lower-cased; it fails with 404 or 500 only.
    [spotify_genre_hero] serves the hero the cache then holds for the
    genre, or fails with 404 or 500. *)
Theorem hero_routes_serve_the_cache sp genres_csv genre w :
  let batch := Routes.spotify_genre_heroes sp genres_csv w in
  let one := Routes.spotify_genre_hero sp genre w in
  (∀ k d, _GENRE_HERO_CACHE w !! k = Some d
          → _GENRE_HERO_CACHE batch.2 !! k = Some d ∧ _GENRE_HERO_CACHE one.2 !! k = Some d)
  ∧ match batch.1 with
    | Routes.Served out =>
        out ≠ ∅
        ∧ ∀ g d, out !! g = Some d
                 → g ∈ Routes.csv_items genres_csv
                   ∧ _GENRE_HERO_CACHE batch.2 !! genre_key g = Some d
    | Routes.HTTPException status => status = 404%Z ∨ status = 500%Z
    end
  ∧ match one.1 with
    | Routes.Served d => _GENRE_HERO_CACHE one.2 !! genre_key genre = Some d
    | Routes.HTTPException status => status = 404%Z ∨ status = 500%Z
    end.
Proof.
  intros batch one.
  destruct (heroes_loop_spec sp (Routes.csv_items genres_csv) (Routes.csv_items genres_csv)
              ∅ w) as [Hm Hr]; [done | intros g d Hg; by rewrite lookup_empty in Hg|].
  destruct (get_genre_hero_step sp genre w) as [Hm1 Hn1].
  assert (Hb2 : batch.2 = (Routes.heroes_loop sp (Routes.csv_items genres_csv) ∅ w).2).
  { unfold batch, Routes.spotify_genre_heroes.
    destruct (Routes.heroes_loop sp _ ∅ w) as [[out|e] w']; [|done].
    by case_bool_decide. }
  assert (Ho2 : one.2 = (get_genre_hero sp genre w).2).
  { unfold one, Routes.spotify_genre_hero.
    by destruct (get_genre_hero sp genre w) as [[[d|]|e] w']. }
  split; [|split].
  - intros k d Hk. rewrite Hb2, Ho2. split; [by apply Hm | by apply Hm1].
  - rewrite Hb2. unfold batch, Routes.spotify_genre_heroes.
    destruct (Routes.heroes_loop sp _ ∅ w) as [[out|e] w'] eqn:E; cbn [fst snd] in *;
      [|by right].
    case_bool_decide as Hempty; cbn [fst]; [by left|].
    split; [done|]. by apply Hr.
  - rewrite Ho2. unfold one, Routes.spotify_genre_hero.
    destruct (get_genre_hero sp genre w) as [[[d|]|e] w'] eqn:E; cbn [fst snd] in *;
      [by apply Hn1 | by left | by right].
Qed.

(** ** The vibe extractor *)

Lemma to_last_brace_fixed r :
  Extractor.ends_with_brace r = true → Extractor.to_last_brace r = Some r.
Proof.
  induction r as [|c r IH]; [discriminate|]. intros H.
  cbn [Extractor.to_last_brace]. destruct r as [|d r].
  - cbn in H |- *. by rewrite H.
  - by rewrite IH.
Qed.

Lemma from_first_brace_some s t :
  Extractor.from_first_brace s = Some t →
  ∃ pre t', s = pre +:+ String "{" t' ∧ t = String "{" t'
            ∧ all_chars (λ c, negb (Text.code c =? 123)%N) pre = true.
Proof.
  induction s as [|c s IH]; cbn [Extractor.from_first_brace]; [discriminate|].
  destruct (Text.code c =? 123)%N eqn:E.
  - intros [= <-]. exists "", s. by rewrite (code_eq c 123 eq_refl E).
  - intros H. destruct (IH H) as (pre & t' & -> & -> & Hpre).
    exists (String c pre), t'. split; [done|]. split; [done|].
    cbn [all_chars]. by rewrite E, Hpre.
Qed.

Lemma from_first_brace_none s :
  Extractor.from_first_brace s = None →
  all_chars (λ c, negb (Text.code c =? 123)%N) s = true.
Proof.
  induction s as [|c s IH]; cbn [Extractor.from_first_brace all_chars]; [done|].
  destruct (Text.code c =? 123)%N; [discriminate|]. exact IH.
Qed.

Lemma to_last_brace_some t r :
  Extractor.to_last_brace t = Some r →
  ∃ m post, r = m +:+ "}" ∧ t = m +:+ String "}" post
            ∧ all_chars (λ c, negb (Text.code c =? 125)%N) post = true.
Proof.
  revert r. induction t as [|c t IH]; intros r; cbn [Extractor.to_last_brace];
    [discriminate|].
  destruct (Extractor.to_last_brace t) as [r0|] eqn:E.
  - intros [= <-]. destruct (IH r0 eq_refl) as (m & post & -> & -> & Hpost).
    by exists (String c m), post.
  - destruct (Text.code c =? 125)%N eqn:Ec; [|discriminate].
    intros [= <-]. exists "", t. rewrite (code_eq c 125 eq_refl Ec).
    split; [done|]. split; [done|].
    clear IH Ec. induction t as [|d t IHt]; [done|].
    cbn [Extractor.to_last_brace] in E.
    destruct (Extractor.to_last_brace t); [discriminate|].
    cbn [all_chars]. destruct (Text.code d =? 125)%N; [discriminate|]. by apply IHt.
Qed.

Lemma to_last_brace_none t :
  Extractor.to_last_brace t = None →
  all_chars (λ c, negb (Text.code c =? 125)%N) t = true.
Proof.
  induction t as [|d t IHt]; [done|].
  cbn [Extractor.to_last_brace all_chars].
  destruct (Extractor.to_last_brace t); [discriminate|].
  destruct (Text.code d =? 125)%N; [discriminate|]. by apply IHt.
Qed.

(** Two ways of cutting the same text: one cut lies before the other. *)
Lemma append_eq_split pre t a rest :
  pre +:+ t = a +:+ rest →
  (∃ a', a = pre +:+ a' ∧ t = a' +:+ rest)
  ∨ (∃ c p', pre = a +:+ String c p' ∧ rest = String c p' +:+ t).
Proof.
  revert a. induction pre as [|c pre IH]; intros a H.
  - left. by exists a.
  - destruct a as [|d a].
    + right. exists c, pre. split; [done | exact (eq_sym H)].
    + change (String c (pre +:+ t) = String d (a +:+ rest)) in H.
      injection H as <- H. destruct (IH a H) as [(a' & -> & ->)|(c' & p' & -> & ->)].
      * left. by exists a'.
      * right. by exists c', p'.
Qed.

(** X22: [_extract_json] yields the stretch of the text from its first ["{"]
    to the last ["}"] after it: when the text is [pre{mid}post] with no
    ["{"] in [pre] and no ["}"] in [post], the result is [{mid}]; when the
    text cannot be cut as [pre{mid}post] at all, the result is ["{}"].
    Applying it to its own result changes nothing. *)
Theorem extract_json_braces text :
  let r := Extractor._extract_json text in
  ((∃ pre mid post,
      text = pre +:+ String "{" (mid +:+ String "}" post)
      ∧ all_chars (λ c, negb (Text.code c =? 123)%N) pre = true
      ∧ all_chars (λ c, negb (Text.code c =? 125)%N) post = true
      ∧ r = String "{" (mid +:+ "}"))
   ∨ ((∀ pre mid post, text ≠ pre +:+ String "{" (mid +:+ String "}" post))
      ∧ r = "{}"))
  ∧ Extractor._extract_json r = r.
Proof.
  intros r.
  assert (Hopen : ∀ a rest, all_chars (λ c, negb (Text.code c =? 123)%N)
                              (a +:+ String "{" rest) = false).
  { intros a rest. rewrite all_chars_app. cbn [all_chars].
    change (Text.code "{" =? 123)%N with true. cbn. apply andb_false_r. }
  assert (Hclose : ∀ a rest, all_chars (λ c, negb (Text.code c =? 125)%N)
                               (a +:+ String "}" rest) = false).
  { intros a rest. rewrite all_chars_app. cbn [all_chars].
    change (Text.code "}" =? 125)%N with true. cbn. apply andb_false_r. }
  assert (Hcut : (∃ pre mid post,
                    text = pre +:+ String "{" (mid +:+ String "}" post)
                    ∧ all_chars (λ c, negb (Text.code c =? 123)%N) pre = true
                    ∧ all_chars (λ c, negb (Text.code c =? 125)%N) post = true
                    ∧ r = String "{" (mid +:+ "}"))
                 ∨ ((∀ pre mid post, text ≠ pre +:+ String "{" (mid +:+ String "}" post))
                    ∧ r = "{}")).
  { unfold r, Extractor._extract_json.
    destruct (Extractor.from_first_brace text) as [s|] eqn:Es.
    - destruct (from_first_brace_some text s Es) as (pre & t' & Htext & Hs & Hpre).
      destruct (Extractor.to_last_brace s) as [r0|] eqn:Er.
      + left. destruct (to_last_brace_some s r0 Er) as (m & post & Hr0 & Hs' & Hpost).
        rewrite Hs in Hs'. destruct m as [|c m]; [discriminate Hs'|].
        change (String "{" t' = String c (m +:+ String "}" post)) in Hs'.
        injection Hs' as <- ->.
        exists pre, m, post. by rewrite Hr0.
      + right. split; [|done]. intros a mid post Hcutting.
        apply to_last_brace_none in Er.
        rewrite Htext, <- Hs in Hcutting.
        destruct (append_eq_split pre s a _ Hcutting)
          as [(a' & -> & Hs')|(c & p' & Hp & Hrest)].
        * rewrite Hs' in Er.
          rewrite all_chars_app in Er. apply andb_true_iff in Er as [_ Er].
          cbn [all_chars] in Er. apply andb_true_iff in Er as [_ Er].
          by rewrite Hclose in Er.
        * change (String "{" (mid +:+ String "}" post) = String c (p' +:+ s)) in Hrest.
          injection Hrest as <- _. rewrite Hp in Hpre. by rewrite Hopen in Hpre.
    - right. split; [|done]. intros a mid post ->.
      apply from_first_brace_none in Es. by rewrite Hopen in Es. }
  split; [exact Hcut|].
  clearbody r. destruct Hcut as [(pre & mid & post & _ & _ & _ & ->)|[_ ->]]; [|reflexivity].
  unfold Extractor._extract_json. cbn [Extractor.from_first_brace].
  change (Text.code "{" =? 123)%N with true. cbv iota.
  rewrite (to_last_brace_fixed (String "{" (mid +:+ "}"))); [done|].
  clear. change (Extractor.ends_with_brace (String "{" mid +:+ "}") = true).
  generalize (String "{" mid). intros s. induction s as [|c s IH]; [done|].
  change (Extractor.ends_with_brace (String c (s +:+ "}")) = true).
  destruct s as [|d s]; [exact IH | exact IH].
Qed.

Lemma _coerce_ranges_unit float_of_str d key default :
  (0 <= default.1 <= 1)%Q → (0 <= default.2 <= 1)%Q →
  Extractor.unit_pair (Extractor._coerce_ranges float_of_str d key default).
Proof.
  intros H1 H2. unfold Extractor._coerce_ranges. cbv zeta.
  assert (Hdef : Extractor.unit_pair [default.1; default.2]) by (by eexists _, _).
  destruct (Extractor.unpack2 _) as [[a b]|]; [|done].
  destruct (Extractor.float float_of_str a) as [x|]; [|done].
  destruct (Extractor.float float_of_str b) as [y|]; [|done].
  exists (clamp01 x), (clamp01 y). split; [done|]. split; apply clamp01_unit.
Qed.

Lemma mid_of_unit_pair a b :
  (0 <= a <= 1)%Q → (0 <= b <= 1)%Q → (mid (Some [a; b]) * 2 == a + b)%Q.
Proof.
  intros Ha Hb. change (mid (Some [a; b])) with (clamp01 ((a + (b + 0)) / 2)).
  set (y := ((a + (b + 0)) / 2)%Q).
  assert (Hy : (y * 2 == a + (b + 0))%Q).
  { unfold y. rewrite Qmult_comm. apply Qmult_div_r. discriminate. }
  assert (Hc : (clamp01 y == y)%Q) by (apply clamp01_fixed; [reflexivity | lra]).
  rewrite Hc. lra.
Qed.

(** X23: what the extractor hands to the recommender.  Whenever
    [analyze_vibe_to_json] returns, the tempo lies in [[40, 220]] and each
    of the four ranges is a pair of numbers in [[0, 1]]; so the clamps of
    [recommend_tracks] do nothing to them: the tempo target sent is the
    tempo plus the draw, and twice a centre is the sum of its pair.  A
    reply that is not JSON gives tempo 100 and the four default ranges.
    It raises only on a truthy ["tempo_bpm"] that [int] refuses. *)
Theorem extractor_output float_of_str int_of_str loads raw :
  match Extractor.analyze_reply float_of_str int_of_str loads raw with
  | Some v =>
      (40 <= Extractor.vibe_tempo_bpm v <= 220)%Z
      ∧ Extractor.unit_pair (Extractor.vibe_energy_range v)
      ∧ Extractor.unit_pair (Extractor.vibe_valence_range v)
      ∧ Extractor.unit_pair (Extractor.vibe_danceability_range v)
      ∧ Extractor.unit_pair (Extractor.vibe_acousticness_range v)
      ∧ (∀ ps rnd, tempo_bpm ps = Some (Extractor.vibe_tempo_bpm v)
                   → sent_tempo ps rnd = (Extractor.vibe_tempo_bpm v + tempo_delta rnd)%Z)
      ∧ (∀ a b, Extractor.vibe_energy_range v = [a; b]
                → (mid (Some (Extractor.vibe_energy_range v)) * 2 == a + b)%Q)
      ∧ (loads (Extractor._extract_json raw) = None
         → Extractor.vibe_tempo_bpm v = 100%Z
           ∧ Extractor.vibe_energy_range v = [5 # 10; 7 # 10]
           ∧ Extractor.vibe_valence_range v = [4 # 10; 7 # 10]
           ∧ Extractor.vibe_danceability_range v = [4 # 10; 7 # 10]
           ∧ Extractor.vibe_acousticness_range v = [2 # 10; 6 # 10])
  | None =>
      ∃ data t, loads (Extractor._extract_json raw) = Some data
                ∧ Extractor.get data "tempo_bpm" = Some t
                ∧ Extractor.truthy_json t = true
                ∧ Extractor.int int_of_str t = None
  end.
Proof.
  assert (Hcoerce : ∀ data,
            match Extractor.coerce float_of_str int_of_str data with
            | Some v =>
                (40 <= Extractor.vibe_tempo_bpm v <= 220)%Z
                ∧ Extractor.unit_pair (Extractor.vibe_energy_range v)
                ∧ Extractor.unit_pair (Extractor.vibe_valence_range v)
                ∧ Extractor.unit_pair (Extractor.vibe_danceability_range v)
                ∧ Extractor.unit_pair (Extractor.vibe_acousticness_range v)
                ∧ (∀ ps rnd, tempo_bpm ps = Some (Extractor.vibe_tempo_bpm v)
                     → sent_tempo ps rnd
                       = (Extractor.vibe_tempo_bpm v + tempo_delta rnd)%Z)
                ∧ (∀ a b, Extractor.vibe_energy_range v = [a; b]
                     → (mid (Some (Extractor.vibe_energy_range v)) * 2 == a + b)%Q)
            | None =>
                ∃ t, Extractor.get data "tempo_bpm" = Some t
                     ∧ Extractor.truthy_json t = true
                     ∧ Extractor.int int_of_str t = None
            end).
  { intros data. unfold Extractor.coerce.
    destruct (Extractor.int int_of_str (Extractor.or_else _ _)) as [t|] eqn:Et.
    - cbn [Extractor.vibe_tempo_bpm Extractor.vibe_energy_range
           Extractor.vibe_valence_range Extractor.vibe_danceability_range
           Extractor.vibe_acousticness_range].
      assert (Hunit : ∀ key lo hi, (0 <= lo <= 1)%Q → (0 <= hi <= 1)%Q →
                Extractor.unit_pair (Extractor._coerce_ranges float_of_str data key (lo, hi))).
      { intros key lo hi Hlo Hhi. by apply _coerce_ranges_unit. }
      split; [lia|].
      split; [apply Hunit; split; vm_compute; discriminate|].
      split; [apply Hunit; split; vm_compute; discriminate|].
      split; [apply Hunit; split; vm_compute; discriminate|].
      split; [apply Hunit; split; vm_compute; discriminate|].
      split.
      + intros ps rnd Hps. unfold sent_tempo. rewrite Hps. cbn [from_option id]. lia.
      + intros a b Hab.
        destruct (Hunit "energy_range" (5 # 10) (7 # 10)) as (a' & b' & Hab' & Ha & Hb);
          [split; vm_compute; discriminate | split; vm_compute; discriminate |].
        rewrite Hab in Hab'. injection Hab' as -> ->. rewrite Hab.
        by apply mid_of_unit_pair.
    - unfold Extractor.or_else in Et.
      destruct (Extractor.get data "tempo_bpm") as [t|]; [|discriminate Et].
      destruct (Extractor.truthy_json t) eqn:Ht; [|discriminate Et].
      by exists t. }
  unfold Extractor.analyze_reply.
  destruct (loads (Extractor._extract_json raw)) as [data|] eqn:El.
  - specialize (Hcoerce data).
    destruct (Extractor.coerce float_of_str int_of_str data) as [v|].
    + destruct Hcoerce as (H1 & H2 & H3 & H4 & H5 & H6 & H7). done.
    + destruct Hcoerce as (t & Ht). by exists data, t.
  - specialize (Hcoerce []). cbn in Hcoerce |- *.
    destruct Hcoerce as (H1 & H2 & H3 & H4 & H5 & H6 & H7). done.
Qed.

(** ** Creating the playlist *)

Lemma slice_to_all {A} (k : Z) (l : list A) :
  (0 <= k)%Z → (len l <= k)%Z → slice_to k l = l.
Proof.
  intros Hk Hl. unfold slice_to, len in *.
  destruct (Z.leb_spec 0 k); [|lia]. apply take_ge. lia.
Qed.

(** X24: the outcomes of [playlist_create], for a limit between 1 and 50.  A
    blank prompt is refused with 400 before anything else happens.  The
    only failures are 400 and 500, and nothing was added to any playlist
    when it is 400.  On success the parameters reported are the extractor's
    after the steering; the recommender was run on them, with the limit,
    through the client [get_spotify] gave, and returned between 1 and
    [limit] tracks, none twice; the playlist made for the user of [sp.me()]
    was given exactly that list, whole and in order, and nothing else was
    added; [count] is the length of that list, so that the slice
    [uris[:limit]] and the [min] of the count cut nothing; the URL reported
    is the one the service gives for that playlist. *)
Theorem playlist_create_outcomes environ svc analyze connect playlists rnd
    prompt username public genres_csv artist_ids_csv energy limit st :
  (1 <= limit <= 50)%Z →
  (∀ l, shuffle rnd l ≡ₚ l) →
  let r := Routes.playlist_create environ svc analyze connect playlists rnd
             prompt username public genres_csv artist_ids_csv energy limit st in
  match r.1 with
  | Routes.Served c =>
      ∃ ps client tokens user_id pl_id uris w',
        analyze prompt = Some ps
        ∧ Routes.created_params c = Routes.steer ps energy genres_csv artist_ids_csv
        ∧ Auth.get_spotify environ svc username (Routes.app_tokens st)
          = (Auth.Ok client, tokens)
        ∧ sp_me (playlists client) = Ret (Some user_id)
        ∧ recommend_tracks (connect client) (Routes.created_params c) limit rnd
            (Routes.app_world st) = (Ret uris, w')
        ∧ create_playlist (playlists client) user_id public = Ret pl_id
        ∧ sp_playlist (playlists client) pl_id = Ret (Some (Routes.playlist_url c))
        ∧ r.2 = {| Routes.app_tokens := tokens; Routes.app_world := w';
                   Routes.app_added := (pl_id, uris) :: Routes.app_added st |}
        ∧ Routes.count c = len uris
        ∧ (1 <= len uris <= limit)%Z
        ∧ NoDup uris
  | Routes.HTTPException status =>
      (status = 400 ∨ status = 500)%Z
      ∧ (status = 400%Z → Routes.app_added r.2 = Routes.app_added st)
  end
  ∧ (Text.strip prompt = "" → r = (Routes.HTTPException 400, st)).
Proof.
  intros Hlimit Hsh r. subst r. unfold Routes.playlist_create.
  destruct (Text.nonempty (Text.strip prompt)) eqn:Ep; cbn [negb].
  2:{ cbn. split; [split; [by left | done] | done]. }
  split; [|intros Hblank; by rewrite Hblank in Ep].
  destruct (analyze prompt) as [ps|] eqn:Ea; [|cbn; split; [by right | done]].
  cbv zeta.
  destruct (Auth.get_spotify environ svc username (Routes.app_tokens st))
    as [[client|e] tokens] eqn:Eg; [|cbn; split; [by right | done]].
  destruct (sp_me (playlists client)) as [me|e] eqn:Eme; [|cbn; split; [by right | done]].
  pose proof (recommend_tracks_returns_distinct (connect client)
                (Routes.steer ps energy genres_csv artist_ids_csv) limit rnd
                (Routes.app_world st)) as Hret.
  destruct (recommend_tracks _ _ limit rnd (Routes.app_world st)) as [[uris|e] w] eqn:Er;
    [|cbn; split; [by right | done]].
  destruct (Hret uris Hsh eq_refl) as [Hnd Hlen].
  destruct (truthy uris) eqn:Et; cbn [negb]; [|cbn; split; [by left | done]].
  assert (Hpos : (1 <= len uris)%Z).
  { destruct uris; [discriminate Et|]. unfold len. simpl. lia. }
  destruct me as [user_id|]; [|cbn; split; [by right | done]].
  destruct (create_playlist (playlists client) user_id public) as [pl_id|e] eqn:Ec;
    [|cbn; split; [by right | done]].
  rewrite (slice_to_all limit uris) by lia.
  unfold add_tracks. rewrite Et.
  destruct (sp_playlist_add_items (playlists client) pl_id uris) as [[]|e];
    [|cbn; split; [by right | done]].
  destruct (sp_playlist (playlists client) pl_id) as [[url|]|e] eqn:Eu; cbn;
    [|split; [by right | done]|split; [by right | done]].
  exists ps, client, tokens, user_id, pl_id, uris, w.
  split; [done|]. split; [done|]. split; [done|]. split; [done|]. split; [done|].
  split; [done|]. split; [done|]. split; [done|].
  split; [lia|]. split; [lia | done].
Qed.

Lemma playlist_create_outcomes_witness :
  let r := Routes.playlist_create Auth.example_env Auth.example_accounts
             (λ _, Some Scenario.default_params) (λ _, Scenario.generous)
             (λ _, example_playlists) (Scenario.draws (1 # 2) 0)
             "rainy day focus" "benijah" false (Some "lo-fi, hip hop") None None 20
             {| Routes.app_tokens := <["benijah" := Auth.example_token]> Auth.no_tokens;
                Routes.app_world := Scenario.fresh; Routes.app_added := [] |} in
  match r.1 with
  | Routes.Served c =>
      ∃ ps client tokens user_id pl_id uris w',
        Some Scenario.default_params = Some ps
        ∧ Routes.created_params c = Routes.steer ps None (Some "lo-fi, hip hop") None
        ∧ Auth.get_spotify Auth.example_env Auth.example_accounts "benijah"
            (<["benijah" := Auth.example_token]> Auth.no_tokens)
          = (Auth.Ok client, tokens)
        ∧ sp_me example_playlists = Ret (Some user_id)
        ∧ recommend_tracks Scenario.generous (Routes.created_params c) 20
            (Scenario.draws (1 # 2) 0) Scenario.fresh = (Ret uris, w')
        ∧ create_playlist example_playlists user_id false = Ret pl_id
        ∧ sp_playlist example_playlists pl_id = Ret (Some (Routes.playlist_url c))
        ∧ r.2 = {| Routes.app_tokens := tokens; Routes.app_world := w';
                   Routes.app_added := (pl_id, uris) :: [] |}
        ∧ Routes.count c = len uris
        ∧ (1 <= len uris <= 20)%Z
        ∧ NoDup uris
  | Routes.HTTPException status =>
      (status = 400 ∨ status = 500)%Z
      ∧ (status = 400%Z → Routes.app_added r.2 = [])
  end
  ∧ (Text.strip "rainy day focus" = "" → r = (Routes.HTTPException 400,
       {| Routes.app_tokens := <["benijah" := Auth.example_token]> Auth.no_tokens;
          Routes.app_world := Scenario.fresh; Routes.app_added := [] |})).
Proof.
  apply (playlist_create_outcomes Auth.example_env Auth.example_accounts
           (λ _, Some Scenario.default_params) (λ _, Scenario.generous)
           (λ _, example_playlists) (Scenario.draws (1 # 2) 0)
           "rainy day focus" "benijah" false (Some "lo-fi, hip hop") None None 20).
  - lia.
  - intros l. reflexivity.
Defined.

(** ** Logging in *)

Lemma oauth_state environ state cfg :
  Auth.oauth environ state = Auth.Ok cfg → Auth.state cfg = state.
Proof.
  unfold Auth.oauth.
  destruct (Auth._get_env environ "SPOTIFY_CLIENT_ID" _); [|discriminate].
  destruct (Auth._get_env environ "SPOTIFY_CLIENT_SECRET" _); [|discriminate].
  destruct (Auth._get_env environ "SPOTIFY_REDIRECT_URI" _); [|discriminate].
  by intros [= <-].
Qed.

(** X25: log in, come back, use.  For every user name, [spotify_login] fails
    with 500 only, also for the empty name; when it serves a URL, the name
    is not empty and the URL is the authorization URL of the OAuth object
    whose state is that name.  For a user name without ["-"], the callback
    on that state either redirects to [?connected=<name>] with the token
    the service gave stored under that very name (after which [get_spotify]
    returns a client authorized with its access token, provided the service
    reports the token as not expired), or redirects to
    [?spotify_error=...] and leaves the store as it was. *)
Theorem login_round_trip environ svc get_authorize_url quote_str code username TOKENS :
  let r := Routes.spotify_callback environ svc quote_str code username TOKENS in
  match Routes.spotify_login environ get_authorize_url username with
  | Routes.Served url =>
      Text.nonempty username = true
      ∧ ∃ cfg, Auth.oauth environ username = Auth.Ok cfg
               ∧ Auth.state cfg = username ∧ get_authorize_url cfg = Some url
  | Routes.HTTPException status => status = 500%Z
  end
  ∧ (Routes.dash_free username →
     (r.1 = Routes.Redirect (Routes.FRONTEND_BASE environ +:+ "?connected=" +:+ username)
      ∧ ∃ cfg t a,
          Auth.oauth environ username = Auth.Ok cfg
          ∧ Auth.get_access_token svc cfg code = Auth.Ok (Some t)
          ∧ r.2 = <[username := t]> TOKENS
          ∧ t !! "access_token" = Some a
          ∧ ((∀ cfg', Auth.is_token_expired svc cfg' t = Auth.Ok false) →
             Auth.get_spotify environ svc username r.2
             = (Auth.Ok {| Auth.auth := a |}, r.2)))
     ∨ (∃ e, r.1 = Routes.Redirect (Routes.FRONTEND_BASE environ
                                    +:+ "?spotify_error=" +:+ quote_str e)
             ∧ r.2 = TOKENS)).
Proof.
  intros r. split.
  - unfold Routes.spotify_login.
    destruct (Text.nonempty username) eqn:En; cbn [negb]; [|done].
    destruct (Auth.oauth environ username) as [cfg|e] eqn:Eo; [|done].
    destruct (get_authorize_url cfg) as [url|] eqn:Eu; [|done].
    split; [done|]. exists cfg. split; [done|]. split; [by eapply oauth_state | done].
  - intros Hfree. subst r. unfold Routes.spotify_callback. cbv zeta.
    assert (Hu : Routes.callback_username username = username).
    { unfold Routes.callback_username. apply contains_dash_free in Hfree. by rewrite Hfree. }
    rewrite Hu. unfold Auth.exchange_code_for_token.
    pose proof (oauth_any_state environ username "refresh") as Hoauth.
    destruct (Auth.oauth environ username) as [cfg|e] eqn:Ecfg; [|cbn; right; eauto].
    destruct Hoauth as (cfg' & Hcfg').
    destruct (Auth.get_access_token svc cfg code) as [[t|]|e] eqn:Et;
      [|cbn; right; eauto|cbn; right; eauto].
    destruct (bool_decide (t ≠ ∅)) eqn:Hne; cbn [andb]; [|cbn; right; eauto].
    destruct (bool_decide (is_Some (t !! "access_token"))) eqn:Hat; [|cbn; right; eauto].
    apply bool_decide_eq_true in Hne, Hat. destruct Hat as [a Ha].
    cbn [fst snd]. left. split; [done|]. exists cfg, t, a.
    split; [done|]. split; [done|]. split; [done|]. split; [done|].
    intros Hfresh.
    unfold Auth.get_spotify. rewrite lookup_insert_eq.
    rewrite bool_decide_false by done. by rewrite Hcfg', Hfresh, Ha.
Qed.

Lemma login_round_trip_witness :
  let r := Routes.spotify_callback Auth.example_env Auth.example_accounts example_quote
             "AQBx7" "benijah" Auth.no_tokens in
  Routes.spotify_login Auth.example_env example_authorize_url "benijah"
  = Routes.Served "https://accounts.spotify.com/authorize?state=benijah"
  ∧ r.1 = Routes.Redirect "http://localhost:3000?connected=benijah"
  ∧ Auth.get_spotify Auth.example_env Auth.example_accounts "benijah" r.2
    = (Auth.Ok {| Auth.auth := "BQDf3" |}, r.2).
Proof.
  intros r.
  destruct (login_round_trip Auth.example_env Auth.example_accounts example_authorize_url
              example_quote "AQBx7" "benijah" Auth.no_tokens) as [_ Hback].
  split; [reflexivity|]. split; [reflexivity|].
  destruct (Hback eq_refl) as [(_ & cfg & t & a & _ & Ht & _ & Ha & Hget)|(e & He & _)];
    [|discriminate He].
  injection Ht as <-.
  change (Auth.example_token !! "access_token") with (Some "BQDf3") in Ha.
  injection Ha as <-.
  apply Hget. intros cfg'. reflexivity.
Defined.

(** ** Searching artists *)

(** X26: [search_artists] first gets the client of the user from [get_spotify]:
    when that raises, the route raises the same error and makes no call.
    With a client it makes exactly one call, the artist search on market US
    with the limit brought into [[1, 12]]; it raises when that call does;
    otherwise it gives one row per artist found, in order, whose image is
    the URL of the artist's first image wherever [_first_image_url] gives
    one, and absent where [_first_image_url] raises [KeyError].  The token
    store is as [get_spotify] left it. *)
Theorem search_artists_rows environ svc connect username q limit TOKENS w :
  let lim := Z.min (Z.max limit 1) 12 in
  let got := Auth.get_spotify environ svc username TOKENS in
  let r := Routes.search_artists environ svc connect username q limit TOKENS w in
  (1 <= lim <= 12)%Z
  ∧ (lim = limit ∨ (limit < 1 ∧ lim = 1)%Z ∨ (12 < limit ∧ lim = 12)%Z)
  ∧ r.2.1 = got.2
  ∧ match got.1 with
    | Auth.Err e => r.1 = Routes.AuthRaised e ∧ r.2.2 = w
    | Auth.Ok client =>
        r.2.2 = record_call (CallSearch q "artist" lim (Some "US")) w
        ∧ match sp_search_artists (connect client) (clock w) q lim with
          | Ret items =>
              ∃ rows, r.1 = Routes.Done rows ∧ length rows = length items
                      ∧ ∀ i a, items !! i = Some a →
                          ∃ c, rows !! i = Some c
                               ∧ Routes.card_id c = artist_id a
                               ∧ Routes.card_name c = artist_name a
                               ∧ Routes.card_genres c = default [] (artist_genres a)
                               ∧ Routes.card_url c = artist_url a
                               ∧ match _first_image_url a with
                                 | Ret u => Routes.card_image c = u
                                 | Raise e => e = KeyError ∧ Routes.card_image c = None
                                 end
          | Raise e => r.1 = Routes.CallRaised e
          end
    end.
Proof.
  intros lim got r. split; [lia|]. split; [lia|].
  subst r got. unfold Routes.search_artists.
  destruct (Auth.get_spotify environ svc username TOKENS) as [[client|e] tokens];
    cbn [fst snd]; [|done].
  unfold Routes.search_rows. cbv zeta. fold lim.
  unfold bind, external. cbn [fst snd].
  destruct (sp_search_artists (connect client) (clock w) q lim) as [items|e];
    cbn [fst snd]; [|done].
  split; [done|]. split; [done|]. exists (map Routes.card_of items).
  split; [done|]. split; [by rewrite length_map|].
  intros i a Hi. exists (Routes.card_of a). split; [by rewrite list_lookup_fmap, Hi|].
  split; [done|]. split; [done|]. split; [done|]. split; [done|].
  unfold _first_image_url, Routes.card_of, Routes.first_image. cbn [Routes.card_image].
  by destruct (default [] (artist_images a)) as [|[|u] rest].
Qed.
